(** * HPDDM: Krylov core (CG.hpp, iterative.hpp) and SuiteSparse sub-solver

    Shallow embedding of
      - [SuiteSparseSub::numfact] and the three overloads of
        [SuiteSparseSub::solve] (src/src/SuiteSparse.hpp),
      - [IterativeMethod::Arnoldi], [IterativeMethod::BlockArnoldi] and
        [IterativeMethod::update] (src/include/iterative.hpp),
      - [IterativeMethod::CG], [IterativeMethod::BCG] and
        [IterativeMethod::PCG] (src/include/CG.hpp).

    Conventions.  C++ integers are [Z]; an [unsigned short] that the code
    increments wraps modulo 2^16, a value stored in a [short] wraps to the
    signed 16-bit range.  Template parameters ([excluded], the scalar type
    [K], its underlying real type [U]) are ordinary arguments.  A raw
    pointer is an offset into a block of cells; a block is a finite map
    from offsets to values, so that reads and writes follow the pointer
    arithmetic of the code without any bound.  The kernels of BLAS, LAPACK,
    CHOLMOD, UMFPACK and MPI, the callbacks of the operator, and the helpers
    that the three source files call but do not define are fields of the
    classes below.  The file first gives every definition, then the
    properties. *)

From Stdlib Require Import ZArith Bool Lia Floats Ascii Sorted.
From stdpp Require Import base list gmap strings.

Local Open Scope Z_scope.

(** ** Fixed-width integers *)

(** Conversion to [unsigned short]. *)
Definition to_ushort (z : Z) : Z := z mod 65536.

(** Conversion to [short]. *)
Definition to_short (z : Z) : Z := (z + 32768) mod 65536 - 32768.

(** ** Blocks of cells *)

Abbreviation mem T := (gmap Z T).

(** [p[i]] *)
Definition load {T} (d : T) (m : mem T) (i : Z) : T := default d (m !! i).

(** [p[i] = v] *)
Definition store {T} (m : mem T) (i : Z) (v : T) : mem T := <[i := v]> m.

(** The cells [p[off]], [p[off + inc]], ..., [len] of them. *)
Definition loads_inc {T} (d : T) (m : mem T) (off inc len : Z) : list T :=
  (fun j => load d m (off + j * inc)) <$> seqZ 0 len.

Definition loads {T} (d : T) (m : mem T) (off len : Z) : list T :=
  loads_inc d m off 1 len.

(** The values [vs] written to [p[off]], [p[off + inc]], ... in turn. *)
Fixpoint stores_inc {T} (m : mem T) (off inc : Z) (vs : list T) : mem T :=
  match vs with
  | [] => m
  | v :: vs' => stores_inc (store m off v) (off + inc) inc vs'
  end.

Definition stores {T} (m : mem T) (off : Z) (vs : list T) : mem T :=
  stores_inc m off 1 vs.

(** Exactly [len] cells are written: a kernel that returns fewer values
    leaves the missing ones at [d]. *)
Definition stores_n {T} (d : T) (m : mem T) (off len : Z) (vs : list T)
  : mem T :=
  stores m off ((fun j => nth (Z.to_nat j) vs d) <$> seqZ 0 len).

Definition stores_inc_n {T} (d : T) (m : mem T) (off inc len : Z)
    (vs : list T) : mem T :=
  stores_inc m off inc ((fun j => nth (Z.to_nat j) vs d) <$> seqZ 0 len).

(** [std::fill_n(p + off, len, v)] *)
Definition fill_n {T} (m : mem T) (off len : Z) (v : T) : mem T :=
  stores m off (replicate (Z.to_nat len) v).

(** A C [for] loop over [lo <= j < hi] threading a state. *)
Definition for_ {S} (lo hi : Z) (body : S -> Z -> S) (s : S) : S :=
  foldl body s (seqZ lo (hi - lo)).

(** [std::copy_n(src + soff, len, dst + doff)], one cell after the other;
    [copy_n_in] is the case of one block. *)
Definition copy_n {T} (d : T) (src : mem T) (soff len : Z)
    (dst : mem T) (doff : Z) : mem T :=
  for_ 0 len (fun m j => store m (doff + j) (load d src (soff + j))) dst.

Definition copy_n_in {T} (d : T) (m : mem T) (soff len doff : Z) : mem T :=
  for_ 0 len (fun m j => store m (doff + j) (load d m (soff + j))) m.

(** [std::copy_backward(p + first, p + last, p + dlast)] *)
Definition copy_backward_in {T} (d : T) (m : mem T) (first last dlast : Z)
  : mem T :=
  for_ 0 (last - first)
       (fun m j => store m (dlast - 1 - j) (load d m (last - 1 - j))) m.

(** The two blocks agree outside the cells [lo <= a < hi]. *)
Definition same_outside {T} (lo hi : Z) (m m' : mem T) : Prop :=
  forall a, a < lo \/ hi <= a -> m' !! a = m !! a.

(** The two blocks agree outside the cells of [cells]. *)
Definition written_in {T} (cells : Z -> Prop) (m m' : mem T) : Prop :=
  forall a, ~ cells a -> m' !! a = m !! a.

(** Every cell [lo <= a < hi] of the block holds a value with [P]. *)
Definition all_in {T} (P : T -> Prop) (d : T) (m : mem T) (lo hi : Z)
  : Prop :=
  forall a, lo <= a < hi -> P (load d m a).

(** ** The sub-domain solver of SuiteSparse.hpp *)

Module SuiteSparse.

Inductive xtype_t := CHOLMOD_REAL | CHOLMOD_COMPLEX.
Inductive dtype_t := CHOLMOD_DOUBLE.
Inductive itype_t := CHOLMOD_INT.

(** Where the data pointer of a dense CHOLMOD header points. *)
Inductive data_ptr := NullData | CallerData | TmpData.

(** [MatrixCSR<K>], as [numfact] reads it. *)
Record MatrixCSR (K : Type) := {
  _sym : bool;
  _m : Z;
  _n : Z;
  _nnz : Z;
  _ia : list Z;
  _ja : list Z;
  _a : list K
}.
Arguments _sym {K}.
Arguments _m {K}.
Arguments _n {K}.
Arguments _nnz {K}.
Arguments _ia {K}.
Arguments _ja {K}.
Arguments _a {K}.

Record cholmod_sparse (K : Type) := {
  sp_nrow : Z; sp_ncol : Z; sp_nzmax : Z;
  sp_sorted : Z; sp_packed : Z; sp_stype : Z;
  sp_xtype : xtype_t;
  sp_p : list Z; sp_i : list Z; sp_x : list K;
  sp_dtype : dtype_t; sp_itype : itype_t
}.
Arguments sp_nrow {K}.
Arguments sp_xtype {K}.

(** A [cholmod_dense] header.  [cholmod_malloc] leaves the members that
    [numfact] does not assign unset; they read as [0] and [NullData]. *)
Record cholmod_dense := {
  dn_nrow : Z; dn_ncol : Z; dn_nzmax : Z; dn_d : Z;
  dn_x : data_ptr;
  dn_xtype : xtype_t; dn_dtype : dtype_t
}.

(** The scalar type of the template with what the code asks of it, and the
    entry points of CHOLMOD and UMFPACK with their opaque objects. *)
Class Backends (K : Type) := {
  (** [std::is_same<K, std::complex<double>>::value] *)
  is_complex : bool;
  (** the value of a cell that [new K[...]] has not yet been given *)
  fresh : K;
  (** [std::abs(a) > HPDDM_EPS]; the macro is defined outside the sources *)
  above_eps : K -> bool;
  cholmod_common : Type;
  cholmod_factor : Type;
  cholmod_work : Type;
  umf_symbolic : Type;
  umf_numeric : Type;
  cholmod_start : cholmod_common;
  cholmod_analyze :
    cholmod_sparse K -> cholmod_common -> cholmod_factor * cholmod_common;
  cholmod_factorize :
    cholmod_sparse K -> cholmod_factor -> cholmod_common ->
    cholmod_factor * cholmod_common;
  (** [cholmod_solve2(CHOLMOD_A, L, b, NULL, &x, NULL, &Y, &E, c)]: the
      solution of the right-hand sides read through [b], and the two
      workspaces the call keeps *)
  cholmod_solve2 :
    cholmod_factor -> cholmod_dense -> list K ->
    option cholmod_work -> option cholmod_work -> cholmod_common ->
    list K * option cholmod_work * option cholmod_work;
  umfpack_defaults : mem Z;
  UMFPACK_PRL : Z;
  UMFPACK_IRSTEP : Z;
  umfpack_symbolic :
    Z -> Z -> list Z -> list Z -> list K -> mem Z -> umf_symbolic;
  umfpack_numeric :
    list Z -> list Z -> list K -> umf_symbolic -> mem Z -> umf_numeric;
  (** [umfpack_wsolve(UMFPACK_Aat, NULL, NULL, NULL, X, B, numeric,
      control, NULL, Wi, W)]: what it leaves in [X] *)
  umfpack_wsolve : option umf_numeric -> option (mem Z) -> list K -> list K
}.

(** The members of [SuiteSparseSub<K>].  A null pointer is [None].  [_tmp]
    owns a block; [_W] points into that block and holds its offset there. *)
Record SuiteSparseSub (K : Type) `{Backends K} := {
  _L : option cholmod_factor;
  _c : option cholmod_common;
  _b : option cholmod_dense;
  _x : option cholmod_dense;
  _Y : option cholmod_work;
  _E : option cholmod_work;
  _numeric : option umf_numeric;
  _control : option (mem Z);
  _pattern : option (mem Z);
  _W : option Z;
  _tmp : option (mem K)
}.
Arguments _L {K _}.
Arguments _c {K _}.
Arguments _b {K _}.
Arguments _x {K _}.
Arguments _Y {K _}.
Arguments _E {K _}.
Arguments _numeric {K _}.
Arguments _control {K _}.
Arguments _pattern {K _}.
Arguments _W {K _}.
Arguments _tmp {K _}.

Section Sub.
Context {K : Type} `{BK : Backends K}.

(** The constructor: every member is value-initialised. *)
Definition SuiteSparseSub_new : SuiteSparseSub K :=
  {| _L := None; _c := None; _b := None; _x := None; _Y := None;
     _E := None; _numeric := None; _control := None; _pattern := None;
     _W := None; _tmp := None |}.

(** [!p] *)
Definition null {A} (p : option A) : bool :=
  match p with None => true | Some _ => false end.

(** [p[i]] on an array of the matrix. *)
Definition at_ {T} (d : T) (l : list T) (i : Z) : T :=
  if i <? 0 then d else nth (Z.to_nat i) l d.

(** [v[i].emplace_back(e)] on the vector of rows. *)
Definition emplace_back (v : list (list (Z * K))) (i : Z) (e : Z * K)
  : list (list (Z * K)) :=
  if i <? 0 then v else alter (fun row => row ++ [e]) (Z.to_nat i) v.

(** One turn of the inner loop of the expansion: an entry of row [i] before
    the last one goes to row [i] and, mirrored, to the row of its column
    when it is above the threshold. *)
Definition expand_entry (A : MatrixCSR K) (i : Z)
    (v : list (list (Z * K))) (j : Z) : list (list (Z * K)) :=
  if above_eps (at_ fresh (_a A) j) then
    emplace_back
      (emplace_back v i (at_ 0 (_ja A) j, at_ fresh (_a A) j))
      (at_ 0 (_ja A) j) (i, at_ fresh (_a A) j)
  else v.

(** One turn of the outer loop: the last entry of the row is its diagonal
    and is always kept. *)
Definition expand_row (A : MatrixCSR K) (v : list (list (Z * K))) (i : Z)
  : list (list (Z * K)) :=
  let v' := for_ (at_ 0 (_ia A) i) (at_ 0 (_ia A) (i + 1) - 1)
                 (expand_entry A i) v in
  emplace_back v' i (i, at_ fresh (_a A) (at_ 0 (_ia A) (i + 1) - 1)).

Definition expand_rows (A : MatrixCSR K) : list (list (Z * K)) :=
  for_ 0 (_n A) (expand_row A) (replicate (Z.to_nat (_n A)) []).

(** [std::sort] of a row by column index. *)
Fixpoint insert_by_col (e : Z * K) (row : list (Z * K)) : list (Z * K) :=
  match row with
  | [] => [e]
  | e' :: row' =>
      if fst e' <=? fst e then e' :: insert_by_col e row' else e :: row
  end.

Definition sort_row (row : list (Z * K)) : list (Z * K) :=
  foldr insert_by_col [] row.

(** The order of that [std::sort]: by column index. *)
Definition by_column (e e' : Z * K) : Prop := fst e <= fst e'.

(** The last loop of the expansion: the rows laid out as [ia], [ja], [a]. *)
Definition flatten_rows (v : list (list (Z * K)))
  : list Z * list Z * list K :=
  foldl (fun '(ia, ja, a) row =>
           (ia ++ [Z.of_nat (length ja + length row)],
            ja ++ (fst <$> row), a ++ (snd <$> row)))
        ([0], [], []) v.

(** The arrays [ia], [ja], [a] handed to UMFPACK. *)
Definition umfpack_input (A : MatrixCSR K) : list Z * list Z * list K :=
  if negb (_sym A) then (_ia A, _ja A, _a A)
  else flatten_rows (sort_row <$> expand_rows A).

(** [SuiteSparseSub::numfact(A, detection)] *)
Definition numfact (A : MatrixCSR K) (detection : bool)
    (s : SuiteSparseSub K) : SuiteSparseSub K :=
  if null (_c s) && null (_W s) then
    if _sym A && negb is_complex then
      let c := cholmod_start in
      let M := {| sp_nrow := _m A; sp_ncol := _n A; sp_nzmax := _nnz A;
                  sp_sorted := 1; sp_packed := 1; sp_stype := 1;
                  sp_xtype := if is_complex then CHOLMOD_COMPLEX
                              else CHOLMOD_REAL;
                  sp_p := _ia A; sp_i := _ja A; sp_x := _a A;
                  sp_dtype := CHOLMOD_DOUBLE; sp_itype := CHOLMOD_INT |} in
      let '(L, c) := cholmod_analyze M c in
      let '(L, c) := cholmod_factorize M L c in
      let b := {| dn_nrow := sp_nrow M; dn_ncol := 0; dn_nzmax := 0;
                  dn_d := sp_nrow M; dn_x := NullData;
                  dn_xtype := sp_xtype M; dn_dtype := CHOLMOD_DOUBLE |} in
      let x := {| dn_nrow := sp_nrow M; dn_ncol := 0; dn_nzmax := 0;
                  dn_d := sp_nrow M; dn_x := NullData;
                  dn_xtype := sp_xtype M; dn_dtype := CHOLMOD_DOUBLE |} in
      {| _L := Some L; _c := Some c; _b := Some b; _x := Some x;
         _Y := _Y s; _E := _E s; _numeric := _numeric s;
         _control := _control s; _pattern := _pattern s; _W := _W s;
         _tmp := Some ∅ |}
    else
      let control :=
        store (store umfpack_defaults UMFPACK_PRL 0) UMFPACK_IRSTEP 0 in
      let '(ia, ja, a) := umfpack_input A in
      let symbolic := umfpack_symbolic (_m A) (_n A) ia ja a control in
      let numeric := umfpack_numeric ia ja a symbolic control in
      {| _L := _L s; _c := _c s; _b := _b s; _x := _x s;
         _Y := _Y s; _E := _E s; _numeric := Some numeric;
         _control := Some control; _pattern := Some ∅;
         _W := Some (_m A); _tmp := Some ∅ |}
  else s.

(** [SuiteSparseSub::solve(K* x) const] on the vector [x] of the caller:
    what the call leaves in [x], and the object, whose headers and
    workspaces the call writes. *)
Definition solve (x : mem K) (s : SuiteSparseSub K)
  : mem K * SuiteSparseSub K :=
  match _c s with
  | Some c =>
      match _L s, _b s, _x s with
      | Some L, Some b, Some xd =>
          let b' := {| dn_nrow := dn_nrow b; dn_ncol := 1;
                       dn_nzmax := dn_nrow xd; dn_d := dn_d b;
                       dn_x := CallerData;
                       dn_xtype := dn_xtype b; dn_dtype := dn_dtype b |} in
          let xd' := {| dn_nrow := dn_nrow xd; dn_ncol := 1;
                        dn_nzmax := dn_nrow xd; dn_d := dn_d xd;
                        dn_x := TmpData;
                        dn_xtype := dn_xtype xd; dn_dtype := dn_dtype xd |} in
          let '(sol, Y, E) :=
            cholmod_solve2 L b' (loads fresh x 0 (dn_nrow b')) (_Y s) (_E s) c
          in
          let tmp := stores_n fresh (default ∅ (_tmp s)) 0 (dn_nrow xd') sol in
          (copy_n fresh tmp 0 (dn_nrow xd') x 0,
           {| _L := _L s; _c := _c s; _b := Some b'; _x := Some xd';
              _Y := Y; _E := E; _numeric := _numeric s;
              _control := _control s; _pattern := _pattern s;
              _W := _W s; _tmp := Some tmp |})
      | _, _, _ => (x, s)
      end
  | None =>
      let len := default 0 (_W s) in
      let sol := umfpack_wsolve (_numeric s) (_control s) (loads fresh x 0 len)
      in
      let tmp := stores_n fresh (default ∅ (_tmp s)) 0 len sol in
      (copy_n fresh tmp 0 len x 0,
       {| _L := _L s; _c := _c s; _b := _b s; _x := _x s;
          _Y := _Y s; _E := _E s; _numeric := _numeric s;
          _control := _control s; _pattern := _pattern s;
          _W := _W s; _tmp := Some tmp |})
  end.

(** [SuiteSparseSub::solve(K* x, const unsigned short& n) const]: [n]
    right-hand sides, one after the other in [x].  CHOLMOD solves them in
    one call into a buffer that the call allocates and frees; UMFPACK
    solves them one by one, [ld = std::distance(_tmp, _W)] cells apart. *)
Definition solve_n (x : mem K) (n : Z) (s : SuiteSparseSub K)
  : mem K * SuiteSparseSub K :=
  match _c s with
  | Some c =>
      match _L s, _b s, _x s with
      | Some L, Some b, Some xd =>
          let b' := {| dn_nrow := dn_nrow b; dn_ncol := n;
                       dn_nzmax := dn_nrow xd; dn_d := dn_d b;
                       dn_x := CallerData;
                       dn_xtype := dn_xtype b; dn_dtype := dn_dtype b |} in
          let xd' := {| dn_nrow := dn_nrow xd; dn_ncol := n;
                        dn_nzmax := dn_nrow xd; dn_d := dn_d xd;
                        dn_x := NullData;
                        dn_xtype := dn_xtype xd; dn_dtype := dn_dtype xd |} in
          let '(sol, Y, E) :=
            cholmod_solve2 L b' (loads fresh x 0 (n * dn_nrow b')) (_Y s)
                           (_E s) c in
          let buffer := stores_n fresh ∅ 0 (n * dn_nrow xd') sol in
          (copy_n fresh buffer 0 (n * dn_nrow xd') x 0,
           {| _L := _L s; _c := _c s; _b := Some b'; _x := Some xd';
              _Y := Y; _E := E; _numeric := _numeric s;
              _control := _control s; _pattern := _pattern s;
              _W := _W s; _tmp := _tmp s |})
      | _, _, _ => (x, s)
      end
  | None =>
      let ld := default 0 (_W s) in
      let '(x, tmp) :=
        for_ 0 n
          (fun '(x, tmp) i =>
             let sol := umfpack_wsolve (_numeric s) (_control s)
                                       (loads fresh x (i * ld) ld) in
             let tmp := stores_n fresh tmp 0 ld sol in
             (copy_n fresh tmp 0 ld x (i * ld), tmp))
          (x, default ∅ (_tmp s)) in
      (x,
       {| _L := _L s; _c := _c s; _b := _b s; _x := _x s;
          _Y := _Y s; _E := _E s; _numeric := _numeric s;
          _control := _control s; _pattern := _pattern s;
          _W := _W s; _tmp := Some tmp |})
  end.

(** [SuiteSparseSub::solve(const K* b, K* x) const]: the solution of the
    right-hand side [b] goes to [x]; [_tmp] is not used. *)
Definition solve_to (b x : mem K) (s : SuiteSparseSub K)
  : mem K * SuiteSparseSub K :=
  match _c s with
  | Some c =>
      match _L s, _b s, _x s with
      | Some L, Some bd, Some xd =>
          let b' := {| dn_nrow := dn_nrow bd; dn_ncol := 1;
                       dn_nzmax := dn_nrow xd; dn_d := dn_d bd;
                       dn_x := CallerData;
                       dn_xtype := dn_xtype bd; dn_dtype := dn_dtype bd |} in
          let xd' := {| dn_nrow := dn_nrow xd; dn_ncol := 1;
                        dn_nzmax := dn_nrow xd; dn_d := dn_d xd;
                        dn_x := CallerData;
                        dn_xtype := dn_xtype xd; dn_dtype := dn_dtype xd |} in
          let '(sol, Y, E) :=
            cholmod_solve2 L b' (loads fresh b 0 (dn_nrow b')) (_Y s) (_E s) c
          in
          (stores_n fresh x 0 (dn_nrow xd') sol,
           {| _L := _L s; _c := _c s; _b := Some b'; _x := Some xd';
              _Y := Y; _E := E; _numeric := _numeric s;
              _control := _control s; _pattern := _pattern s;
              _W := _W s; _tmp := _tmp s |})
      | _, _, _ => (x, s)
      end
  | None =>
      let len := default 0 (_W s) in
      (stores_n fresh x 0 len
         (umfpack_wsolve (_numeric s) (_control s) (loads fresh b 0 len)),
       s)
  end.

(** What no overload of [solve] writes in the object. *)
Definition same_factorization (s s' : SuiteSparseSub K) : Prop :=
  _L s' = _L s /\ _c s' = _c s /\ _numeric s' = _numeric s /\
  _control s' = _control s /\ _pattern s' = _pattern s /\ _W s' = _W s.

(** Which factorization an object holds, read off the two members that
    [numfact] and [solve] test. *)
Inductive backend := Cholesky | LU.

Definition holds (s : SuiteSparseSub K) : option backend :=
  if negb (null (_c s)) then Some Cholesky
  else if negb (null (_W s)) then Some LU
  else None.

(** Position [j] of the arrays lies in row [i] and is not the last of that
    row, which holds the diagonal. *)
Definition stored (A : MatrixCSR K) (i j : Z) : Prop :=
  at_ 0 (_ia A) i <= j < at_ 0 (_ia A) (i + 1) - 1.

(** What the expansion puts in row [r] once the rows below [bound] have
    been read: the diagonal of the row, the entries of the row above the
    threshold, and the mirror images of such entries of other rows. *)
Inductive expanded (A : MatrixCSR K) (bound r : Z) (e : Z * K) : Prop :=
| expanded_diag :
    0 <= r < bound ->
    e = (r, at_ fresh (_a A) (at_ 0 (_ia A) (r + 1) - 1)) ->
    expanded A bound r e
| expanded_kept j :
    0 <= r < bound -> stored A r j ->
    above_eps (at_ fresh (_a A) j) = true ->
    e = (at_ 0 (_ja A) j, at_ fresh (_a A) j) ->
    expanded A bound r e
| expanded_mirror i j :
    0 <= i < bound -> stored A i j ->
    above_eps (at_ fresh (_a A) j) = true ->
    at_ 0 (_ja A) j = r ->
    e = (i, at_ fresh (_a A) j) ->
    expanded A bound r e.

(** Entry [e] is in row [r] of the vector of rows. *)
Definition in_row (v : list (list (Z * K))) (r : Z) (e : Z * K) : Prop :=
  0 <= r /\ exists row, v !! Z.to_nat r = Some row /\ e ∈ row.

End Sub.
End SuiteSparse.

(** ** Scalars, kernels and the operator *)

(** The scalar type [K] of the templates and [underlying_type<K>], with the
    arithmetic the three functions use. *)
Class Scalar (K U : Type) := {
  (** [K()] *)
  K0 : K;
  (** [Wrapper<K>::d__0], [d__1], [d__2]: zero, one, minus one *)
  d__0 : K;
  d__1 : K;
  d__2 : K;
  (** [Wrapper<K>::is_complex] *)
  is_complex : bool;
  (** [Wrapper<K>::transc]: ["T"] for a real [K], ["C"] for a complex one *)
  transc : string;
  Kopp : K -> K;
  Kadd : K -> K -> K;
  Kmul : K -> K -> K;
  Kdiv : K -> K -> K;
  (** [a / 2.0] *)
  Khalf : K -> K;
  (** [Wrapper<K>::conj] *)
  conj : K -> K;
  (** [std::real] *)
  real : K -> U;
  (** the conversion of an [underlying_type<K>] to [K] *)
  of_real : U -> K;
  (** [u * a] and [a / u] for a real [u] *)
  Kscale : U -> K -> K;
  Kdiv_real : K -> U -> K;
  (** [underlying_type<K>()] *)
  U0 : U;
  (** [Wrapper<underlying_type<K>>::d__0] and [d__1] *)
  Ud__0 : U;
  Ud__1 : U;
  Uopp : U -> U;
  Udiv : U -> U -> U;
  Usqrt : U -> U;
  (** [a <= b] *)
  Uleb : U -> U -> bool;
  (** [std::numeric_limits<underlying_type<K>>::max()] *)
  Umax : U;
  (** the real part of zero is zero *)
  real_K0 : real K0 = U0
}.

(** [Blas<K>] and [Wrapper<K>::diag].  A vector argument is the list of the
    cells the kernel reads; a matrix argument is the list of its columns.
    Each kernel returns what it leaves in its output argument. *)
Class Blas (K U : Type) `{Scalar K U} := {
  dot : Z -> list K -> list K -> K;
  axpy : Z -> K -> list K -> list K -> list K;
  axpby : Z -> K -> list K -> K -> list K -> list K;
  nrm2 : Z -> list K -> U;
  gemv : string -> Z -> Z -> K -> list (list K) -> list K -> K -> list K ->
         list K;
  gemm : string -> string -> Z -> Z -> Z -> K -> list (list K) ->
         list (list K) -> K -> list (list K) -> list (list K);
  gemmt : string -> string -> string -> Z -> Z -> K -> list (list K) ->
          list (list K) -> K -> list (list K) -> list (list K);
  trsm : string -> string -> string -> string -> Z -> Z -> K ->
         list (list K) -> list (list K) -> list (list K);
  trmm : string -> string -> string -> string -> Z -> Z -> K ->
         list (list K) -> list (list K) -> list (list K);
  herk : string -> string -> Z -> Z -> U -> list (list K) -> U ->
         list (list K) -> list (list K);
  (** [Wrapper<K>::diag(n, d, in, out, mu)] and, without [out], the scaling
      in place: the scaled cells *)
  diag : Z -> option (list U) -> list K -> Z -> list K;
  (** a dot product over no cell is zero *)
  dot_0 : forall n x y, n <= 0 -> dot n x y = K0
}.

(** [Lapack<K>]: what each routine leaves in its output arguments, its
    workspace and [info]. *)
Class Lapack (K : Type) := {
  ppsv : string -> Z -> Z -> list K -> list (list K) ->
         list K * list (list K) * Z;
  posv : string -> Z -> Z -> list (list K) -> list (list K) ->
         list (list K) * list (list K) * Z;
  potrf : string -> Z -> list (list K) -> list (list K) * Z;
  geqrf : Z -> Z -> list (list K) -> Z -> list (list K) * list K * list K * Z;
  mqr : string -> string -> Z -> Z -> Z -> list (list K) -> list K ->
        list (list K) -> Z -> list (list K) * list K * Z
}.

Inductive mpi_datatype := mpi_type | mpi_underlying_type.

(** [MPI_Allreduce(MPI_IN_PLACE, buf, count, type, MPI_SUM, comm)]: from the
    summands of this rank, the sums over the ranks.  [Env] is what lies
    outside the rank and the solver: the other ranks, the communicator, the
    inside of the operator. *)
Class Mpi (K U Env : Type) := {
  allreduce_K : Z -> mpi_datatype -> list K -> Env -> list K * Env;
  allreduce_U : Z -> mpi_datatype -> list U -> Env -> list U * Env
}.

(** The contract of the operator [A]. *)
Class Operator (K U Env : Type) := {
  prefix : string;
  getDof : Z;
  getMult : Z;
  getEliminated : Z;
  (** [A.getScaling()], null or the weights *)
  getScaling : option (mem U);
  (** whether [ptr_type] is [K*] (otherwise it is [K**]) *)
  ptr_type_is_single : bool;
  (** [A.start<excluded>(b, x, mu)]: its result and what it leaves in [x] *)
  start : bool -> list K -> list K -> Z -> Env -> bool * list K * Env;
  (** [A.GMV(in, out, mu)] *)
  GMV : list K -> Z -> Env -> list K * Env;
  (** [A.apply<excluded>(in, out, mu, work)]: [out] and [work] *)
  apply : bool -> list K -> Z -> option (list K) -> Env ->
          list K * list K * Env;
  (** [A.end(allocate)] *)
  end_ : bool -> Env -> Env;
  (** what PCG calls: [allocateArray], [allocateSingle], the four-argument
      [start], [precond], [project], the two-argument [apply],
      [computeDot] and [computeSolution] *)
  allocateArray : Env -> mem K * mem K * Env;
  allocateSingle : Env -> mem K * Env;
  start_projected : bool -> mem K -> mem K -> Z -> option (mem K) -> mem K ->
                    Env -> bool * mem K * option (mem K) * mem K * Env;
  precond : mem K -> mem K -> Env -> mem K * Env;
  project_N : bool -> mem K -> mem K -> Env -> mem K * Env;
  project_T : bool -> mem K -> Env -> mem K * Env;
  apply_projected : mem K -> mem K -> Env -> mem K * Env;
  computeDot : bool -> mem K -> mem K -> Env -> U * Env;
  computeSolution : bool -> mem K -> mem K -> Env -> mem K * Env
}.

(** ** What a call shows to the outside *)

Inductive Event (K U : Type) :=
| EvAllreduce_K (count : Z) (ty : mpi_datatype) (send : list K)
| EvAllreduce_U (count : Z) (ty : mpi_datatype) (send : list U)
| EvStart
| EvEnd (allocate : bool)
| EvDelete (what : string)
(** the line PCG writes to [std::cout] when [verbosity > 2] *)
| EvPrint (i : Z) (resRel resInit ratio tol : U)
(** the report of [convergence<T>(verbosity, i, it)] *)
| EvConvergence (T : Z) (verbosity : Z) (i : Z) (it : Z).
Arguments EvAllreduce_K {K U}.
Arguments EvAllreduce_U {K U}.
Arguments EvStart {K U}.
Arguments EvEnd {K U}.
Arguments EvDelete {K U}.
Arguments EvPrint {K U}.
Arguments EvConvergence {K U}.

(** The helpers of [IterativeMethod] and the configuration that CG.hpp
    calls and that the sources only declare or do not show. *)
Class Helpers (K U Env : Type) := {
  (** the singleton [*Option::get()] *)
  Option_ : Type;
  (** [opt.any_of(key, values)] *)
  any_of : Option_ -> string -> list Z -> bool;
  (** [opt.val<T>(key, default)] *)
  val : Option_ -> string -> Z -> Z;
  (** [options<T>(prefix, &tol, nullptr, &it, id)]: [tol], the iteration
      bound, [id[0]] and [id[1]] *)
  options : Z -> string -> Option_ -> U * Z * Z * Z;
  (** [checkConvergence<2>(id, j, i, tol, mu, norm, res, conv, sentinel)]:
      what it leaves in [conv] *)
  checkConvergence : Z -> Z -> Z -> U -> Z -> list U -> list U -> list Z ->
                     Z -> list Z;
  (** [checkBlockConvergence<3>(id, i, tol, mu, d, norm, res, ldh, work, t)]:
      its result and what it leaves in [work] *)
  checkBlockConvergence : Z -> Z -> U -> Z -> Z -> list U -> list K -> Z ->
                          list K -> Z -> Z * list K;
  (** [QR<excluded>(id, n, k, 1, Q, R, ldr, comm, nullptr, true, d, work)]:
      [info] and what it leaves in [Q], [R] and [work] *)
  QR : bool -> Z -> Z -> Z -> list K -> list K -> Z -> option (list U) ->
       list K -> Env -> Z * list K * list K * list K * Env;
  (** [GMRES<excluded>(A, b, x, mu, comm)]: its result and [x], the outside,
      and what the call does to it *)
  GMRES : bool -> Option_ -> mem K -> mem K -> Z -> Env ->
          Z * mem K * Env * list (Event K U)
}.

(** ** The two orthogonalization kernels of iterative.hpp *)

Section Krylov.
Context {K U Env : Type} `{SC : Scalar K U} `{BL : !Blas K U}.
Context `{LP : !Lapack K}.
Context `{MP : !Mpi K U Env} `{OP : !Operator K U Env}.
Context `{HP : !Helpers K U Env}.

(** A computation that calls the outside: from the outside as it is, the
    result, the outside as the computation leaves it, and the events the
    computation shows, oldest first. *)
Definition M (A : Type) : Type := Env -> A * Env * list (Event K U).

#[global] Instance M_ret : MRet M := fun A a e => (a, e, []).

#[global] Instance M_bind : MBind M :=
  fun A B f m e =>
    let '(a, e1, t1) := m e in
    let '(b, e2, t2) := f a e1 in
    (b, e2, t1 ++ t2).

Definition emit (ev : Event K U) : M unit := fun e => (tt, e, [ev]).

Definition call {A} (f : Env -> A * Env) : M A :=
  fun e => let '(a, e') := f e in (a, e', []).

(** The same for a computation that may not return. *)
Definition MO (A : Type) : Type :=
  Env -> option (A * Env * list (Event K U)).

#[global] Instance MO_ret : MRet MO := fun A a e => Some (a, e, []).

#[global] Instance MO_bind : MBind MO :=
  fun A B f m e =>
    match m e with
    | Some (a, e1, t1) =>
        match f a e1 with
        | Some (b, e2, t2) => Some (b, e2, t1 ++ t2)
        | None => None
        end
    | None => None
    end.

Definition lift {A} (m : M A) : MO A := fun e => Some (m e).

(** A [for] loop whose body calls the outside. *)
Fixpoint foldlM {S} (body : S -> Z -> M S) (l : list Z) (s : S) : M S :=
  match l with
  | [] => mret s
  | j :: l' => s' ← body s j; foldlM body l' s'
  end.

Definition forM {S} (lo hi : Z) (body : S -> Z -> M S) (s : S) : M S :=
  foldlM body (seqZ lo (hi - lo)) s.

Definition MPI_Allreduce_K (buf : mem K) (off count : Z)
    (ty : mpi_datatype) : M (mem K) :=
  let send := loads K0 buf off count in
  _ ← emit (EvAllreduce_K count ty send);
  recv ← call (allreduce_K count ty send);
  mret (stores_n K0 buf off count recv).

Definition MPI_Allreduce_U (buf : mem U) (off count : Z)
    (ty : mpi_datatype) : M (mem U) :=
  let send := loads U0 buf off count in
  _ ← emit (EvAllreduce_U count ty send);
  recv ← call (allreduce_U count ty send);
  mret (stores_n U0 buf off count recv).

(** A column-major matrix of [rows] by [cols] cells at [p + off] with
    leading dimension [ld], as the list of its columns. *)
Definition load_mat (m : mem K) (off ld rows cols : Z) : list (list K) :=
  (fun c => loads K0 m (off + c * ld) rows) <$> seqZ 0 cols.

Definition store_mat (m : mem K) (off ld rows cols : Z)
    (A : list (list K)) : mem K :=
  for_ 0 cols
       (fun m c => stores_n K0 m (off + c * ld) rows (nth (Z.to_nat c) A []))
       m.

(** [Wrapper<K>::omatcopy<'N'>(n, m, a, lda, b, ldb)]: [n] runs of [m]
    cells. *)
Definition omatcopy_N (n m : Z) (a : mem K) (aoff lda : Z)
    (b : mem K) (boff ldb : Z) : mem K :=
  for_ 0 n (fun b c => copy_n K0 a (aoff + c * lda) m b (boff + c * ldb)) b.

(** The blocks the two kernels work on.  [H], [v] and [save] are arrays of
    pointers into [mH], [mv] and [msave]; [s], [sn], [tau] and [Ax] point
    to the start of their blocks. *)
Record KrylovMem := {
  mH : mem K;
  mv : mem K;
  ms : mem K;
  msn : mem U;
  mtau : mem K;
  mAx : mem K;
  msave : mem K
}.

Definition with_H (k : KrylovMem) (h : mem K) : KrylovMem :=
  {| mH := h; mv := mv k; ms := ms k; msn := msn k; mtau := mtau k;
     mAx := mAx k; msave := msave k |}.
Definition with_v (k : KrylovMem) (x : mem K) : KrylovMem :=
  {| mH := mH k; mv := x; ms := ms k; msn := msn k; mtau := mtau k;
     mAx := mAx k; msave := msave k |}.
Definition with_s (k : KrylovMem) (x : mem K) : KrylovMem :=
  {| mH := mH k; mv := mv k; ms := x; msn := msn k; mtau := mtau k;
     mAx := mAx k; msave := msave k |}.
Definition with_sn (k : KrylovMem) (x : mem U) : KrylovMem :=
  {| mH := mH k; mv := mv k; ms := ms k; msn := x; mtau := mtau k;
     mAx := mAx k; msave := msave k |}.
Definition with_tau (k : KrylovMem) (x : mem K) : KrylovMem :=
  {| mH := mH k; mv := mv k; ms := ms k; msn := msn k; mtau := x;
     mAx := mAx k; msave := msave k |}.
Definition with_Ax (k : KrylovMem) (x : mem K) : KrylovMem :=
  {| mH := mH k; mv := mv k; ms := ms k; msn := msn k; mtau := mtau k;
     mAx := x; msave := msave k |}.
Definition with_save (k : KrylovMem) (x : mem K) : KrylovMem :=
  {| mH := mH k; mv := mv k; ms := ms k; msn := msn k; mtau := mtau k;
     mAx := mAx k; msave := x |}.

(** The first statement of both kernels: the operator and the
    preconditioner applied to [v[i]], the result in [v[i + 1]]. *)
Definition apply_operator (excluded : bool) (variant : ascii) (m : Z)
    (v : Z -> Z) (n i mu : Z) (k : KrylovMem) : M KrylovMem :=
  if Ascii.eqb variant "L"%char then
    k ← (if negb excluded then
           out ← call (GMV (loads K0 (mv k) (v i) (mu * n)) mu);
           mret (with_Ax k (stores_n K0 (mAx k) 0 (mu * n) out))
         else mret k);
    '(out, _) ← call (apply excluded (loads K0 (mAx k) 0 (mu * n)) mu None);
    mret (with_v k (stores_n K0 (mv k) (v (i + 1)) (mu * n) out))
  else
    let flexible := Ascii.eqb variant "F"%char in
    '(out, work) ← call (apply excluded (loads K0 (mv k) (v i) (mu * n)) mu
                           (Some (loads K0 (mv k) (v (i + 1)) (mu * n))));
    let k := with_v k (stores_n K0 (mv k) (v (i + 1)) (mu * n) work) in
    let k := if flexible
             then with_v k (stores_n K0 (mv k) (v (i + m + 1)) (mu * n) out)
             else with_Ax k (stores_n K0 (mAx k) 0 (mu * n) out) in
    if negb excluded then
      let src := if flexible then loads K0 (mv k) (v (i + m + 1)) (mu * n)
                 else loads K0 (mAx k) 0 (mu * n) in
      out ← call (GMV src mu);
      mret (with_v k (stores_n K0 (mv k) (v (i + 1)) (mu * n) out))
    else mret k.

(** The branch of [Arnoldi] for a rank that holds no unknown. *)
Definition Arnoldi_excluded (gs : Z) (H : Z -> Z) (i mu : Z)
    (k : KrylovMem) : M KrylovMem :=
  let k := with_H k (fill_n (mH k) (H i) (mu * (i + 1)) K0) in
  h ← (if gs =? 1 then
         forM 0 (i + 1)
              (fun h j => MPI_Allreduce_K h (H i + mu * j) mu mpi_type) (mH k)
       else MPI_Allreduce_K (mH k) (H i) (mu * (i + 1)) mpi_type);
  let k := with_H k h in
  let k := with_sn k (fill_n (msn k) (i * mu) mu U0) in
  sn ← MPI_Allreduce_U (msn k) (i * mu) mu mpi_underlying_type;
  let k := with_sn k sn in
  mret (with_H k
          (for_ 0 mu
             (fun h nu => store h (H i + (i + 1) * mu + nu)
                            (of_real (Usqrt (load U0 (msn k) (i * mu + nu)))))
             (mH k))).

(** The branch of [Arnoldi] for the other ranks, with classical
    Gram-Schmidt ([gs == 1]). *)
Definition Arnoldi_cgs_step (H v : Z -> Z) (n i mu : Z)
    (k : KrylovMem) (j : Z) : M KrylovMem :=
  let h := for_ 0 mu
             (fun h nu => store h (H i + j * mu + nu)
                (dot n (loads K0 (mv k) (v j + nu * n) n)
                       (loads K0 (mv k) (v (i + 1) + nu * n) n)))
             (mH k) in
  h ← MPI_Allreduce_K h (H i + j * mu) mu mpi_type;
  let h := for_ 0 mu
             (fun h nu => store h (H i + (i + 1) * mu + nu)
                            (Kopp (load K0 h (H i + j * mu + nu)))) h in
  let vv := for_ 0 mu
              (fun vv nu =>
                 stores_n K0 vv (v (i + 1) + nu * n) n
                   (axpy n (load K0 h (H i + (i + 1) * mu + nu))
                         (loads K0 vv (v j + nu * n) n)
                         (loads K0 vv (v (i + 1) + nu * n) n)))
              (mv k) in
  mret (with_v (with_H k h) vv).

(** The same with the projections in one reduction: modified Gram-Schmidt
    ([gs == 0]) or none. *)
Definition Arnoldi_mgs (gs : Z) (H v : Z -> Z) (n i mu : Z)
    (k : KrylovMem) : M KrylovMem :=
  let h := for_ 0 mu
             (fun h nu =>
                stores_inc_n K0 h (H i + nu) mu (i + 1)
                  (gemv transc n (i + 1) d__1
                        (load_mat (mv k) (v 0 + nu * n) (mu * n) n (i + 1))
                        (loads K0 (mv k) (v (i + 1) + nu * n) n) d__0
                        (loads_inc K0 h (H i + nu) mu (i + 1))))
             (mH k) in
  h ← MPI_Allreduce_K h (H i) ((i + 1) * mu) mpi_type;
  let vv :=
    if gs =? 0 then
      for_ 0 mu
        (fun vv nu =>
           stores_n K0 vv (v (i + 1) + nu * n) n
             (gemv "N" n (i + 1) d__2
                   (load_mat vv (v 0 + nu * n) (mu * n) n (i + 1))
                   (loads_inc K0 h (H i + nu) mu (i + 1)) d__1
                   (loads K0 vv (v (i + 1) + nu * n) n)))
        (mv k)
    else
      for_ 0 mu
        (fun vv nu =>
           stores_n K0 vv (v (i + 1) + nu * n) n
             (axpby n (Kopp (load K0 h (H i + i * mu + nu)))
                    (loads K0 vv (v i + nu * n) n) d__1
                    (loads K0 vv (v (i + 1) + nu * n) n)))
        (mv k) in
  mret (with_v (with_H k h) vv).

Definition Arnoldi_included (gs m : Z) (H v : Z -> Z) (n i mu : Z)
    (k : KrylovMem) : M KrylovMem :=
  k ← (if gs =? 1 then forM 0 (i + 1) (Arnoldi_cgs_step H v n i mu) k
       else Arnoldi_mgs gs H v n i mu k);
  let sn := for_ 0 mu
              (fun sn nu => store sn (i * mu + nu)
                 (real (dot n (loads K0 (mv k) (v (i + 1) + nu * n) n)
                              (loads K0 (mv k) (v (i + 1) + nu * n) n))))
              (msn k) in
  sn ← MPI_Allreduce_U sn (i * mu) mu mpi_underlying_type;
  let k := with_sn k sn in
  mret (for_ 0 mu
          (fun k nu =>
             let h := store (mH k) (H i + (i + 1) * mu + nu)
                        (of_real (Usqrt (load U0 (msn k) (i * mu + nu)))) in
             let k := with_H k h in
             if i <? m - 1 then
               with_v k
                 (for_ (v (i + 1) + nu * n) (v (i + 1) + (nu + 1) * n)
                    (fun vv a =>
                       store vv a
                         (Kdiv (load K0 vv a)
                               (load K0 h (H i + (i + 1) * mu + nu))))
                    (mv k))
             else k)
          k).

(** The rotations of the previous steps applied to the new column. *)
Definition Arnoldi_rotate (H : Z -> Z) (i mu : Z) (sn : mem U) (h : mem K)
  : mem K :=
  for_ 0 i
    (fun h j =>
       for_ 0 mu
         (fun h nu =>
            let gamma :=
              Kadd (Kmul (conj (load K0 h (H j + (j + 1) * mu + nu)))
                         (load K0 h (H i + j * mu + nu)))
                   (Kscale (load U0 sn (j * mu + nu))
                           (load K0 h (H i + (j + 1) * mu + nu))) in
            let h := store h (H i + (j + 1) * mu + nu)
                       (Kadd (Kscale (Uopp (load U0 sn (j * mu + nu)))
                                     (load K0 h (H i + j * mu + nu)))
                             (Kmul (load K0 h (H j + (j + 1) * mu + nu))
                                   (load K0 h (H i + (j + 1) * mu + nu)))) in
            store h (H i + j * mu + nu) gamma)
         h)
    h.

(** The new rotation, which makes the new column triangular. *)
Definition Arnoldi_givens (H : Z -> Z) (i mu : Z) (k : KrylovMem)
  : KrylovMem :=
  for_ 0 mu
    (fun k nu =>
       let delta := nrm2 2 (loads_inc K0 (mH k) (H i + i * mu + nu) mu 2) in
       let sn := store (msn k) (i * mu + nu)
                   (Udiv (real (load K0 (mH k) (H i + (i + 1) * mu + nu)))
                         delta) in
       let h := store (mH k) (H i + (i + 1) * mu + nu)
                  (Kdiv_real (load K0 (mH k) (H i + i * mu + nu)) delta) in
       let h := store h (H i + i * mu + nu) (of_real delta) in
       let s := store (ms k) ((i + 1) * mu + nu)
                  (Kscale (Uopp (load U0 sn (i * mu + nu)))
                          (load K0 (ms k) (i * mu + nu))) in
       let s := store s (i * mu + nu)
                  (Kmul (load K0 s (i * mu + nu))
                        (conj (load K0 h (H i + (i + 1) * mu + nu)))) in
       with_s (with_sn (with_H k h) sn) s)
    k.

(** [IterativeMethod::Arnoldi<excluded>(A, variant, gs, m, H, v, s, sn, n,
    i, mu, Ax, comm, save)] *)
Definition Arnoldi (excluded : bool) (variant : ascii) (gs m : Z)
    (H v : Z -> Z) (n i mu : Z) (save : option (Z -> Z)) (k : KrylovMem)
  : M KrylovMem :=
  k ← apply_operator excluded variant m v n i mu k;
  k ← (if excluded then Arnoldi_excluded gs H i mu k
       else Arnoldi_included gs m H v n i mu k);
  let k := match save with
           | Some sv => with_save k (copy_n K0 (mH k) (H i) ((i + 2) * mu)
                                            (msave k) (sv i))
           | None => k
           end in
  let k := with_H k (Arnoldi_rotate H i mu (msn k) (mH k)) in
  mret (Arnoldi_givens H i mu k).

(** The projection of [BlockArnoldi], classical ([gs == 1]) or in one
    reduction. *)
Definition BlockArnoldi_cgs_step (H v : Z -> Z) (ldh n i mu : Z)
    (k : KrylovMem) (j : Z) : M KrylovMem :=
  let ax := store_mat (mAx k) 0 mu mu mu
              (gemm transc "N" mu mu n d__1
                    (load_mat (mv k) (v j) n n mu)
                    (load_mat (mv k) (v (i + 1)) n n mu) d__0
                    (load_mat (mAx k) 0 mu mu mu)) in
  ax ← MPI_Allreduce_K ax 0 (mu * mu) mpi_type;
  let vv := store_mat (mv k) (v (i + 1)) n n mu
              (gemm "N" "N" n mu mu d__2
                    (load_mat (mv k) (v j) n n mu)
                    (load_mat ax 0 mu mu mu) d__1
                    (load_mat (mv k) (v (i + 1)) n n mu)) in
  let h := omatcopy_N mu mu ax 0 mu (mH k) (H i + mu * j) ldh in
  mret (with_H (with_v (with_Ax k ax) vv) h).

Definition BlockArnoldi_project (gs : Z) (H v : Z -> Z) (ldh n i mu : Z)
    (k : KrylovMem) : M KrylovMem :=
  if gs =? 1 then forM 0 (i + 1) (BlockArnoldi_cgs_step H v ldh n i mu) k
  else
    let tmp := mu * (i + 1) in
    let ax := store_mat (mAx k) 0 tmp tmp mu
                (gemm transc "N" tmp mu n d__1
                      (load_mat (mv k) (v 0) n n tmp)
                      (load_mat (mv k) (v (i + 1)) n n mu) d__0
                      (load_mat (mAx k) 0 tmp tmp mu)) in
    ax ← MPI_Allreduce_K ax 0 (mu * tmp) mpi_type;
    let vv := store_mat (mv k) (v (i + 1)) n n mu
                (gemm "N" "N" n mu tmp d__2
                      (load_mat (mv k) (v 0) n n tmp)
                      (load_mat ax 0 tmp tmp mu) d__1
                      (load_mat (mv k) (v (i + 1)) n n mu)) in
    let h := omatcopy_N mu tmp ax 0 tmp (mH k) (H i) ldh in
    mret (with_H (with_v (with_Ax k ax) vv) h).

(** [IterativeMethod::BlockArnoldi<excluded>(A, variant, gs, m, H, v, tau,
    s, lwork, n, i, mu, Ax, comm, save)] *)
Definition BlockArnoldi (excluded : bool) (variant : ascii) (gs m : Z)
    (H v : Z -> Z) (lwork n i mu : Z) (save : option (Z -> Z))
    (k : KrylovMem) : M KrylovMem :=
  k ← apply_operator excluded variant m v n i mu k;
  let ldh := mu * (m + 1) in
  k ← BlockArnoldi_project gs H v ldh n i mu k;
  let ax := store_mat (mAx k) 0 mu mu mu
              (herk "U" "C" mu n Ud__1 (load_mat (mv k) (v (i + 1)) n n mu)
                    Ud__0 (load_mat (mAx k) 0 mu mu mu)) in
  let ax := for_ 1 mu
              (fun ax row => copy_n_in K0 ax (row * mu) (row + 1)
                                       ((row * (row + 1)) `quot` 2)) ax in
  ax ← MPI_Allreduce_K ax 0 ((mu * (mu + 1)) `quot` 2) mpi_type;
  let k := with_Ax k ax in
  let h := for_ 0 mu
             (fun h j =>
                let row := mu - 1 - j in
                copy_n K0 ax ((row * (row + 1)) `quot` 2) (row + 1)
                       h (H i + (i + 1) * mu + row * ldh))
             (mH k) in
  let '(R, _) := potrf "U" mu (load_mat h (H i + (i + 1) * mu) ldh mu mu) in
  let h := store_mat h (H i + (i + 1) * mu) ldh mu mu R in
  let k := with_H k h in
  let k := match save with
           | Some sv =>
               with_save k
                 (for_ 0 mu
                    (fun sm row =>
                       copy_n K0 (mH k) (H i + row * ldh)
                              ((i + 1) * mu + row + 1) sm (sv i + row * ldh))
                    (msave k))
           | None => k
           end in
  let k := if i <? m - 1 then
             with_v k
               (store_mat (mv k) (v (i + 1)) n n mu
                  (trsm "R" "U" "N" "N" n mu d__1
                        (load_mat (mH k) (H i + (i + 1) * mu) ldh mu mu)
                        (load_mat (mv k) (v (i + 1)) n n mu)))
           else k in
  let N := 2 * mu in
  let k := for_ 0 i
             (fun k leading =>
                let '(C, work, _) :=
                  mqr "L" transc N mu N
                      (load_mat (mH k) (H leading + leading * mu) ldh N N)
                      (loads K0 (mtau k) (leading * N) N)
                      (load_mat (mH k) (H i + leading * mu) ldh N mu) lwork in
                with_Ax
                  (with_H k (store_mat (mH k) (H i + leading * mu) ldh N mu C))
                  (stores_n K0 (mAx k) 0 lwork work))
             k in
  let '(A', tau', work, _) :=
    geqrf N mu (load_mat (mH k) (H i + i * mu) ldh N mu) lwork in
  let k := with_H k (store_mat (mH k) (H i + i * mu) ldh N mu A') in
  let k := with_tau k (stores_n K0 (mtau k) (i * N) mu tau') in
  let k := with_Ax k (stores_n K0 (mAx k) 0 lwork work) in
  let '(C, work, _) :=
    mqr "L" transc N mu N
        (load_mat (mH k) (H i + i * mu) ldh N N)
        (loads K0 (mtau k) (i * N) N)
        (load_mat (ms k) (i * mu) ldh N mu) lwork in
  let k := with_s k (store_mat (ms k) (i * mu) ldh N mu C) in
  mret (with_Ax k (stores_n K0 (mAx k) 0 lwork work)).

(** ** CG *)

(** What a call of CG holds: [x] of the caller, the block of [trash], [z],
    [r] and [p] (the directions kept after [p]), the block of [res] and
    [dir], [hasConverged], and [i]. *)
Record CGState := {
  cg_x : mem K;
  cg_wk : mem K;
  cg_res : mem U;
  cg_conv : mem Z;
  cg_i : Z
}.

(** The update of [p] by the kept directions, which the code has twice:
    [trash[k] = dir[mu + k * mu + nu]] and the [gemv] on it. *)
Definition CG_recombine (n mu dim i : Z) (res : mem U) (wk : mem K) : mem K :=
  let trash := 0 in
  let p := 3 * dim in
  let dir := mu in
  for_ 0 mu
    (fun wk nu =>
       let wk := for_ 0 i
                   (fun wk k =>
                      store wk (trash + k)
                        (of_real (load U0 res (dir + mu + k * mu + nu))))
                   wk in
       stores_n K0 wk (p + nu * n) n
         (gemv "N" n i d__1 (load_mat wk (p + dim + n * nu) dim n i)
               (loads K0 wk trash i) d__1 (loads K0 wk (p + nu * n) n)))
    wk.

(** The coefficients of the new direction on the kept ones: the cells
    [dir[mu + k * mu + nu]], from the directions at [p + (first + k) * dim]. *)
Definition CG_coefficients (n mu dim it i first : Z) (wk : mem K)
    (res : mem U) : mem U :=
  let trash := 0 in
  let p := 3 * dim in
  let dir := mu in
  for_ 0 i
    (fun res k =>
       for_ 0 mu
         (fun res nu =>
            store res (dir + mu + k * mu + nu)
              (Udiv (Uopp (real (dot n (loads K0 wk (trash + n * nu) n)
                                       (loads K0 wk (p + (first + k) * dim
                                                     + n * nu) n))))
                    (load U0 res (dir + mu + (it + k) * mu + nu))))
         res)
    res.

(** One turn of the loop of CG, up to the call of [checkConvergence]; the
    result tells whether no cell of [hasConverged] still holds [-it]. *)
Definition CG_body (excluded : bool) (tol : U) (it id0 id1 n mu : Z)
    (d : option (list U)) (st : CGState) : M (CGState * bool) :=
  let dim := n * mu in
  let trash := 0 in
  let z := trash + dim in
  let r := z + dim in
  let p := r + dim in
  let dir := mu in
  let i := cg_i st in
  let x := cg_x st in
  let wk := cg_wk st in
  let res := cg_res st in
  let conv := cg_conv st in
  let res := for_ 0 mu
               (fun res nu =>
                  store res (dir + nu)
                    (real (dot n (loads K0 wk (r + n * nu) n)
                                 (loads K0 wk (trash + n * nu) n))))
               res in
  '(wk, res) ←
    (if (id1 =? 2) && negb (i =? 0) then
       let res := CG_coefficients n mu dim it i (1 + it) wk res in
       res ← MPI_Allreduce_U res (dir + mu) (i * mu) mpi_underlying_type;
       if negb excluded && negb (n =? 0) then
         let wk := copy_n_in K0 wk z dim p in
         mret (CG_recombine n mu dim i res wk, res)
       else mret (wk, res)
     else mret (wk, res));
  wk ← (if negb excluded then
          out ← call (GMV (loads K0 wk p dim) mu);
          mret (stores_n K0 wk z dim out)
        else mret wk);
  '(wk, res) ←
    (if negb (i =? 0) then
       let wk := stores_n K0 wk trash dim (diag n d (loads K0 wk z dim) mu) in
       let res := CG_coefficients n mu dim it i 1 wk res in
       res ← MPI_Allreduce_U res (dir + mu) (i * mu) mpi_underlying_type;
       if negb excluded then
         let wk := if negb (n =? 0) then CG_recombine n mu dim i res wk
                   else wk in
         out ← call (GMV (loads K0 wk p dim) mu);
         mret (stores_n K0 wk z dim out, res)
       else mret (wk, res)
     else mret (wk, res));
  let wk := stores_n K0 wk trash dim (diag n d (loads K0 wk p dim) mu) in
  let res := for_ 0 mu
               (fun res nu =>
                  store res (dir + mu + nu)
                    (real (dot n (loads K0 wk (z + n * nu) n)
                                 (loads K0 wk (trash + n * nu) n))))
               res in
  res ← MPI_Allreduce_U res dir (2 * mu) mpi_underlying_type;
  let i := i + 1 in
  let res := copy_n_in U0 res (dir + mu) mu (dir + (it + i) * mu) in
  let wk := copy_n_in K0 wk p dim (p + i * dim) in
  let wk := if id1 =? 2 then copy_n_in K0 wk z dim (p + (it + i) * dim)
            else wk in
  let '(x, wk) :=
    for_ 0 mu
      (fun '(x, wk) nu =>
         if load 0 conv nu =? - it then
           let wk := store wk (trash + nu)
                       (of_real (Udiv (load U0 res (dir + nu))
                                      (load U0 res (dir + mu + nu)))) in
           let x := stores_n K0 x (n * nu) n
                      (axpy n (load K0 wk (trash + nu))
                            (loads K0 wk (p + n * nu) n)
                            (loads K0 x (n * nu) n)) in
           let wk := store wk (trash + nu)
                       (Kopp (load K0 wk (trash + nu))) in
           let wk := stores_n K0 wk (r + n * nu) n
                       (axpy n (load K0 wk (trash + nu))
                             (loads K0 wk (z + n * nu) n)
                             (loads K0 wk (r + n * nu) n)) in
           (x, wk)
         else (x, wk))
      (x, wk) in
  '(out, work) ← call (apply excluded (loads K0 wk r dim) mu
                         (Some (loads K0 wk trash dim)));
  let wk := stores_n K0 (stores_n K0 wk trash dim work) z dim out in
  let wk := stores_n K0 wk trash dim (diag n d (loads K0 wk z dim) mu) in
  let res := for_ 0 mu
               (fun res nu =>
                  let res :=
                    store res (dir + mu + nu)
                      (Udiv (real (dot n (loads K0 wk (r + n * nu) n)
                                         (loads K0 wk (trash + n * nu) n)))
                            (load U0 res (dir + nu))) in
                  store res (dir + nu)
                    (real (dot n (loads K0 wk (z + n * nu) n)
                                 (loads K0 wk (trash + n * nu) n))))
               res in
  res ← MPI_Allreduce_U res dir (2 * mu) mpi_underlying_type;
  let wk := if negb (id1 =? 2) then
              for_ 0 mu
                (fun wk nu =>
                   stores_n K0 wk (p + n * nu) n
                     (axpby n d__1 (loads K0 wk (z + n * nu) n)
                            (of_real (load U0 res (dir + mu + nu)))
                            (loads K0 wk (p + n * nu) n)))
                wk
            else wk in
  let res := for_ 0 mu
               (fun res nu =>
                  store res (dir + nu) (Usqrt (load U0 res (dir + nu))))
               res in
  let conv := stores_n 0 conv 0 mu
                (checkConvergence id0 i i tol mu (loads U0 res 0 mu)
                   (loads U0 res dir mu) (loads 0 conv 0 mu) it) in
  mret ({| cg_x := x; cg_wk := wk; cg_res := res; cg_conv := conv;
           cg_i := i |},
        forallb (fun c => negb (c =? - it)) (loads 0 conv 0 mu)).

(** The loop [while(i < it)] of CG.  The second component of the result
    counts the turns, which the code does not. *)
Fixpoint CG_loop (fuel : nat) (excluded : bool) (tol : U)
    (it id0 id1 n mu : Z) (d : option (list U)) (turns : nat)
    (st : CGState) : MO (CGState * nat) :=
  match fuel with
  | O => fun _ => None
  | S fuel' =>
      if cg_i st <? it then
        '(st', found_none) ← lift (CG_body excluded tol it id0 id1 n mu d st);
        if found_none : bool then
          mret ({| cg_x := cg_x st'; cg_wk := cg_wk st';
                   cg_res := cg_res st'; cg_conv := cg_conv st';
                   cg_i := cg_i st' - 1 |}, S turns)
        else CG_loop fuel' excluded tol it id0 id1 n mu d (S turns) st'
      else mret (st, turns)
  end.

(** The statements of CG before its loop. *)
Definition CG_init (excluded : bool) (it n mu : Z) (d : option (list U))
    (b x : mem K) : M (CGState * bool) :=
  let dim := n * mu in
  let trash := 0 in
  let z := trash + dim in
  let r := z + dim in
  let p := r + dim in
  let dir := mu in
  let res : mem U := ∅ in
  let wk : mem K := ∅ in
  let conv : mem Z := fill_n ∅ 0 mu (to_short (- it)) in
  _ ← emit EvStart;
  '(allocate, x') ← call (start excluded (loads K0 b 0 dim) (loads K0 x 0 dim)
                            mu);
  let x := stores_n K0 x 0 dim x' in
  wk ← (if negb excluded then
          out ← call (GMV (loads K0 x 0 dim) mu);
          mret (stores_n K0 wk z dim out)
        else mret wk);
  let wk := copy_n K0 b 0 dim wk r in
  let wk := stores_n K0 wk r dim
              (axpy dim d__2 (loads K0 wk z dim) (loads K0 wk r dim)) in
  '(out, work) ← call (apply excluded (loads K0 wk r dim) mu
                         (Some (loads K0 wk z dim)));
  let wk := stores_n K0 (stores_n K0 wk z dim work) p dim out in
  let wk := stores_n K0 wk trash dim (diag n d (loads K0 wk p dim) mu) in
  let res := for_ 0 mu
               (fun res nu =>
                  store res (dir + nu)
                    (real (dot n (loads K0 wk (trash + n * nu) n)
                                 (loads K0 wk (p + n * nu) n))))
               res in
  res ← MPI_Allreduce_U res dir mu mpi_underlying_type;
  let res := for_ 0 mu
               (fun res nu =>
                  store res nu (Usqrt (load U0 res (dir + nu))))
               res in
  mret ({| cg_x := x; cg_wk := wk; cg_res := res; cg_conv := conv;
           cg_i := 0 |}, allocate).

(** The statements of CG after its loop. *)
Definition CG_exit (it id0 : Z) (allocate : bool) (st : CGState) : M Z :=
  _ ← emit (EvConvergence 2 id0 (cg_i st + 1) it);
  _ ← emit (EvDelete "res");
  _ ← (if is_complex then emit (EvDelete "trash") else mret tt);
  _ ← emit (EvDelete "hasConverged");
  _ ← emit (EvEnd allocate);
  _ ← call (fun e => (tt, end_ allocate e));
  mret (Z.min (to_ushort (cg_i st)) it).

(** Whether the configuration sends CG and BCG to GMRES. *)
Definition redirected (opt : Option_) : bool :=
  any_of opt (prefix +:+ "schwarz_method") [0; 1; 4]
  || any_of opt (prefix +:+ "schwarz_coarse_correction") [0].

(** What CG does when it keeps the system: the value returned, [x], and
    the turns of its loop. *)
Definition CG_run (excluded : bool) (opt : Option_) (b x : mem K) (mu : Z)
  : MO (Z * mem K * nat) :=
  let '(tol, it, id0, id1) := options 2 prefix opt in
  let it := to_ushort it in
  let n := if excluded then 0 else getDof in
  let d := (fun m => loads U0 m 0 n) <$> getScaling in
  '(st, allocate) ← lift (CG_init excluded it n mu d b x);
  '(st, turns) ← CG_loop (S (Z.to_nat it)) excluded tol it id0 id1 n mu d O st;
  ret ← lift (CG_exit it id0 allocate st);
  mret (ret, cg_x st, turns).

(** [IterativeMethod::CG<excluded>(A, b, x, mu, comm)]: the value returned
    and [x]. *)
Definition CG (excluded : bool) (opt : Option_) (b x : mem K) (mu : Z)
  : MO (Z * mem K) :=
  if redirected opt then lift (GMRES excluded opt b x mu)
  else
    '(ret, x, _) ← CG_run excluded opt b x mu;
    mret (ret, x).

(** ** BCG *)

(** What a call of BCG holds: [x] of the caller, the block of [trash], [p],
    [z], [r], [rho], [rhs] and [gamma], the block of [norm], and [i]. *)
Record BCGState := {
  bcg_x : mem K;
  bcg_wk : mem K;
  bcg_norm : mem U;
  bcg_i : Z
}.

(** How one turn of the loop of BCG ends: at the end of the body, at the
    [break], or at one of the three [return CG<excluded>(...)]. *)
Inductive BCGStep :=
| BCG_next (st : BCGState)
| BCG_break (st : BCGState)
| BCG_abandon (st : BCGState).

(** The upper triangle of the [mu] by [mu] matrix at [off] moved to packed
    storage at [off]. *)
Definition pack_upper (mu off : Z) (wk : mem K) : mem K :=
  for_ 1 mu
    (fun wk nu => copy_n_in K0 wk (off + nu * mu) (nu + 1)
                            (off + (nu * (nu + 1)) `quot` 2))
    wk.

(** And back, the lower triangle being the conjugate of the upper one. *)
Definition unpack_upper (mu off : Z) (wk : mem K) : mem K :=
  let wk := for_ 0 mu
              (fun wk j =>
                 let nu := mu - j in
                 copy_backward_in K0 wk (off + (nu * (nu - 1)) `quot` 2)
                                  (off + (nu * (nu + 1)) `quot` 2)
                                  (off + nu * mu - (mu - nu)))
              wk in
  for_ 0 mu
    (fun wk i =>
       for_ 0 i
         (fun wk j => store wk (off + i + j * mu)
                        (conj (load K0 wk (off + j + i * mu))))
         wk)
    wk.

(** [gemmt("U", transc, "N", mu, n, d__1, a, n, trash, n, d__0, c, mu)] and
    the packing of its result. *)
Definition BCG_gram (n mu a c : Z) (wk : mem K) : mem K :=
  let trash := 0 in
  let wk := store_mat wk c mu mu mu
              (gemmt "U" transc "N" mu n d__1 (load_mat wk a n n mu)
                     (load_mat wk trash n n mu) d__0
                     (load_mat wk c mu mu mu)) in
  pack_upper mu c wk.

(** [QR<excluded>(id[1], n, mu, 1, p, gamma, mu, comm, nullptr, true, d,
    trash)] on the block. *)
Definition BCG_QR (excluded : bool) (id1 n mu : Z) (d : option (list U))
    (wk : mem K) : M (Z * mem K) :=
  let dim := n * mu in
  let trash := 0 in
  let p := trash + dim in
  let gamma := p + 3 * dim + 3 * (mu * mu) in
  '(info, p', gamma', trash') ←
    call (QR excluded id1 n mu (loads K0 wk p dim)
             (loads K0 wk gamma (mu * mu)) mu d (loads K0 wk trash dim));
  let wk := stores_n K0 wk trash dim trash' in
  let wk := stores_n K0 wk p dim p' in
  let wk := stores_n K0 wk gamma (mu * mu) gamma' in
  mret (info, wk).

(** The first part of a turn of the loop of BCG, up to the call of [ppsv]:
    [info] and the block. *)
Definition BCG_block_system (excluded : bool) (n mu : Z)
    (d : option (list U)) (wk : mem K) : M (Z * mem K) :=
  let dim := n * mu in
  let trash := 0 in
  let p := trash + dim in
  let z := p + dim in
  let r := z + dim in
  let rho := r + dim in
  let rhs := rho + 2 * (mu * mu) in
  let gamma := rhs + mu * mu in
  wk ← (if negb excluded then
          out ← call (GMV (loads K0 wk p dim) mu);
          let wk := stores_n K0 wk z dim out in
          mret (store_mat wk (rho + mu * mu) mu mu mu
                  (trsm "L" "U" transc "N" mu mu d__1
                        (load_mat wk gamma mu mu mu)
                        (load_mat wk (rho + mu * mu) mu mu mu)))
        else mret wk);
  let wk := stores_n K0 wk trash dim (diag n d (loads K0 wk z dim) mu) in
  let wk := if negb excluded && negb (n =? 0) then BCG_gram n mu p rhs wk
            else fill_n wk rhs ((mu * (mu + 1)) `quot` 2) K0 in
  wk ← MPI_Allreduce_K wk rhs ((mu * (mu + 1)) `quot` 2) mpi_underlying_type;
  let '(AP, B, info) :=
    ppsv "U" mu mu (loads K0 wk rhs ((mu * (mu + 1)) `quot` 2))
         (load_mat wk (rho + mu * mu) mu mu mu) in
  let wk := stores_n K0 wk rhs ((mu * (mu + 1)) `quot` 2) AP in
  let wk := store_mat wk (rho + mu * mu) mu mu mu B in
  mret (info, wk).

(** The second part, from the update of [x] and [r] to the call of
    [checkBlockConvergence]: [x], the block and the result of the call. *)
Definition BCG_advance (excluded : bool) (tol : U) (m1 id0 n mu i : Z)
    (d : option (list U)) (norm : mem U) (x wk : mem K)
  : M (mem K * mem K * Z) :=
  let dim := n * mu in
  let trash := 0 in
  let p := trash + dim in
  let z := p + dim in
  let r := z + dim in
  let rho := r + dim in
  let rhs := rho + 2 * (mu * mu) in
  let '(x, wk) :=
    if negb excluded && negb (n =? 0) then
      let x := store_mat x 0 n n mu
                 (gemm "N" "N" n mu mu d__1 (load_mat wk p n n mu)
                       (load_mat wk (rho + mu * mu) mu mu mu) d__1
                       (load_mat x 0 n n mu)) in
      let wk := store_mat wk r n n mu
                  (gemm "N" "N" n mu mu d__2 (load_mat wk z n n mu)
                        (load_mat wk (rho + mu * mu) mu mu mu) d__1
                        (load_mat wk r n n mu)) in
      (x, wk)
    else (x, wk) in
  '(out, work) ← call (apply excluded (loads K0 wk r dim) mu
                         (Some (loads K0 wk trash dim)));
  let wk := stores_n K0 (stores_n K0 wk trash dim work) z dim out in
  let wk := stores_n K0 wk trash dim (diag n d (loads K0 wk z dim) mu) in
  let wk :=
    if negb excluded && negb (n =? 0) then
      let wk := BCG_gram n mu r rhs wk in
      if m1 <=? 1 then
        for_ 0 mu
          (fun wk nu =>
             store wk (rho + (2 * mu - 1) * mu + nu)
               (of_real (real (dot n (loads K0 wk (z + n * nu) n)
                                     (loads K0 wk (trash + n * nu) n)))))
          wk
      else
        let wk := for_ 1 m1
                    (fun wk nu =>
                       stores_n K0 wk trash n
                         (axpy n d__1 (loads K0 wk (trash + nu * n) n)
                               (loads K0 wk trash n)))
                    wk in
        let wk := copy_n_in K0 wk z n (trash + n) in
        let wk := for_ 1 m1
                    (fun wk nu =>
                       stores_n K0 wk (trash + n) n
                         (axpy n d__1 (loads K0 wk (z + nu * n) n)
                               (loads K0 wk (trash + n) n)))
                    wk in
        store wk (rho + 2 * (mu * mu) - 1)
          (of_real (real (dot n (loads K0 wk trash n)
                                (loads K0 wk (trash + n) n))))
    else
      fill_n wk (rho + 2 * (mu * mu) - mu `quot` m1)
             (mu `quot` m1 + (mu * (mu + 1)) `quot` 2) K0 in
  wk ← MPI_Allreduce_K wk (rhs - mu `quot` m1)
         (mu `quot` m1 + (mu * (mu + 1)) `quot` 2) mpi_underlying_type;
  let '(count, work) :=
    checkBlockConvergence id0 i tol mu mu (loads U0 norm 0 mu)
      (loads K0 wk (rho + 2 * (mu * mu) - mu `quot` m1) (mu `quot` m1))
      0 (loads K0 wk trash dim) m1 in
  mret (x, stores_n K0 wk trash dim work, count).

(** The third part, up to the call of [posv]: [info] and the block. *)
Definition BCG_coefficients (n mu : Z) (wk : mem K) : Z * mem K :=
  let dim := n * mu in
  let rho := 4 * dim in
  let rhs := rho + 2 * (mu * mu) in
  let wk := unpack_upper mu rhs wk in
  let wk := copy_n_in K0 wk rhs (mu * mu) (rho + mu * mu) in
  let '(A', B, info) :=
    posv "U" mu mu (load_mat wk rho mu mu mu) (load_mat wk rhs mu mu mu) in
  let wk := store_mat wk rho mu mu mu A' in
  (info, store_mat wk rhs mu mu mu B).

(** The last part, up to the call of [QR]: [info] and the block. *)
Definition BCG_new_direction (excluded : bool) (id1 n mu : Z)
    (d : option (list U)) (wk : mem K) : M (Z * mem K) :=
  let dim := n * mu in
  let trash := 0 in
  let p := trash + dim in
  let z := p + dim in
  let r := z + dim in
  let rho := r + dim in
  let rhs := rho + 2 * (mu * mu) in
  let gamma := rhs + mu * mu in
  let wk :=
    if negb excluded && negb (n =? 0) then
      let wk := store_mat wk rhs mu mu mu
                  (trmm "L" "U" "N" "N" mu mu d__1
                        (load_mat wk gamma mu mu mu)
                        (load_mat wk rhs mu mu mu)) in
      let wk := copy_n_in K0 wk p (r - p) trash in
      store_mat wk p n n mu
        (gemm "N" "N" n mu mu d__1 (load_mat wk trash n n mu)
              (load_mat wk rhs mu mu mu) d__1 (load_mat wk p n n mu))
    else wk in
  BCG_QR excluded id1 n mu d wk.

(** One turn of the loop of BCG. *)
Definition BCG_body (excluded : bool) (tol : U) (m1 id0 id1 n mu : Z)
    (d : option (list U)) (st : BCGState) : M BCGStep :=
  let i := bcg_i st in
  let norm := bcg_norm st in
  let mk x wk i := {| bcg_x := x; bcg_wk := wk; bcg_norm := norm;
                      bcg_i := i |} in
  '(info, wk) ← BCG_block_system excluded n mu d (bcg_wk st);
  if negb (info =? 0) then mret (BCG_abandon (mk (bcg_x st) wk i))
  else
    '(x, wk, count) ←
      BCG_advance excluded tol m1 id0 n mu i d norm (bcg_x st) wk;
    if mu =? count then mret (BCG_break (mk x wk i))
    else
      let i := to_ushort (i + 1) in
      let '(info, wk) := BCG_coefficients n mu wk in
      if negb (info =? 0) then mret (BCG_abandon (mk x wk i))
      else
        '(info, wk) ← BCG_new_direction excluded id1 n mu d wk;
        if negb (info =? 0) then mret (BCG_abandon (mk x wk i))
        else
          let rho := 4 * (n * mu) in
          mret (BCG_next
                  (mk x (copy_n_in K0 wk (rho + mu * mu) (mu * mu) rho) i)).

(** [delete [] norm; delete [] trash; A.end(allocate);
    return CG<excluded>(A, b, x, mu, comm);], without the first statement
    where [norm] is not yet allocated. *)
Definition BCG_fall_back (excluded : bool) (opt : Option_) (b : mem K)
    (mu : Z) (allocate with_norm : bool) (x : mem K) : MO (Z * mem K) :=
  _ ← lift (if with_norm then emit (EvDelete "norm") else mret tt);
  _ ← lift (emit (EvDelete "trash"));
  _ ← lift (emit (EvEnd allocate));
  _ ← lift (call (fun e => (tt, end_ allocate e)));
  CG excluded opt b x mu.

(** The statements of BCG after its loop. *)
Definition BCG_exit (m0 id0 : Z) (allocate : bool) (st : BCGState) : M Z :=
  _ ← emit (EvConvergence 3 id0 (bcg_i st) m0);
  _ ← emit (EvDelete "norm");
  _ ← emit (EvDelete "trash");
  _ ← emit (EvEnd allocate);
  _ ← call (fun e => (tt, end_ allocate e));
  mret (Z.min (bcg_i st) m0).

(** The loop [while(i <= m[0])] of BCG: the value returned, [x], and the
    count of the turns. *)
Fixpoint BCG_loop (fuel : nat) (excluded : bool) (opt : Option_)
    (b : mem K) (tol : U) (m0 m1 id0 id1 n mu : Z) (d : option (list U))
    (allocate : bool) (turns : nat) (st : BCGState)
  : MO (Z * mem K * nat) :=
  match fuel with
  | O => fun _ => None
  | S fuel' =>
      if bcg_i st <=? m0 then
        step ← lift (BCG_body excluded tol m1 id0 id1 n mu d st);
        match step with
        | BCG_next st' =>
            BCG_loop fuel' excluded opt b tol m0 m1 id0 id1 n mu d allocate
                     (S turns) st'
        | BCG_break st' =>
            ret ← lift (BCG_exit m0 id0 allocate st');
            mret (ret, bcg_x st', S turns)
        | BCG_abandon st' =>
            '(ret, x) ← BCG_fall_back excluded opt b mu allocate true
                                      (bcg_x st');
            mret (ret, x, S turns)
        end
      else
        ret ← lift (BCG_exit m0 id0 allocate st);
        mret (ret, bcg_x st, turns)
  end.

(** The statements of BCG from [A.start] to the first call of [QR]: the
    block, [x], the result of [start] and [info]. *)
Definition BCG_init (excluded : bool) (id1 n mu : Z) (d : option (list U))
    (b x : mem K) : M (mem K * mem K * bool * Z) :=
  let dim := n * mu in
  let trash := 0 in
  let p := trash + dim in
  let z := p + dim in
  let r := z + dim in
  let rho := r + dim in
  let wk : mem K := ∅ in
  _ ← emit EvStart;
  '(allocate, x') ← call (start excluded (loads K0 b 0 dim) (loads K0 x 0 dim)
                            mu);
  let x := stores_n K0 x 0 dim x' in
  wk ← (if negb excluded then
          out ← call (GMV (loads K0 x 0 dim) mu);
          mret (stores_n K0 wk z dim out)
        else mret wk);
  let wk := copy_n K0 b 0 dim wk r in
  let wk := stores_n K0 wk r dim
              (axpy dim d__2 (loads K0 wk z dim) (loads K0 wk r dim)) in
  '(out, work) ← call (apply excluded (loads K0 wk r dim) mu
                         (Some (loads K0 wk z dim)));
  let wk := stores_n K0 (stores_n K0 wk z dim work) p dim out in
  let wk := stores_n K0 wk trash dim (diag n d (loads K0 wk p dim) mu) in
  let wk := if negb excluded && negb (n =? 0) then BCG_gram n mu r rho wk
            else fill_n wk rho ((mu * (mu + 1)) `quot` 2) K0 in
  wk ← MPI_Allreduce_K wk rho ((mu * (mu + 1)) `quot` 2) mpi_underlying_type;
  let wk := unpack_upper mu rho wk in
  let wk := copy_n_in K0 wk rho (mu * mu) (rho + mu * mu) in
  '(info, wk) ← BCG_QR excluded id1 n mu d wk;
  mret (wk, x, allocate, info).

(** The norms BCG compares the residuals with. *)
Definition BCG_norms (m1 n mu : Z) (wk : mem K) : mem K * mem U :=
  let dim := n * mu in
  let z := 2 * dim in
  let gamma := 4 * dim + 3 * (mu * mu) in
  let norm : mem U := ∅ in
  if m1 <=? 1 then
    (wk, for_ 0 mu
           (fun norm nu =>
              store norm nu (nrm2 (nu + 1) (loads K0 wk (gamma + mu * nu)
                                                  (nu + 1))))
           norm)
  else
    let wk := fill_n wk z m1 K0 in
    let wk := for_ 0 m1
                (fun wk nu =>
                   stores_n K0 wk z (nu + 1)
                     (axpy (nu + 1) d__1
                           (loads K0 wk (gamma + mu * nu) (nu + 1))
                           (loads K0 wk z (nu + 1))))
                wk in
    (wk, store norm 0 (nrm2 m1 (loads K0 wk z m1))).

(** What BCG does when it keeps the system and its variant: the value
    returned, [x], and the turns of its loop. *)
Definition BCG_run (fuel : nat) (excluded : bool) (opt : Option_)
    (b x : mem K) (mu : Z) : MO (Z * mem K * nat) :=
  let '(tol, m0, id0, id1) := options 3 prefix opt in
  let m0 := to_ushort m0 in
  let m1 := to_ushort (val opt (prefix +:+ "enlarge_krylov_subspace") 1) in
  let n := if excluded then 0 else getDof in
  let d := (fun m => loads U0 m 0 n) <$> getScaling in
  '(wk, x, allocate, info) ← lift (BCG_init excluded id1 n mu d b x);
  if negb (info =? 0) then
    '(ret, x) ← BCG_fall_back excluded opt b mu allocate false x;
    mret (ret, x, O)
  else
    let '(wk, norm) := BCG_norms m1 n mu wk in
    BCG_loop fuel excluded opt b tol m0 m1 id0 id1 n mu d allocate O
             {| bcg_x := x; bcg_wk := wk; bcg_norm := norm; bcg_i := 1 |}.

(** [IterativeMethod::BCG<excluded>(A, b, x, mu, comm)] *)
Definition BCG (fuel : nat) (excluded : bool) (opt : Option_) (b x : mem K)
    (mu : Z) : MO (Z * mem K) :=
  if redirected opt then lift (GMRES excluded opt b x mu)
  else if val opt (prefix +:+ "variant") 0 =? 2 then CG excluded opt b x mu
  else
    '(ret, x, _) ← BCG_run fuel excluded opt b x mu;
    mret (ret, x).

(** ** PCG *)

(** The three overloaded helpers of iterative.hpp that PCG calls on a
    [ptr_type]: for [K**] the dot product is halved and [diag] does
    nothing. *)
Definition dot_ptr (n : Z) (x y : mem K) : K :=
  if ptr_type_is_single then dot n (loads K0 x 0 n) (loads K0 y 0 n)
  else Khalf (dot n (loads K0 x 0 n) (loads K0 y 0 n)).

Definition axpy_ptr (n : Z) (a : K) (x y : mem K) : mem K :=
  stores_n K0 y 0 n (axpy n a (loads K0 x 0 n) (loads K0 y 0 n)).

Definition diag_ptr (n : Z) (m : option (list U)) (inp : mem K) : mem K :=
  if ptr_type_is_single then stores_n K0 inp 0 n (diag n m (loads K0 inp 0 n) 1)
  else inp.

Definition diag_ptr_out (n : Z) (m : option (list U)) (inp out : mem K)
  : mem K :=
  if ptr_type_is_single then stores_n K0 out 0 n (diag n m (loads K0 inp 0 n) 1)
  else out.

(** What a call of PCG holds.  The vectors that [allocateSingle] gives live
    in [pcg_heap]; [z], [p], [zCurr] and [pCurr] point there, so that
    [zCurr] and the last pointer of [z] are one vector when the code makes
    them so. *)
Record PCGState := {
  pcg_x : mem K;
  pcg_r : mem K;
  pcg_lambda : mem K;
  pcg_heap : gmap nat (mem K);
  pcg_next : nat;
  pcg_z : list nat;
  pcg_p : list nat;
  pcg_zCurr : nat;
  pcg_pCurr : nat;
  pcg_alpha : mem K;
  pcg_resRel : U;
  pcg_i : Z
}.

(** [*q] *)
Definition deref (h : gmap nat (mem K)) (q : nat) : mem K :=
  default ∅ (h !! q).

(** [z[k]] and [z.back()] *)
Definition at_ptr (z : list nat) (k : Z) : nat := nth (Z.to_nat k) z O.

Definition back (z : list nat) : nat := List.last z O.

(** [A.allocateSingle(q)]: the heap with the new vector, the pointer after
    it, and [q]. *)
Definition PCG_allocateSingle (h : gmap nat (mem K)) (next : nat)
  : M (gmap nat (mem K) * nat * nat) :=
  v ← call allocateSingle;
  mret (<[next := v]> h, S next, next).

(** The body of the loop of PCG on a rank that holds unknowns, up to the
    second [precond]. *)
Definition PCG_included (it n offset : Z) (m : option (list U))
    (st : PCGState) : M PCGState :=
  let i := pcg_i st in
  let h := pcg_heap st in
  let zCurr := pcg_zCurr st in
  let pCurr := pcg_pCurr st in
  pc ← call (project_N false (deref h zCurr) (deref h pCurr));
  let h := <[pCurr := pc]> h in
  let alpha := for_ 0 (i - 1)
                 (fun alpha k =>
                    store alpha (it + k)
                      (dot_ptr n (deref h (at_ptr (pcg_z st) k))
                               (deref h pCurr)))
                 (pcg_alpha st) in
  alpha ← MPI_Allreduce_K alpha it (i - 1) mpi_type;
  let '(alpha, h) :=
    for_ 0 (i - 1)
      (fun '(alpha, h) k =>
         let alpha := store alpha (it + k)
                        (Kdiv (load K0 alpha (it + k))
                              (Kopp (load K0 alpha k))) in
         (alpha,
          <[pCurr := axpy_ptr n (load K0 alpha (it + k))
                       (deref h (at_ptr (pcg_p st) k)) (deref h pCurr)]> h))
      (alpha, h) in
  zc ← call (apply_projected (deref h pCurr) (deref h zCurr));
  let h := <[zCurr := zc]> h in
  '(h, next, zCurr) ← PCG_allocateSingle h (pcg_next st);
  let h := if ptr_type_is_single
           then <[zCurr := diag_ptr_out n m (deref h pCurr) (deref h zCurr)]> h
           else h in
  let other := if ptr_type_is_single then zCurr else pCurr in
  let alpha := store alpha (i - 1)
                 (dot_ptr n (deref h (back (pcg_z st))) (deref h other)) in
  let alpha := store alpha i (dot_ptr n (pcg_r st) (deref h other)) in
  alpha ← MPI_Allreduce_K alpha (i - 1) 2 mpi_type;
  let alpha := store alpha it
                 (Kdiv (load K0 alpha i) (load K0 alpha (i - 1))) in
  let x := if ptr_type_is_single
           then stores_n K0 (pcg_x st) offset n
                  (axpy n (load K0 alpha it) (loads K0 (deref h pCurr) 0 n)
                        (loads K0 (pcg_x st) offset n))
           else pcg_x st in
  let lambda := if ptr_type_is_single then pcg_lambda st
                else axpy_ptr n (load K0 alpha it) (deref h pCurr)
                              (pcg_lambda st) in
  let alpha := store alpha it (Kopp (load K0 alpha it)) in
  let r := axpy_ptr n (load K0 alpha it) (deref h (back (pcg_z st)))
                    (pcg_r st) in
  r ← call (project_T false r);
  let z := pcg_z st ++ [zCurr] in
  zc ← call (precond r (deref h zCurr));
  let h := <[zCurr := zc]> h in
  mret {| pcg_x := x; pcg_r := r; pcg_lambda := lambda; pcg_heap := h;
          pcg_next := next; pcg_z := z; pcg_p := pcg_p st;
          pcg_zCurr := zCurr; pcg_pCurr := pCurr; pcg_alpha := alpha;
          pcg_resRel := pcg_resRel st; pcg_i := i |}.

(** The same on a rank that holds none. *)
Definition PCG_excluded (st : PCGState) : M PCGState :=
  let i := pcg_i st in
  let h := pcg_heap st in
  pc ← call (project_N true (deref h (pcg_zCurr st))
                       (deref h (pcg_pCurr st)));
  let h := <[pcg_pCurr st := pc]> h in
  let alpha := fill_n (pcg_alpha st) 0 (i - 1) K0 in
  alpha ← MPI_Allreduce_K alpha 0 (i - 1) mpi_type;
  let alpha := fill_n alpha 0 2 K0 in
  alpha ← MPI_Allreduce_K alpha 0 2 mpi_type;
  r ← call (project_T true (pcg_r st));
  mret {| pcg_x := pcg_x st; pcg_r := r; pcg_lambda := pcg_lambda st;
          pcg_heap := h; pcg_next := pcg_next st; pcg_z := pcg_z st;
          pcg_p := pcg_p st; pcg_zCurr := pcg_zCurr st;
          pcg_pCurr := pcg_pCurr st; pcg_alpha := alpha;
          pcg_resRel := pcg_resRel st; pcg_i := i |}.

(** One turn of the loop of PCG; the result tells whether the turn ends at
    the [break]. *)
Definition PCG_body (excluded : bool) (tol resInit : U)
    (it verbosity n offset : Z) (m : option (list U)) (st : PCGState)
  : M (PCGState * bool) :=
  st ← (if negb excluded then PCG_included it n offset m st
        else PCG_excluded st);
  let i := pcg_i st in
  let zc := deref (pcg_heap st) (pcg_zCurr st) in
  resRel ← call (computeDot excluded zc zc);
  let resRel := Usqrt resRel in
  _ ← (if 2 <? verbosity
       then emit (EvPrint i resRel resInit (Udiv resRel resInit) tol)
       else mret tt);
  let st := {| pcg_x := pcg_x st; pcg_r := pcg_r st;
               pcg_lambda := pcg_lambda st; pcg_heap := pcg_heap st;
               pcg_next := pcg_next st; pcg_z := pcg_z st;
               pcg_p := pcg_p st; pcg_zCurr := pcg_zCurr st;
               pcg_pCurr := pcg_pCurr st; pcg_alpha := pcg_alpha st;
               pcg_resRel := resRel; pcg_i := i |} in
  if Uleb (Udiv resRel resInit) tol then mret (st, true)
  else
    let i := to_ushort (i + 1) in
    if negb excluded then
      '(h, next, pCurr) ← PCG_allocateSingle (pcg_heap st) (pcg_next st);
      let p := pcg_p st ++ [pCurr] in
      let q := at_ptr (pcg_z st) (i - 2) in
      let h := <[q := diag_ptr n m (deref h q)]> h in
      mret ({| pcg_x := pcg_x st; pcg_r := pcg_r st;
               pcg_lambda := pcg_lambda st; pcg_heap := h;
               pcg_next := next; pcg_z := pcg_z st; pcg_p := p;
               pcg_zCurr := pcg_zCurr st; pcg_pCurr := pCurr;
               pcg_alpha := pcg_alpha st; pcg_resRel := resRel;
               pcg_i := i |}, false)
    else
      mret ({| pcg_x := pcg_x st; pcg_r := pcg_r st;
               pcg_lambda := pcg_lambda st; pcg_heap := pcg_heap st;
               pcg_next := pcg_next st; pcg_z := pcg_z st;
               pcg_p := pcg_p st; pcg_zCurr := pcg_zCurr st;
               pcg_pCurr := pcg_pCurr st; pcg_alpha := pcg_alpha st;
               pcg_resRel := resRel; pcg_i := i |}, false).

(** The loop [while(i <= it)] of PCG, with the count of its turns. *)
Fixpoint PCG_loop (fuel : nat) (excluded : bool) (tol resInit : U)
    (it verbosity n offset : Z) (m : option (list U)) (turns : nat)
    (st : PCGState) : MO (PCGState * nat) :=
  match fuel with
  | O => fun _ => None
  | S fuel' =>
      if pcg_i st <=? it then
        '(st', stop) ←
          lift (PCG_body excluded tol resInit it verbosity n offset m st);
        if stop : bool then mret (st', S turns)
        else PCG_loop fuel' excluded tol resInit it verbosity n offset m
                      (S turns) st'
      else mret (st, turns)
  end.

(** The statements of PCG before its loop: the state, the result of
    [start] and [resInit]. *)
Definition PCG_init (excluded : bool) (n offset : Z) (f x : mem K)
  : M (PCGState * bool * U) :=
  '(r, lambda) ← call allocateArray;
  _ ← emit EvStart;
  '(allocate, x, lambda', r) ←
    call (start_projected excluded f x offset
            (if ptr_type_is_single then None else Some lambda) r);
  let lambda := default lambda lambda' in
  '(h, next, zCurr) ← PCG_allocateSingle ∅ O;
  let z := [zCurr] in
  h ← (if negb excluded then
         zc ← call (precond r (deref h zCurr));
         mret (<[zCurr := zc]> h)
       else mret h);
  resInit ← call (computeDot excluded (deref h zCurr) (deref h zCurr));
  let resInit := Usqrt resInit in
  '(h, next, pCurr) ← PCG_allocateSingle h next;
  let p := [pCurr] in
  mret ({| pcg_x := x; pcg_r := r; pcg_lambda := lambda; pcg_heap := h;
           pcg_next := next; pcg_z := z; pcg_p := p; pcg_zCurr := zCurr;
           pcg_pCurr := pCurr; pcg_alpha := ∅; pcg_resRel := Umax;
           pcg_i := 1 |}, allocate, resInit).

(** The statements of PCG after its loop: the value returned and [x]. *)
Definition PCG_exit (excluded : bool) (it verbosity : Z) (allocate : bool)
    (f : mem K) (st : PCGState) : M (Z * mem K) :=
  _ ← emit (EvConvergence 6 verbosity (pcg_i st) it);
  x ← call (computeSolution excluded
              (if ptr_type_is_single then f else pcg_lambda st) (pcg_x st));
  _ ← emit (EvDelete "alpha");
  _ ← emit (EvDelete "z");
  _ ← emit (EvDelete "p");
  _ ← emit (EvDelete "storage[0]");
  _ ← emit (EvEnd allocate);
  _ ← call (fun e => (tt, end_ allocate e));
  mret (Z.min (pcg_i st) it, x).

(** [IterativeMethod::PCG<excluded>(A, f, x, comm)]: the value returned,
    [x], and the turns of its loop. *)
Definition PCG_run (fuel : nat) (excluded : bool) (opt : Option_)
    (f x : mem K) : MO (Z * mem K * nat) :=
  let '(tol, it, verbosity, _) := options 6 prefix opt in
  let it := to_ushort it in
  let n := if ptr_type_is_single then getDof else getMult in
  let offset := if ptr_type_is_single then getEliminated else 0 in
  let m := (fun s => loads U0 s 0 n) <$> getScaling in
  '(st, allocate, resInit) ← lift (PCG_init excluded n offset f x);
  '(st, turns) ← PCG_loop fuel excluded tol resInit it verbosity n offset m
                          O st;
  '(ret, x) ← lift (PCG_exit excluded it verbosity allocate f st);
  mret (ret, x, turns).

Definition PCG (fuel : nat) (excluded : bool) (opt : Option_) (f x : mem K)
  : MO (Z * mem K) :=
  '(ret, x, _) ← PCG_run fuel excluded opt f x;
  mret (ret, x).

(** ** What the properties speak of *)

(** Whatever the outside is, the computation ends with a result and with
    events that satisfy [Q]. *)
Definition post {A} (m : M A) (Q : A -> list (Event K U) -> Prop) : Prop :=
  forall e, Q (m e).1.1 (m e).2.

(** The calls of [MPI_Allreduce] among the events, in their order: the
    element count and the datatype of each. *)
Definition reduction (ev : Event K U) : option (Z * mpi_datatype) :=
  match ev with
  | EvAllreduce_K count ty _ => Some (count, ty)
  | EvAllreduce_U count ty _ => Some (count, ty)
  | _ => None
  end.

Definition reductions (t : list (Event K U)) : list (Z * mpi_datatype) :=
  omap reduction t.

(** The summands this rank sends: each is zero (of [K] or of its
    underlying type), or a zero that the code has divided by a sum it got
    from an earlier reduction. *)
Definition zero_summand (u : U) : Prop :=
  u = U0 \/ (exists s, u = Udiv U0 s) \/ (exists s, u = Udiv (Uopp U0) s).

Definition sends_zeros (ev : Event K U) : Prop :=
  match ev with
  | EvAllreduce_K _ _ send => Forall (fun a => a = K0) send
  | EvAllreduce_U _ _ send => Forall zero_summand send
  | _ => True
  end.

(** The events without what the call writes for the reader: the lines of
    PCG and the reports of [convergence]. *)
Definition silent_event (ev : Event K U) : bool :=
  match ev with
  | EvPrint _ _ _ _ _ => false
  | EvConvergence _ _ _ _ => false
  | _ => true
  end.

Definition silent (t : list (Event K U)) : list (Event K U) :=
  filter (fun ev => silent_event ev = true) t.

(** What the kernels leave alone in [H] and in the rotations or
    reflectors: the cells outside column [i], of [width] cells, and outside
    the [per_step] cells of step [i]. *)
Definition column_frame (H : Z -> Z) (i width per_step : Z)
    (k k' : KrylovMem) : Prop :=
  same_outside (H i) (H i + width) (mH k) (mH k') /\
  same_outside (i * per_step) ((i + 1) * per_step) (msn k) (msn k') /\
  same_outside (i * per_step) ((i + 1) * per_step) (mtau k) (mtau k').

(** The reductions of one call of [Arnoldi], of the statements of CG before
    its loop, of turn [i] of CG and of turn [i] of PCG. *)
Definition Arnoldi_reductions (gs i mu : Z) : list (Z * mpi_datatype) :=
  (if gs =? 1 then replicate (Z.to_nat (i + 1)) (mu, mpi_type)
   else [(mu * (i + 1), mpi_type)])
  ++ [(mu, mpi_underlying_type)].

Definition CG_init_reductions (mu : Z) : list (Z * mpi_datatype) :=
  [(mu, mpi_underlying_type)].

Definition CG_body_reductions (id1 i mu : Z) : list (Z * mpi_datatype) :=
  (if (id1 =? 2) && negb (i =? 0) then [(i * mu, mpi_underlying_type)]
   else [])
  ++ (if negb (i =? 0) then [(i * mu, mpi_underlying_type)] else [])
  ++ [(2 * mu, mpi_underlying_type); (2 * mu, mpi_underlying_type)].

Definition PCG_body_reductions (i : Z) : list (Z * mpi_datatype) :=
  [(i - 1, mpi_type); (2, mpi_type)].

(** What a call of BCG gives when it abandons the block iteration with [x]
    and the outside [e] after the events [before]: it frees [norm] where it
    has one, frees [trash], ends the scope of the operator, and its value,
    its [x] and what follows are those of [CG<excluded>(A, b, x, mu, comm)],
    which returns. *)
Definition falls_back_to_CG (excluded : bool) (opt : Option_) (b : mem K)
    (mu : Z) (allocate with_norm : bool) (x : mem K) (e : Env)
    (before : list (Event K U))
    (res : option (Z * mem K * nat * Env * list (Event K U))) : Prop :=
  exists ret x' turns e' t,
    CG excluded opt b x mu (end_ allocate e) = Some (ret, x', e', t) /\
    res = Some (ret, x', turns, e',
                before ++ (if with_norm then [EvDelete "norm"] else [])
                       ++ [EvDelete "trash"; EvEnd allocate] ++ t).

(** Two calls that differ at most in what they write for the reader: both
    return, with one result and one outside, or neither does. *)
Definition same_but_prints {A}
    (r r' : option (A * Env * list (Event K U))) : Prop :=
  match r, r' with
  | Some (a, e, t), Some (a', e', t') =>
      a = a' /\ e = e' /\ silent t = silent t'
  | None, None => True
  | _, _ => False
  end.

(** The cells of [v] that step [i] of a kernel may write: the vector
    [v[i + 1]] and, with flexible preconditioning, [v[i + m + 1]]. *)
Definition basis_cells (variant : ascii) (m : Z) (v : Z -> Z) (n i mu : Z)
    (a : Z) : Prop :=
  v (i + 1) <= a < v (i + 1) + mu * n \/
  (variant = "F"%char /\ v (i + m + 1) <= a < v (i + m + 1) + mu * n).

(** What the kernels leave alone besides [H]: the cells of [v] outside
    [basis_cells], the cells of [s] outside [i * mu <= a < s_hi], and the
    cells of [save] outside the [width] cells at [save[i]] ([save] itself
    where the pointer is null). *)
Definition rest_frame (variant : ascii) (m : Z) (v : Z -> Z) (n i mu : Z)
    (s_hi : Z) (save : option (Z -> Z)) (width : Z)
    (k k' : KrylovMem) : Prop :=
  written_in (basis_cells variant m v n i mu) (mv k) (mv k') /\
  same_outside (i * mu) s_hi (ms k) (ms k') /\
  match save with
  | Some sv => same_outside (sv i) (sv i + width) (msave k) (msave k')
  | None => msave k' = msave k
  end.

(** The reductions of one call of [BlockArnoldi]. *)
Definition BlockArnoldi_reductions (gs i mu : Z) : list (Z * mpi_datatype) :=
  (if gs =? 1 then replicate (Z.to_nat (i + 1)) (mu * mu, mpi_type)
   else [(mu * (mu * (i + 1)), mpi_type)])
  ++ [((mu * (mu + 1)) `quot` 2, mpi_type)].

(** The vectors PCG holds at the start of a turn on a rank with unknowns:
    [z] and [p] have [i] vectors each, all from different calls of
    [allocateSingle], and [zCurr] and [pCurr] are their last ones. *)
Definition PCG_vectors (st : PCGState) : Prop :=
  Z.of_nat (length (pcg_z st)) = pcg_i st /\
  Z.of_nat (length (pcg_p st)) = pcg_i st /\
  NoDup (pcg_z st ++ pcg_p st) /\
  (forall q, q ∈ pcg_z st ++ pcg_p st -> (q < pcg_next st)%nat) /\
  back (pcg_z st) = pcg_zCurr st /\ back (pcg_p st) = pcg_pCurr st.

(** The calls of [A.start] and of [A.end] among the events, in their
    order: [None] for a start, the argument for an end. *)
Definition scope_event (ev : Event K U) : option (option bool) :=
  match ev with
  | EvStart => Some None
  | EvEnd allocate => Some (Some allocate)
  | _ => None
  end.

Definition scopes (t : list (Event K U)) : list (option bool) :=
  omap scope_event t.

End Krylov.

(** ** The update of the solution of iterative.hpp *)

(** What [update] calls and the kernels and the methods above do not:
    [Lapack<K>::trtrs], which gives what it leaves in [B] and [info], and
    [A.apply(in, out, mu)] written without a template argument, which
    gives [out]; the declaration of the operator, which the sources do not
    show, decides what that call names. *)
Class UpdateCalls (K Env : Type) := {
  trtrs : string -> string -> string -> Z -> Z -> list (list K) ->
          list (list K) -> list (list K) * Z;
  apply_plain : list K -> Z -> Env -> list K * Env
}.

Section Update.
Context {K U Env : Type} `{SC : Scalar K U} `{BL : !Blas K U}.
Context `{UC : !UpdateCalls K Env}.

Local Abbreviation M := (@M K U Env).

(** The blocks that [update] writes: [x], [s], the basis, into which [v]
    is an array of pointers, and [work]. *)
Record UpdateMem := {
  ux : mem K;
  us : mem K;
  uv : mem K;
  uwork : mem K
}.

Definition with_ux (u : UpdateMem) (x : mem K) : UpdateMem :=
  {| ux := x; us := us u; uv := uv u; uwork := uwork u |}.
Definition with_us (u : UpdateMem) (s : mem K) : UpdateMem :=
  {| ux := ux u; us := s; uv := uv u; uwork := uwork u |}.
Definition with_uv (u : UpdateMem) (x : mem K) : UpdateMem :=
  {| ux := ux u; us := us u; uv := x; uwork := uwork u |}.
Definition with_uwork (u : UpdateMem) (w : mem K) : UpdateMem :=
  {| ux := ux u; us := us u; uv := uv u; uwork := w |}.

(** The first statements of [update]: the triangular system solved in
    [s], by [trtrs] or column by column, and [tmp] as they leave it.  [h]
    is an array of pointers [H] into the block [hm]. *)
Definition update_solve (H : Z -> Z) (hasConverged : mem Z)
    (mu deflated : Z) (hm s : mem K) : Z * mem K :=
  let tmp := H 1 - H 0 in
  if (mu =? 1) || negb (deflated =? -1) then
    let dim := Z.abs (load 0 hasConverged 0) in
    let tmp := if negb (deflated =? -1) then tmp `quot` deflated else tmp in
    let nrhs := if negb (deflated =? -1) then deflated else mu in
    let '(B, _) := trtrs "U" "N" "N" dim nrhs (load_mat hm (H 0) tmp dim dim)
                         (load_mat s 0 tmp dim nrhs) in
    (tmp, store_mat s 0 tmp dim nrhs B)
  else
    (tmp,
     for_ 0 mu
       (fun s nu =>
          foldl
            (fun s i =>
               let q := Kdiv (load K0 s (i * mu + nu))
                             (load K0 hm (H i + i * mu + nu)) in
               let s := store s (i * mu + nu) q in
               let alpha := Kopp q in
               stores_inc_n K0 s nu mu i
                 (axpy i alpha (loads_inc K0 hm (H i + nu) mu i)
                       (loads_inc K0 s nu mu i)))
            s (reverse (seqZ 0 (Z.abs (load 0 hasConverged nu)))))
       s).

(** The cells of [correction], which is [v[idx]] with right
    preconditioning and [work] otherwise. *)
Definition correction_cells (variant : ascii) (v : Z -> Z) (idx : Z)
    (u : UpdateMem) (off len : Z) : list K :=
  if Ascii.eqb variant "R"%char then loads K0 (uv u) (v idx + off) len
  else loads K0 (uwork u) off len.

Definition correction_mat (variant : ascii) (v : Z -> Z) (idx : Z)
    (u : UpdateMem) (ld rows cols : Z) : list (list K) :=
  if Ascii.eqb variant "R"%char then load_mat (uv u) (v idx) ld rows cols
  else load_mat (uwork u) 0 ld rows cols.

(** [if(variant == 'R') A.apply(work, correction, cols);] *)
Definition update_apply (variant : ascii) (v : Z -> Z) (idx n cols : Z)
    (u : UpdateMem) : M UpdateMem :=
  if Ascii.eqb variant "R"%char then
    out ← call (apply_plain (loads K0 (uwork u) 0 (cols * n)) cols);
    mret (with_uv u (stores_n K0 (uv u) (v idx) (cols * n) out))
  else mret u.

(** [IterativeMethod::update(A, variant, n, x, h, s, v, hasConverged, mu,
    work, deflated)] *)
Definition update (variant : ascii) (n : Z) (H v : Z -> Z)
    (hasConverged : mem Z) (mu deflated : Z) (hm : mem K) (u : UpdateMem)
  : M UpdateMem :=
  let hc nu := load 0 hasConverged nu in
  let '(tmp, s) := update_solve H hasConverged mu deflated hm (us u) in
  let u := with_us u s in
  let idx := tmp `quot` (if deflated =? -1 then mu else deflated) - 1 in
  if deflated =? -1 then
    let tmp := mu * n in
    if Ascii.eqb variant "L"%char then
      mret (with_ux u
              (for_ 0 mu
                 (fun x nu =>
                    if negb (hc nu =? 0) then
                      let dim := Z.abs (hc nu) in
                      stores_n K0 x (nu * n) n
                        (gemv "N" n dim d__1
                              (load_mat (uv u) (v 0 + nu * n) tmp n dim)
                              (loads_inc K0 (us u) nu mu dim) d__1
                              (loads K0 x (nu * n) n))
                    else x)
                 (ux u)))
    else
      let work :=
        for_ 0 mu
          (fun w nu =>
             let dim := Z.abs (hc nu) in
             stores_n K0 w (nu * n) n
               (gemv "N" n dim d__1
                     (load_mat (uv u) (v 0 + nu * n) tmp n dim)
                     (loads_inc K0 (us u) nu mu dim) d__0
                     (loads K0 w (nu * n) n)))
          (uwork u) in
      let u := with_uwork u work in
      u ← update_apply variant v idx n mu u;
      mret (with_ux u
              (for_ 0 mu
                 (fun x nu =>
                    if negb (hc nu =? 0) then
                      stores_n K0 x (nu * n) n
                        (axpy n d__1
                              (correction_cells variant v idx u (nu * n) n)
                              (loads K0 x (nu * n) n))
                    else x)
                 (ux u)))
  else if deflated =? mu then
    let dim := hc 0 in
    if Ascii.eqb variant "L"%char then
      mret (with_ux u
              (store_mat (ux u) 0 n n mu
                 (gemm "N" "N" n mu dim d__1 (load_mat (uv u) (v 0) n n dim)
                       (load_mat (us u) 0 tmp dim mu) d__1
                       (load_mat (ux u) 0 n n mu))))
    else
      let u := with_uwork u
                 (store_mat (uwork u) 0 n n mu
                    (gemm "N" "N" n mu dim d__1
                          (load_mat (uv u) (v 0) n n dim)
                          (load_mat (us u) 0 tmp dim mu) d__0
                          (load_mat (uwork u) 0 n n mu))) in
      u ← update_apply variant v idx n mu u;
      mret (with_ux u
              (stores_n K0 (ux u) 0 (mu * n)
                 (axpy (mu * n) d__1
                       (correction_cells variant v idx u 0 (mu * n))
                       (loads K0 (ux u) 0 (mu * n)))))
  else
    let dim := hc 0 in
    let u := with_uwork u
               (store_mat (uwork u) 0 n n deflated
                  (gemm "N" "N" n deflated dim d__1
                        (load_mat (uv u) (v 0) n n dim)
                        (load_mat (us u) 0 tmp dim deflated) d__0
                        (load_mat (uwork u) 0 n n deflated))) in
    u ← update_apply variant v idx n deflated u;
    let x := store_mat (ux u) (deflated * n) n n (mu - deflated)
               (gemm "N" "N" n (mu - deflated) deflated d__1
                     (correction_mat variant v idx u n n deflated)
                     (load_mat (us u) (deflated * tmp) tmp deflated
                               (mu - deflated))
                     d__1
                     (load_mat (ux u) (deflated * n) n n (mu - deflated))) in
    mret (with_ux u
            (stores_n K0 x 0 (deflated * n)
               (axpy (deflated * n) d__1
                     (correction_cells variant v idx u 0 (deflated * n))
                     (loads K0 x 0 (deflated * n))))).

End Update.

(** ** Reference kernels and small instances

    The instances below give the classes a concrete meaning on which the
    definitions above can be run: double precision numbers, the reference
    loops of the BLAS kernels, one rank, and an operator given by a dense
    matrix. *)

Section Reference.
Context {K U : Type} `{SC : Scalar K U}.

Definition ref_dot (n : Z) (x y : list K) : K :=
  foldl (fun acc j => Kadd acc (Kmul (conj (nth (Z.to_nat j) x K0))
                                      (nth (Z.to_nat j) y K0)))
        K0 (seqZ 0 n).

Definition ref_axpy (n : Z) (a : K) (x y : list K) : list K :=
  (fun j => Kadd (nth (Z.to_nat j) y K0) (Kmul a (nth (Z.to_nat j) x K0)))
    <$> seqZ 0 n.

Definition ref_axpby (n : Z) (a : K) (x : list K) (b : K) (y : list K)
  : list K :=
  (fun j => Kadd (Kmul a (nth (Z.to_nat j) x K0))
                 (Kmul b (nth (Z.to_nat j) y K0)))
    <$> seqZ 0 n.

Definition ref_nrm2 (n : Z) (x : list K) : U := Usqrt (real (ref_dot n x x)).

(** The entry of row [r] and column [c]. *)
Definition entry (A : list (list K)) (r c : Z) : K :=
  nth (Z.to_nat r) (nth (Z.to_nat c) A []) K0.

Definition ref_gemv (trans : string) (m n : Z) (alpha : K)
    (A : list (list K)) (x : list K) (beta : K) (y : list K) : list K :=
  if String.eqb trans "N" then
    (fun r =>
       Kadd (Kmul alpha
               (foldl (fun acc c =>
                         Kadd acc (Kmul (entry A r c) (nth (Z.to_nat c) x K0)))
                      K0 (seqZ 0 n)))
            (Kmul beta (nth (Z.to_nat r) y K0)))
      <$> seqZ 0 m
  else
    (fun c =>
       Kadd (Kmul alpha
               (foldl (fun acc r =>
                         Kadd acc
                           (Kmul (if String.eqb trans "C"
                                  then conj (entry A r c) else entry A r c)
                                 (nth (Z.to_nat r) x K0)))
                      K0 (seqZ 0 m)))
            (Kmul beta (nth (Z.to_nat c) y K0)))
      <$> seqZ 0 n.

(** [op(A)] entry for the matrix products. *)
Definition op_entry (trans : string) (A : list (list K)) (r c : Z) : K :=
  if String.eqb trans "N" then entry A r c
  else if String.eqb trans "C" then conj (entry A c r)
  else entry A c r.

Definition ref_gemm (transa transb : string) (m n k : Z) (alpha : K)
    (A B : list (list K)) (beta : K) (C : list (list K)) : list (list K) :=
  (fun c =>
     (fun r =>
        Kadd (Kmul alpha
                (foldl (fun acc l =>
                          Kadd acc (Kmul (op_entry transa A r l)
                                         (op_entry transb B l c)))
                       K0 (seqZ 0 k)))
             (Kmul beta (entry C r c)))
       <$> seqZ 0 m)
    <$> seqZ 0 n.

(** [gemmt]: the product on the triangle [uplo], the rest of [C] kept. *)
Definition ref_gemmt (uplo transa transb : string) (n k : Z) (alpha : K)
    (A B : list (list K)) (beta : K) (C : list (list K)) : list (list K) :=
  let P := ref_gemm transa transb n n k alpha A B beta C in
  (fun c =>
     (fun r =>
        if (if String.eqb uplo "U" then r <=? c else c <=? r)
        then entry P r c else entry C r c)
       <$> seqZ 0 n)
    <$> seqZ 0 n.

(** [Wrapper<K>::diag]: each of the [mu] vectors scaled by the weights, or
    copied when there are none. *)
Definition ref_diag (n : Z) (d : option (list U)) (inp : list K) (mu : Z)
  : list K :=
  match d with
  | None => (fun j => nth (Z.to_nat j) inp K0) <$> seqZ 0 (n * mu)
  | Some w =>
      (fun j => Kscale (nth (Z.to_nat (j `mod` n)) w U0)
                       (nth (Z.to_nat j) inp K0))
        <$> seqZ 0 (n * mu)
  end.

Lemma ref_dot_0 n x y : n <= 0 -> ref_dot n x y = K0.
Proof. intros Hn. unfold ref_dot. by rewrite seqZ_nil. Qed.

(** The kernels of level 3 that no example below reaches, [trsm], [trmm]
    and [herk], leave their argument as it is. *)
#[local] Instance ref_blas : Blas K U := {|
  dot := ref_dot;
  axpy := ref_axpy;
  axpby := ref_axpby;
  nrm2 := ref_nrm2;
  gemv := ref_gemv;
  gemm := ref_gemm;
  gemmt := ref_gemmt;
  trsm := fun _ _ _ _ _ _ _ _ B => B;
  trmm := fun _ _ _ _ _ _ _ _ B => B;
  herk := fun _ _ _ _ _ _ _ C => C;
  diag := ref_diag;
  dot_0 := ref_dot_0
|}.

(** A LAPACK whose routines report that the matrix they are given is not
    positive definite or has no full rank: [info] is 1. *)
#[local] Instance failing_lapack : Lapack K := {|
  ppsv := fun _ _ _ AP B => (AP, B, 1);
  posv := fun _ _ _ A B => (A, B, 1);
  potrf := fun _ _ A => (A, 1);
  geqrf := fun _ _ A _ => (A, [], [], 1);
  mqr := fun _ _ _ _ _ _ _ C _ => (C, [], 1)
|}.

(** One rank: the sums are the summands. *)
#[local] Instance one_rank : Mpi K U unit := {|
  allreduce_K := fun _ _ send e => (send, e);
  allreduce_U := fun _ _ send e => (send, e)
|}.

(** The operator of a dense [n] by [n] matrix on one rank, without
    preconditioner, scaling, or constraint. *)
Definition matvec (n : Z) (A : list (list K)) (x : list K) : list K :=
  ref_gemv "N" n n d__1 A x d__0 ((fun _ => K0) <$> seqZ 0 n).

#[local] Instance dense_operator (n : Z) (A : list (list K))
  : Operator K U unit := {|
  prefix := "";
  getDof := n;
  getMult := n;
  getEliminated := 0;
  getScaling := None;
  ptr_type_is_single := true;
  start := fun _ _ x _ e => (false, x, e);
  GMV := fun x _ e => (matvec n A x, e);
  apply := fun _ x _ work e => (x, default [] work, e);
  end_ := fun _ e => e;
  allocateArray := fun e => (∅, ∅, e);
  allocateSingle := fun e => (∅, e);
  start_projected := fun _ f x _ lambda _ e =>
    (false, x, lambda,
     stores ∅ 0 (ref_axpy n d__2 (matvec n A (loads K0 x 0 n))
                          (loads K0 f 0 n)), e);
  precond := fun r _ e => (r, e);
  project_N := fun _ z _ e => (z, e);
  project_T := fun _ r e => (r, e);
  apply_projected := fun p _ e => (stores ∅ 0 (matvec n A (loads K0 p 0 n)), e);
  computeDot := fun _ a b e =>
    (real (ref_dot n (loads K0 a 0 n) (loads K0 b 0 n)), e);
  computeSolution := fun _ _ x e => (x, e)
|}.

(** The configuration as a table of integers; the tolerance is apart.
    [checkConvergence] is the test that the specification words: a column
    that has not converged is marked with the iteration once its residual
    norm over the initial one is at most [tol]. *)
Definition table_any_of (opt : gmap string Z) (key : string) (vs : list Z)
  : bool :=
  match opt !! key with
  | Some v => bool_decide (v ∈ vs)
  | None => false
  end.

Definition table_val (opt : gmap string Z) (key : string) (dflt : Z) : Z :=
  default dflt (opt !! key).

Definition mark_converged (i : Z) (tol : U) (mu : Z) (norm res : list U)
    (conv : list Z) (sentinel : Z) : list Z :=
  (fun nu =>
     let c := nth (Z.to_nat nu) conv 0 in
     if (c =? - sentinel)
        && Uleb (Udiv (nth (Z.to_nat nu) res U0) (nth (Z.to_nat nu) norm U0))
                tol
     then to_short i else c)
    <$> seqZ 0 mu.

#[local] Instance table_helpers (tol : U) (qr_info : Z)
  : Helpers K U unit := {|
  Option_ := gmap string Z;
  any_of := table_any_of;
  val := table_val;
  options := fun _ pre opt =>
    (tol, table_val opt (pre +:+ "max_it") 100,
     table_val opt (pre +:+ "verbosity") 0,
     table_val opt (pre +:+ "variant") 0);
  checkConvergence := fun _ _ i tol mu norm res conv sentinel =>
    mark_converged i tol mu norm res conv sentinel;
  checkBlockConvergence := fun _ _ _ _ _ _ _ _ work _ => (0, work);
  QR := fun _ _ _ _ Q R _ _ work e => (qr_info, Q, R, work, e);
  GMRES := fun _ _ _ x _ e => (0, x, e, [])
|}.

End Reference.

(** Double precision: [K] and its underlying type are [float]. *)
#[local] Instance double : Scalar float float := {|
  K0 := 0%float;
  d__0 := 0%float;
  d__1 := 1%float;
  d__2 := (-1)%float;
  is_complex := false;
  transc := "T";
  Kopp := PrimFloat.opp;
  Kadd := PrimFloat.add;
  Kmul := PrimFloat.mul;
  Kdiv := PrimFloat.div;
  Khalf := fun a => PrimFloat.div a 2%float;
  conj := fun a => a;
  real := fun a => a;
  of_real := fun a => a;
  Kscale := PrimFloat.mul;
  Kdiv_real := PrimFloat.div;
  U0 := 0%float;
  Ud__0 := 0%float;
  Ud__1 := 1%float;
  Uopp := PrimFloat.opp;
  Udiv := PrimFloat.div;
  Usqrt := PrimFloat.sqrt;
  Uleb := PrimFloat.leb;
  Umax := 0x1.fffffffffffffp+1023%float;
  real_K0 := eq_refl
|}.

(** The system of the specification: [[4, 1], [1, 3]]. *)
Definition A_spd : list (list float) := [[4; 1]; [1; 3]]%float.

(** A sub-domain solver on integers whose two libraries keep what they are
    given: the factors are the matrix. *)
#[local] Instance int_backends : SuiteSparse.Backends Z := {|
  SuiteSparse.is_complex := false;
  SuiteSparse.fresh := 0;
  SuiteSparse.above_eps := fun a => 0 <? Z.abs a;
  SuiteSparse.cholmod_common := unit;
  SuiteSparse.cholmod_factor := list Z * list Z * list Z;
  SuiteSparse.cholmod_work := unit;
  SuiteSparse.umf_symbolic := unit;
  SuiteSparse.umf_numeric := list Z * list Z * list Z;
  SuiteSparse.cholmod_start := tt;
  SuiteSparse.cholmod_analyze := fun M c =>
    ((SuiteSparse.sp_p Z M, SuiteSparse.sp_i Z M, SuiteSparse.sp_x Z M), c);
  SuiteSparse.cholmod_factorize := fun _ L c => (L, c);
  SuiteSparse.cholmod_solve2 := fun _ _ rhs Y E _ => (rhs, Y, E);
  SuiteSparse.umfpack_defaults := ∅;
  SuiteSparse.UMFPACK_PRL := 0;
  SuiteSparse.UMFPACK_IRSTEP := 7;
  SuiteSparse.umfpack_symbolic := fun _ _ _ _ _ _ => tt;
  SuiteSparse.umfpack_numeric := fun ia ja a _ _ => (ia, ja, a);
  SuiteSparse.umfpack_wsolve := fun _ _ rhs => rhs
|}.

(** The lower triangle of [[2, 1], [1, 2]] by rows, flagged symmetric. *)
Definition A_sym : SuiteSparse.MatrixCSR Z :=
  {| SuiteSparse._sym := true; SuiteSparse._m := 2; SuiteSparse._n := 2;
     SuiteSparse._nnz := 3; SuiteSparse._ia := [0; 1; 3];
     SuiteSparse._ja := [0; 0; 1]; SuiteSparse._a := [2; 1; 2] |}.

(** ** The inputs of the examples *)

(** The operator of [A_spd] on one rank, and the helpers with the tolerance
    [2^-30] and a [QR] that gives [info = qr_info]. *)
Definition example_operator : Operator float float unit :=
  dense_operator (SC:=double) 2 A_spd.

Definition example_helpers (qr_info : Z) : Helpers float float unit :=
  table_helpers (SC:=double) 0x1p-30%float qr_info.

(** The right-hand side [1, 2], the zero vector, and configurations: a
    maximum of 10 and of 3 iterations, a maximum of 3 with verbosity 3, and
    one that asks for the method 1 of Schwarz. *)
Definition b_example : mem float := stores ∅ 0 [1; 2]%float.

Definition zero_vector : mem float := stores ∅ 0 [0; 0]%float.

Definition opt_ten : gmap string Z := {[ "max_it" := 10 ]}.

Definition opt_three : gmap string Z := {[ "max_it" := 3 ]}.

Definition opt_three_verbose : gmap string Z :=
  {[ "max_it" := 3; "verbosity" := 3 ]}.

Definition opt_schwarz : gmap string Z := {[ "schwarz_method" := 1 ]}.

(** A matrix that is not flagged symmetric, [[2, 1], [3, 2]], and an object
    of the sub-domain solver that holds no factorization. *)
Definition A_general : SuiteSparse.MatrixCSR Z :=
  {| SuiteSparse._sym := false; SuiteSparse._m := 2; SuiteSparse._n := 2;
     SuiteSparse._nnz := 4; SuiteSparse._ia := [0; 2; 4];
     SuiteSparse._ja := [0; 1; 0; 1]; SuiteSparse._a := [2; 1; 3; 2] |}.

Definition new_solver : SuiteSparse.SuiteSparseSub Z :=
  SuiteSparse.SuiteSparseSub_new (BK:=int_backends).

(** The blocks of the kernels with nothing in them, and the columns of [H]
    ten cells apart, the vectors of the basis two cells apart. *)
Definition empty_blocks : KrylovMem (K:=float) (U:=float) :=
  {| mH := ∅; mv := ∅; ms := ∅; msn := ∅; mtau := ∅; mAx := ∅; msave := ∅ |}.

Definition H_example (i : Z) : Z := 10 * i.

Definition v_example (i : Z) : Z := 2 * i.

(** PCG at the start of its turn 65535, on a rank that holds no unknown. *)
Definition last_turn : PCGState (K:=float) :=
  {| pcg_x := ∅; pcg_r := ∅; pcg_lambda := ∅; pcg_heap := ∅;
     pcg_next := O; pcg_z := []; pcg_p := []; pcg_zCurr := O;
     pcg_pCurr := O; pcg_alpha := ∅; pcg_resRel := 1%float;
     pcg_i := 65535 |}.

(** Two right-hand sides of two cells for the sub-domain solver, one after
    the other, and the object that holds the factors of [A_general]. *)
Definition two_columns : mem Z := stores ∅ 0 [1; 2; 3; 4].

Definition lu_solver : SuiteSparse.SuiteSparseSub Z :=
  SuiteSparse.numfact (BK:=int_backends) A_general false new_solver.

(** CG at the start of its first turn, with [x = 0] and its own blocks
    empty. *)
Definition first_turn : CGState (K:=float) (U:=float) :=
  {| cg_x := zero_vector; cg_wk := ∅; cg_res := ∅; cg_conv := ∅;
     cg_i := 0 |}.

(** For [update]: a [trtrs] that leaves the right-hand sides as they are,
    an operator that copies, and blocks with [x = 0]. *)
#[local] Instance copying_calls : UpdateCalls float unit := {|
  trtrs := fun _ _ _ _ _ _ B => (B, 0);
  apply_plain := fun inp _ e => (inp, e)
|}.

Definition update_blocks : UpdateMem (K:=float) :=
  {| ux := zero_vector; us := ∅; uv := ∅; uwork := ∅ |}.

(** * Properties *)

(** ** The sub-domain solver *)

Section SuiteSparse_facts.
Import SuiteSparse.
Context {K : Type} `{BK : Backends K}.

Lemma length_emplace_back (v : list (list (Z * K))) i e :
  length (emplace_back v i e) = length v.
Proof.
  unfold emplace_back. destruct (i <? 0); [done|]. apply length_alter.
Qed.

Lemma in_row_emplace_back (v : list (list (Z * K))) i e' r e :
  in_row (emplace_back v i e') r e <->
  in_row v r e \/ (r = i /\ e = e' /\ 0 <= i < Z.of_nat (length v)).
Proof.
  unfold in_row, emplace_back.
  destruct (Z.ltb_spec i 0) as [Hi|Hi].
  { split; [by left|]. intros [?|(? & ? & ? & ?)]; [done|lia]. }
  destruct (decide (r = i)) as [->|Hne].
  - rewrite list_lookup_alter_eq. split.
    + intros [_ (row & Hrow & He)].
      destruct (v !! Z.to_nat i) as [row0|] eqn:E; simplify_eq/=.
      apply elem_of_app in He as [He|He].
      * left. eauto.
      * right. apply list_elem_of_singleton in He.
        apply lookup_lt_Some in E. split_and!; [done|done|lia|lia].
    + intros [[_ (row & Hrow & He)]|(_ & -> & _ & Hlt)].
      * split; [done|]. rewrite Hrow. simpl. eexists; split; [done|].
        apply elem_of_app. by left.
      * split; [done|].
        destruct (lookup_lt_is_Some_2 v (Z.to_nat i)) as [row0 E]; [lia|].
        rewrite E. simpl. eexists; split; [done|].
        apply elem_of_app. right. by apply list_elem_of_singleton.
  - split.
    + intros [Hr (row & Hrow & He)]. left. split; [done|].
      rewrite list_lookup_alter_ne in Hrow by lia. eauto.
    + intros [[Hr (row & Hrow & He)]|(? & _)]; [|done].
      split; [done|]. rewrite list_lookup_alter_ne by lia. eauto.
Qed.

Lemma length_expand_entry A i v j :
  length (expand_entry A i v j) = length v.
Proof.
  unfold expand_entry. destruct (above_eps _); [|done].
  by rewrite !length_emplace_back.
Qed.

Lemma length_for_ {S} (f : S -> Z -> S) (len : S -> nat) lo hi s :
  (forall s j, len (f s j) = len s) -> len (for_ lo hi f s) = len s.
Proof.
  intros Hf. unfold for_. generalize (seqZ lo (hi - lo)). intros l.
  revert s. induction l as [|j l IH]; intros s; simpl; [done|].
  by rewrite IH, Hf.
Qed.

Lemma length_expand_row A v i : length (expand_row A v i) = length v.
Proof.
  unfold expand_row. rewrite length_emplace_back.
  apply (length_for_ _ length). intros. apply length_expand_entry.
Qed.

(** The entries of row [i] at the positions of [l], read one after the
    other. *)
Lemma in_row_expand_entries_list A i (l : list Z) :
  forall (v : list (list (Z * K))) r e,
  0 <= i < Z.of_nat (length v) -> 0 <= r < Z.of_nat (length v) ->
  in_row (foldl (expand_entry A i) v l) r e <->
  in_row v r e \/
  exists j, j ∈ l /\ above_eps (at_ fresh (_a A) j) = true /\
    ((r = i /\ e = (at_ 0 (_ja A) j, at_ fresh (_a A) j)) \/
     (r = at_ 0 (_ja A) j /\ e = (i, at_ fresh (_a A) j))).
Proof.
  induction l as [|j l IH]; intros v r e Hi Hr; simpl.
  { split; [by left|]. intros [H|(j & Hj & _)]; [done|].
    by apply not_elem_of_nil in Hj. }
  rewrite IH by (by rewrite length_expand_entry).
  unfold expand_entry at 1.
  destruct (above_eps (at_ fresh (_a A) j)) eqn:Hab.
  - rewrite !in_row_emplace_back, length_emplace_back. split.
    + intros [[[H|(-> & -> & _)]|(-> & -> & _)]|(j' & Hj' & H)].
      * by left.
      * right. exists j. split; [by left|]. split; [done|]. by left.
      * right. exists j. split; [by left|]. split; [done|]. by right.
      * right. exists j'. split; [by right|done].
    + intros [H|(j' & Hj' & Hab' & H)]; [by left; left; left|].
      apply elem_of_cons in Hj' as [->|Hj'].
      * destruct H as [[-> ->]|[-> ->]].
        -- left. left. right. done.
        -- left. right. done.
      * right. exists j'. done.
  - split.
    + intros [H|(j' & Hj' & H)]; [by left|].
      right. exists j'. split; [by right|done].
    + intros [H|(j' & Hj' & Hab' & H)]; [by left|].
      apply elem_of_cons in Hj' as [->|Hj']; [congruence|].
      right. exists j'. done.
Qed.

Lemma elem_of_seqZ_range (j lo hi : Z) :
  j ∈ seqZ lo (hi - lo) <-> lo <= j < hi.
Proof.
  rewrite list_elem_of_lookup. split.
  - intros [k Hk]. apply lookup_seqZ in Hk. lia.
  - intros Hj. exists (Z.to_nat (j - lo)). apply lookup_seqZ. lia.
Qed.

Lemma in_row_expand_entries A i (v : list (list (Z * K))) lo hi r e :
  0 <= i < Z.of_nat (length v) -> 0 <= r < Z.of_nat (length v) ->
  in_row (for_ lo hi (expand_entry A i) v) r e <->
  in_row v r e \/
  exists j, lo <= j < hi /\ above_eps (at_ fresh (_a A) j) = true /\
    ((r = i /\ e = (at_ 0 (_ja A) j, at_ fresh (_a A) j)) \/
     (r = at_ 0 (_ja A) j /\ e = (i, at_ fresh (_a A) j))).
Proof.
  intros Hi Hr. unfold for_. rewrite in_row_expand_entries_list by done.
  by setoid_rewrite elem_of_seqZ_range.
Qed.

Lemma in_row_expand_row A (v : list (list (Z * K))) i r e :
  0 <= i < Z.of_nat (length v) -> 0 <= r < Z.of_nat (length v) ->
  in_row (expand_row A v i) r e <->
  in_row v r e \/
  (r = i /\ e = (i, at_ fresh (_a A) (at_ 0 (_ia A) (i + 1) - 1))) \/
  exists j, stored A i j /\ above_eps (at_ fresh (_a A) j) = true /\
    ((r = i /\ e = (at_ 0 (_ja A) j, at_ fresh (_a A) j)) \/
     (r = at_ 0 (_ja A) j /\ e = (i, at_ fresh (_a A) j))).
Proof.
  intros Hi Hr. unfold expand_row.
  rewrite in_row_emplace_back, in_row_expand_entries by done.
  rewrite (length_for_ _ length) by (intros; apply length_expand_entry).
  unfold stored. split.
  - intros [[H|(j & Hj & H)]|(-> & -> & _)].
    + by left.
    + right. right. exists j. done.
    + right. left. done.
  - intros [H|[(-> & ->)|(j & Hj & H)]].
    + left. by left.
    + right. done.
    + left. right. exists j. done.
Qed.

Lemma in_row_replicate_nil n r (e : Z * K) : ~ in_row (replicate n []) r e.
Proof.
  intros [_ (row & Hrow & He)].
  apply lookup_replicate in Hrow as [-> _]. by apply not_elem_of_nil in He.
Qed.

(** The rows of [l], read one after the other. *)
Lemma in_row_expand_rows_list A (l : list Z) :
  forall (v : list (list (Z * K))) r e,
  (forall i, i ∈ l -> 0 <= i < Z.of_nat (length v)) ->
  0 <= r < Z.of_nat (length v) ->
  in_row (foldl (expand_row A) v l) r e <->
  in_row v r e \/
  exists i, i ∈ l /\
    ((r = i /\ e = (i, at_ fresh (_a A) (at_ 0 (_ia A) (i + 1) - 1))) \/
     exists j, stored A i j /\ above_eps (at_ fresh (_a A) j) = true /\
       ((r = i /\ e = (at_ 0 (_ja A) j, at_ fresh (_a A) j)) \/
        (r = at_ 0 (_ja A) j /\ e = (i, at_ fresh (_a A) j)))).
Proof.
  induction l as [|i l IH]; intros v r e Hl Hr; simpl.
  { split; [by left|]. intros [H|(i & Hi & _)]; [done|].
    by apply not_elem_of_nil in Hi. }
  rewrite IH; cycle 1.
  { intros i' Hi'. rewrite length_expand_row. apply Hl. by right. }
  { by rewrite length_expand_row. }
  rewrite in_row_expand_row by (try done; apply Hl; by left). split.
  - intros [[H|H]|(i' & Hi' & H)].
    + by left.
    + right. exists i. split; [by left|done].
    + right. exists i'. split; [by right|done].
  - intros [H|(i' & Hi' & H)]; [by left; left|].
    apply elem_of_cons in Hi' as [->|Hi'].
    + left. by right.
    + right. exists i'. done.
Qed.

(** The rows of the expansion, before they are sorted. *)
Lemma in_row_expand_rows A r e :
  0 <= r < _n A -> in_row (expand_rows A) r e <-> expanded A (_n A) r e.
Proof.
  intros Hr. unfold expand_rows, for_.
  assert (Hlen : Z.of_nat (length (replicate (Z.to_nat (_n A))
                                     ([] : list (Z * K)))) = _n A).
  { rewrite length_replicate. lia. }
  rewrite in_row_expand_rows_list; cycle 1.
  { intros i Hi. apply elem_of_seqZ_range in Hi. lia. }
  { lia. }
  split.
  - intros [H|(i & Hi & H)]; [by apply in_row_replicate_nil in H|].
    apply elem_of_seqZ_range in Hi.
    destruct H as [(-> & ->)|(j & Hj & Hab & [(-> & ->)|(Hja & ->)])].
    + by apply expanded_diag.
    + by apply (expanded_kept _ _ _ _ j).
    + by apply (expanded_mirror _ _ _ _ i j).
  - intros [Hb He|j Hb Hj Hab He|i j Hb Hj Hab Hja He]; right.
    + exists r. split; [by apply elem_of_seqZ_range|]. by left.
    + exists r. split; [by apply elem_of_seqZ_range|]. right.
      exists j. split_and!; [done|done|]. by left.
    + exists i. split; [by apply elem_of_seqZ_range|]. right.
      exists j. split_and!; [done|done|]. by right.
Qed.

Lemma elem_of_insert_by_col (e e' : Z * K) row :
  e ∈ insert_by_col e' row <-> e = e' \/ e ∈ row.
Proof.
  induction row as [|e0 row IH]; simpl.
  - rewrite list_elem_of_singleton. split; [by left|].
    intros [?|H]; [done|]. by apply not_elem_of_nil in H.
  - destruct (fst e0 <=? fst e').
    + rewrite !elem_of_cons, IH. tauto.
    + rewrite !elem_of_cons. tauto.
Qed.

Lemma elem_of_sort_row (e : Z * K) row : e ∈ sort_row row <-> e ∈ row.
Proof.
  unfold sort_row. induction row as [|e0 row IH]; simpl; [done|].
  rewrite elem_of_insert_by_col, IH, elem_of_cons. tauto.
Qed.

Lemma in_row_sort (v : list (list (Z * K))) r e : in_row (sort_row <$> v) r e <-> in_row v r e.
Proof.
  unfold in_row. rewrite list_lookup_fmap. split.
  - intros [Hr (row & Hrow & He)].
    destruct (v !! Z.to_nat r) as [row0|]; simplify_eq/=.
    split; [done|]. exists row0. split; [done|]. by apply elem_of_sort_row.
  - intros [Hr (row & Hrow & He)]. split; [done|].
    rewrite Hrow. simpl. eexists. split; [done|]. by apply elem_of_sort_row.
Qed.

(** The layout of the rows: [ja] and [a] are the rows one after the other. *)
Lemma flatten_rows_spec (v : list (list (Z * K))) :
  let '(ia, ja, a) := flatten_rows v in
  ja = mjoin ((fmap fst) <$> v) /\ a = mjoin ((fmap snd) <$> v) /\
  length ia = S (length v).
Proof.
  unfold flatten_rows.
  assert (Hgen : forall v ia ja a,
    let '(ia', ja', a') :=
      foldl (fun '(ia, ja, a) (row : list (Z * K)) =>
               (ia ++ [Z.of_nat (length ja + length row)],
                ja ++ (fst <$> row), a ++ (snd <$> row)))
            (ia, ja, a) v in
    ja' = ja ++ mjoin ((fmap fst) <$> v) /\
    a' = a ++ mjoin ((fmap snd) <$> v) /\
    length ia' = (length ia + length v)%nat).
  { clear v. induction v as [|row v IH]; intros ia ja a; simpl.
    - rewrite !app_nil_r. split_and!; [done|done|lia].
    - specialize (IH (ia ++ [Z.of_nat (length ja + length row)])
                     (ja ++ (fst <$> row)) (a ++ (snd <$> row))).
      destruct (foldl _ _ v) as [[ia' ja'] a'].
      destruct IH as (-> & -> & ->). rewrite <- !app_assoc.
      split_and!; [done|done|]. rewrite length_app. simpl. lia. }
  specialize (Hgen v [0] [] []).
  destruct (foldl _ _ v) as [[ia' ja'] a']. simpl in Hgen. done.
Qed.

(** Whatever the object and the matrix, [numfact] leaves an object that
    holds a factorization. *)
Lemma numfact_holds (A : MatrixCSR K) (d : bool) (s : SuiteSparseSub K) :
  null (_c (numfact A d s)) = false \/ null (_W (numfact A d s)) = false.
Proof.
  unfold numfact.
  destruct (null (_c s)) eqn:Hc; simpl; [|by left].
  destruct (null (_W s)) eqn:HW; simpl; [|by right].
  destruct (_sym A && negb is_complex).
  - destruct (cholmod_analyze _ _) as [L c].
    destruct (cholmod_factorize _ _ _) as [L' c']. by left.
  - destruct (umfpack_input A) as [[ia ja] a]. by right.
Qed.

Lemma numfact_noop (A : MatrixCSR K) (d : bool) (s : SuiteSparseSub K) :
  null (_c s) = false \/ null (_W s) = false -> numfact A d s = s.
Proof.
  intros [H|H]; unfold numfact; rewrite H; [done|].
  by rewrite andb_false_r.
Qed.

(** C10: a call of [numfact] on an object that holds a factorization (its
    [_c] or its [_W] is not null) changes no member of the object, whatever
    the matrix of the call; so a second call after a first one leaves what
    the first call built. *)
Theorem numfact_idempotent
    (A A' : MatrixCSR K) (d d' : bool) (s : SuiteSparseSub K) :
  (null (_c s) = false \/ null (_W s) = false -> numfact A' d' s = s) /\
  numfact A' d' (numfact A d s) = numfact A d s.
Proof.
  split; [apply numfact_noop|].
  apply numfact_noop, numfact_holds.
Qed.


End SuiteSparse_facts.

(** ** Blocks: what a write leaves alone *)

Section Frames.
Context {T : Type}.
Implicit Types (m : mem T) (d : T).

Lemma same_outside_refl lo hi m : same_outside lo hi m m.
Proof. by intros a _. Qed.

Lemma same_outside_trans lo hi m1 m2 m3 :
  same_outside lo hi m1 m2 -> same_outside lo hi m2 m3 ->
  same_outside lo hi m1 m3.
Proof. intros H12 H23 a Ha. by rewrite H23, H12. Qed.

Lemma same_outside_weaken lo hi lo' hi' m m' :
  lo' <= lo -> hi <= hi' -> same_outside lo hi m m' ->
  same_outside lo' hi' m m'.
Proof. intros Hlo Hhi H a Ha. apply H. lia. Qed.

Lemma same_outside_store lo hi m a v :
  lo <= a < hi -> same_outside lo hi m (store m a v).
Proof.
  intros Ha b Hb. unfold store. apply lookup_insert_ne. lia.
Qed.

Lemma same_outside_stores_inc lo hi (vs : list T) :
  forall m off inc,
  0 <= inc ->
  (vs <> [] -> lo <= off /\ off + (Z.of_nat (length vs) - 1) * inc < hi) ->
  same_outside lo hi m (stores_inc m off inc vs).
Proof.
  induction vs as [|v vs IH]; intros m off inc Hinc Hr; simpl in *.
  { apply same_outside_refl. }
  destruct Hr as [Hlo Hhi]; [done|].
  eapply same_outside_trans; [|apply IH; [done|]].
  - apply same_outside_store. nia.
  - intros Hne. destruct vs; [done|]. simpl in *. nia.
Qed.

Lemma length_fmap_seqZ {B} (f : Z -> B) lo len :
  Z.of_nat (length (f <$> seqZ lo len)) = Z.max 0 len.
Proof. rewrite length_fmap, length_seqZ. lia. Qed.

Lemma fmap_seqZ_nonempty {B} (f : Z -> B) lo len :
  f <$> seqZ lo len <> [] -> 0 < len.
Proof.
  intros Hne. destruct (Z.lt_ge_cases 0 len); [done|].
  by rewrite seqZ_nil in Hne by lia.
Qed.

Lemma same_outside_stores_n lo hi d m off len vs :
  lo <= off -> off + len <= hi ->
  same_outside lo hi m (stores_n d m off len vs).
Proof.
  intros Hlo Hhi. unfold stores_n, stores.
  apply same_outside_stores_inc; [lia|].
  intros Hne%fmap_seqZ_nonempty. rewrite length_fmap_seqZ. lia.
Qed.

Lemma same_outside_stores_inc_n lo hi d m off inc len vs :
  0 <= inc -> lo <= off -> off + (len - 1) * inc < hi ->
  same_outside lo hi m (stores_inc_n d m off inc len vs).
Proof.
  intros Hinc Hlo Hhi. unfold stores_inc_n.
  apply same_outside_stores_inc; [done|].
  intros Hne%fmap_seqZ_nonempty. rewrite length_fmap_seqZ.
  split; [done|]. by replace (Z.max 0 len) with len by lia.
Qed.

Lemma same_outside_fill_n lo hi m off len v :
  lo <= off -> off + len <= hi -> same_outside lo hi m (fill_n m off len v).
Proof.
  intros Hlo Hhi. unfold fill_n, stores.
  apply same_outside_stores_inc; [lia|].
  intros Hne. rewrite length_replicate.
  destruct (Z.to_nat len) eqn:E; [done|]. lia.
Qed.

(** A loop keeps what each of its turns keeps. *)
Lemma for_invariant {S} (R : S -> S -> Prop) (f : S -> Z -> S) lo hi s :
  (forall s, R s s) -> (forall s1 s2 s3, R s1 s2 -> R s2 s3 -> R s1 s3) ->
  (forall s j, lo <= j < hi -> R s (f s j)) ->
  R s (for_ lo hi f s).
Proof.
  intros Hrefl Htrans Hstep. unfold for_.
  assert (Hl : forall j, j ∈ seqZ lo (hi - lo) -> lo <= j < hi).
  { intros j Hj. apply list_elem_of_lookup in Hj as [k Hk].
    apply lookup_seqZ in Hk. lia. }
  revert s Hl. generalize (seqZ lo (hi - lo)). intros l.
  induction l as [|j l IH]; intros s Hl; simpl; [done|].
  eapply Htrans; [apply Hstep, Hl; by left|].
  apply IH. intros j' Hj'. apply Hl. by right.
Qed.

Lemma same_outside_for_ lo hi (f : mem T -> Z -> mem T) lo' hi' m :
  (forall m j, lo' <= j < hi' -> same_outside lo hi m (f m j)) ->
  same_outside lo hi m (for_ lo' hi' f m).
Proof.
  intros Hstep.
  apply (for_invariant (same_outside lo hi));
    [apply same_outside_refl|apply same_outside_trans|done].
Qed.

Lemma same_outside_copy_n lo hi d (src : mem T) soff len m doff :
  lo <= doff -> doff + len <= hi ->
  same_outside lo hi m (copy_n d src soff len m doff).
Proof.
  intros Hlo Hhi. unfold copy_n.
  apply (same_outside_for_ lo hi
           (fun m j => store m (doff + j) (load d src (soff + j))) 0 len).
  intros m' j Hj. apply same_outside_store. lia.
Qed.

Lemma load_store_eq d m a v : load d (store m a v) a = v.
Proof. unfold load, store. by rewrite lookup_insert_eq. Qed.

Lemma load_store_ne d m a b v : a <> b -> load d (store m a v) b = load d m b.
Proof. intros Hab. unfold load, store. by rewrite lookup_insert_ne. Qed.

Lemma load_same_outside lo hi d m m' a :
  same_outside lo hi m m' -> a < lo \/ hi <= a -> load d m' a = load d m a.
Proof. intros H Ha. unfold load. by rewrite H. Qed.

(** ** Blocks: what the cells of a range hold *)


Lemma all_in_same_outside (P : T -> Prop) d m m' lo hi lo' hi' :
  all_in P d m lo hi -> same_outside lo' hi' m m' ->
  hi <= lo' \/ hi' <= lo -> all_in P d m' lo hi.
Proof.
  intros Hm Hsame Hdisj a Ha.
  rewrite (load_same_outside lo' hi' d m m') by (done || lia). by apply Hm.
Qed.

Lemma all_in_app (P : T -> Prop) d m lo mid hi :
  all_in P d m lo mid -> all_in P d m mid hi -> all_in P d m lo hi.
Proof.
  intros H1 H2 a Ha. destruct (Z.lt_ge_cases a mid); [apply H1|apply H2]; lia.
Qed.

Lemma all_in_loads (P : T -> Prop) d m off len :
  all_in P d m off (off + len) -> Forall P (loads d m off len).
Proof.
  intros Hm. unfold loads, loads_inc. apply Forall_fmap, Forall_forall.
  intros j Hj. apply list_elem_of_lookup in Hj as [k Hk].
  apply lookup_seqZ in Hk. simpl. apply Hm. lia.
Qed.



Lemma load_stores_inc_out d (vs : list T) :
  forall m off inc a,
  0 < inc -> a < off ->
  load d (stores_inc m off inc vs) a = load d m a.
Proof.
  induction vs as [|v vs IH]; intros m off inc a Hinc Ha; simpl; [done|].
  rewrite IH by lia. apply load_store_ne. lia.
Qed.

Lemma load_stores (d : T) (vs : list T) :
  forall m off (k : nat) v,
  vs !! k = Some v -> load d (stores m off vs) (off + Z.of_nat k) = v.
Proof.
  unfold stores.
  induction vs as [|v0 vs IH]; intros m off k v Hk; simpl; [done|].
  destruct k as [|k].
  - simpl in Hk. injection Hk as ->.
    rewrite Z.add_0_r, load_stores_inc_out by lia. apply load_store_eq.
  - replace (off + Z.of_nat (S k)) with (off + 1 + Z.of_nat k) by lia.
    by apply IH.
Qed.

Lemma loads_fill_n d m off len v :
  loads d (fill_n m off len v) off len = replicate (Z.to_nat len) v.
Proof.
  unfold loads, loads_inc, fill_n.
  apply list_eq. intros k.
  rewrite list_lookup_fmap.
  destruct (decide (Z.of_nat k < len)) as [Hlt|Hge].
  - rewrite lookup_seqZ_lt by done. simpl.
    rewrite Z.add_0_l, Z.mul_1_r.
    rewrite (load_stores d _ _ _ k v).
    + symmetry. apply lookup_replicate. split; [done|lia].
    + apply lookup_replicate. split; [done|lia].
  - rewrite lookup_seqZ_ge by lia. simpl. symmetry.
    apply lookup_ge_None. rewrite length_replicate. lia.
Qed.

Lemma all_in_fill_n (P : T -> Prop) d m off len v :
  P v -> all_in P d (fill_n m off len v) off (off + len).
Proof.
  intros Hv a Ha. unfold fill_n.
  replace a with (off + Z.of_nat (Z.to_nat (a - off))) by lia.
  rewrite (load_stores d _ _ _ _ v); [done|].
  apply lookup_replicate. split; [done|lia].
Qed.

Lemma same_outside_store_mat_gen lo hi d (m : mem T) off ld rows cols
    (A : list (list T)) :
  0 <= ld -> lo <= off -> off + (cols - 1) * ld + rows <= hi ->
  same_outside lo hi m
    (for_ 0 cols
       (fun m c => stores_n d m (off + c * ld) rows (nth (Z.to_nat c) A []))
       m).
Proof.
  intros Hld Hlo Hhi.
  apply (same_outside_for_ lo hi
           (fun m c => stores_n d m (off + c * ld) rows
                                (nth (Z.to_nat c) A [])) 0 cols).
  intros m' c Hc. apply same_outside_stores_n; nia.
Qed.

End Frames.

(** ** Blocks: what a write leaves in the cells it writes *)

Section Cells.
Context {T : Type}.
Implicit Types (m : mem T) (d : T).

Lemma for_snoc {St} (f : St -> Z -> St) lo hi (s : St) :
  lo <= hi -> for_ lo (hi + 1) f s = f (for_ lo hi f s) hi.
Proof.
  intros Hle. unfold for_.
  replace (hi + 1 - lo) with ((hi - lo) + 1) by lia.
  rewrite seqZ_app by lia. rewrite foldl_app. simpl.
  by replace (lo + (hi - lo)) with hi by lia.
Qed.

Lemma for_empty {St} (f : St -> Z -> St) lo hi (s : St) :
  hi <= lo -> for_ lo hi f s = s.
Proof. intros Hle. unfold for_. by rewrite seqZ_nil by lia. Qed.

(** Induction on the turns of a loop that starts at 0. *)
Lemma for_ind {St} (P : Z -> St -> Prop) (f : St -> Z -> St) n (s : St) :
  0 <= n -> P 0 s ->
  (forall j s', 0 <= j < n -> P j s' -> P (j + 1) (f s' j)) ->
  P n (for_ 0 n f s).
Proof.
  intros Hn H0 Hstep.
  assert (Hgen : forall k : nat, Z.of_nat k <= n ->
                   P (Z.of_nat k) (for_ 0 (Z.of_nat k) f s)).
  { induction k as [|k IH]; intros Hk.
    - by rewrite for_empty.
    - replace (Z.of_nat (S k)) with (Z.of_nat k + 1) by lia.
      rewrite for_snoc by lia. apply Hstep; [lia|]. apply IH. lia. }
  specialize (Hgen (Z.to_nat n)). rewrite Z2Nat.id in Hgen by done.
  apply Hgen. lia.
Qed.

Lemma lookup_stores_inc_before (vs : list T) :
  forall m off inc a,
  0 < inc -> a < off -> stores_inc m off inc vs !! a = m !! a.
Proof.
  induction vs as [|v vs IH]; intros m off inc a Hinc Ha; simpl; [done|].
  rewrite IH by lia. unfold store. apply lookup_insert_ne. lia.
Qed.

Lemma lookup_stores (vs : list T) :
  forall m off (k : nat) v,
  vs !! k = Some v -> stores m off vs !! (off + Z.of_nat k) = Some v.
Proof.
  unfold stores.
  induction vs as [|v0 vs IH]; intros m off k v Hk; simpl; [done|].
  destruct k as [|k].
  - simpl in Hk. injection Hk as ->.
    rewrite Z.add_0_r, lookup_stores_inc_before by lia.
    unfold store. apply lookup_insert_eq.
  - replace (off + Z.of_nat (S k)) with (off + 1 + Z.of_nat k) by lia.
    by apply IH.
Qed.

(** A cell that [stores_n] writes holds the value of its rank in the
    list, or [d] where the list is too short. *)
Lemma lookup_stores_n d m off len (vs : list T) j :
  0 <= j < len ->
  stores_n d m off len vs !! (off + j) = Some (nth (Z.to_nat j) vs d).
Proof.
  intros Hj. unfold stores_n.
  replace (off + j) with (off + Z.of_nat (Z.to_nat j)) by lia.
  apply lookup_stores. rewrite list_lookup_fmap.
  rewrite lookup_seqZ_lt by lia. simpl. do 3 f_equal. lia.
Qed.

Lemma lookup_stores_n_out d m off len (vs : list T) a :
  a < off \/ off + len <= a -> stores_n d m off len vs !! a = m !! a.
Proof.
  intros Ha. by apply (same_outside_stores_n off (off + len) d m off len vs).
Qed.

(** A cell that [copy_n] writes holds the cell of the source, where the
    source and the destination are two blocks. *)
Lemma lookup_copy_n d (src : mem T) soff len m doff j :
  0 <= j < len ->
  copy_n d src soff len m doff !! (doff + j) = Some (load d src (soff + j)).
Proof.
  intros Hj. unfold copy_n.
  assert (Hlen : 0 <= len) by lia.
  revert j Hj.
  apply (for_ind
           (fun k m' => forall j, 0 <= j < k ->
              m' !! (doff + j) = Some (load d src (soff + j)))
           (fun m j => store m (doff + j) (load d src (soff + j)))
           len m Hlen).
  - intros j Hj. lia.
  - intros k m' Hk IH j Hj. unfold store.
    destruct (decide (j = k)) as [->|Hne].
    + apply lookup_insert_eq.
    + rewrite lookup_insert_ne by lia. apply IH. lia.
Qed.

Lemma lookup_copy_n_out d (src : mem T) soff len m doff a :
  a < doff \/ doff + len <= a ->
  copy_n d src soff len m doff !! a = m !! a.
Proof.
  intros Ha.
  by apply (same_outside_copy_n doff (doff + len) d src soff len m doff).
Qed.

(** Copying what [stores_n] has written is writing it. *)
Lemma copy_n_stores_n d (tmp : mem T) len (vs : list T) m doff :
  copy_n d (stores_n d tmp 0 len vs) 0 len m doff = stores_n d m doff len vs.
Proof.
  apply map_eq. intros a.
  destruct (decide (doff <= a < doff + len)) as [Hin|Hout].
  - replace a with (doff + (a - doff)) by lia.
    rewrite lookup_copy_n, lookup_stores_n by lia.
    unfold load. replace (0 + (a - doff)) with (0 + (a - doff)) by lia.
    by rewrite (lookup_stores_n d tmp 0 len vs (a - doff)) by lia.
  - rewrite lookup_copy_n_out, lookup_stores_n_out by lia. done.
Qed.

Lemma loads_ext d m m' off len :
  (forall j, 0 <= j < len -> m !! (off + j) = m' !! (off + j)) ->
  loads d m off len = loads d m' off len.
Proof.
  intros Hext. unfold loads, loads_inc. apply list_eq. intros k.
  rewrite !list_lookup_fmap.
  destruct (decide (Z.of_nat k < len)) as [Hlt|Hge].
  - rewrite lookup_seqZ_lt by done. simpl. unfold load.
    rewrite Z.add_0_l, Z.mul_1_r. by rewrite Hext by lia.
  - by rewrite lookup_seqZ_ge by lia.
Qed.

End Cells.

(** ** The sub-domain solver: the three overloads of [solve] *)

Section SuiteSparse_solves.
Import SuiteSparse.
Context {K : Type} `{BK : Backends K}.

Ltac solve_cases s :=
  let Hc := fresh "Hc" in
  let HL := fresh "HL" in
  destruct (_c s) as [?|] eqn:Hc;
  [destruct (_L s) as [?|] eqn:HL, (_b s) as [?|], (_x s) as [?|];
   try destruct (cholmod_solve2 _ _ _ _ _ _) as [[? ?] ?]
  |try destruct (for_ 0 _ _ _) as [? ?]];
  cbn [fst snd _L _c _numeric _control _pattern _W];
  rewrite ?Hc, ?HL.

Lemma solve_same_factorization x s : same_factorization s (solve x s).2.
Proof. unfold solve, same_factorization. solve_cases s; by repeat split. Qed.

Lemma solve_n_same_factorization x n s :
  same_factorization s (solve_n x n s).2.
Proof. unfold solve_n, same_factorization. solve_cases s; by repeat split. Qed.

Lemma solve_to_same_factorization b x s :
  same_factorization s (solve_to b x s).2.
Proof. unfold solve_to, same_factorization. solve_cases s; by repeat split. Qed.

Lemma numfact_same_factorization A d s s' :
  same_factorization s s' -> holds s <> None ->
  holds s' = holds s /\ numfact A d s' = s'.
Proof.
  intros (_ & Hc & _ & _ & _ & HW) Hholds.
  assert (Heq : holds s' = holds s) by (unfold holds; by rewrite Hc, HW).
  split; [done|]. apply numfact_noop.
  revert Hholds. unfold holds. rewrite Hc, HW.
  destruct (_c s), (_W s); simpl; auto. done.
Qed.

(** X1. The three overloads of [solve] leave in the object the factors, the
    objects of CHOLMOD and of UMFPACK and the two members that [numfact]
    and [solve] test: an object that holds a factorization holds the same
    one after any of them, and [numfact] still does nothing on it. *)
Theorem solve_keeps_factorization (b x : mem K) (n : Z) (A : MatrixCSR K)
    (d : bool) (s : SuiteSparseSub K) :
  holds s <> None ->
  forall s', s' = (solve x s).2 \/ s' = (solve_n x n s).2 \/
             s' = (solve_to b x s).2 ->
  same_factorization s s' /\ holds s' = holds s /\ numfact A d s' = s'.
Proof.
  intros Hholds s' Hs'.
  assert (Hsame : same_factorization s s').
  { destruct Hs' as [->|[->| ->]];
      [apply solve_same_factorization|apply solve_n_same_factorization
      |apply solve_to_same_factorization]. }
  split; [done|]. by apply numfact_same_factorization.
Qed.

(** The LU path of [solve(x, n)], turn by turn: after [k] turns the first
    [k] columns hold the solutions of the columns that [x] held, and the
    other cells are those of [x]. *)
Lemma solve_n_LU_turns (x : mem K) n (s : SuiteSparseSub K) ld :
  0 <= n -> 0 <= ld ->
  let step := fun '(x', tmp) i =>
    let sol := umfpack_wsolve (_numeric s) (_control s)
                              (loads fresh x' (i * ld) ld) in
    let tmp := stores_n fresh tmp 0 ld sol in
    (copy_n fresh tmp 0 ld x' (i * ld), tmp) in
  forall tmp0,
  let r := for_ 0 n step (x, tmp0) in
  (forall i j, 0 <= i < n -> 0 <= j < ld ->
     r.1 !! (i * ld + j) =
     Some (nth (Z.to_nat j)
               (umfpack_wsolve (_numeric s) (_control s)
                               (loads fresh x (i * ld) ld)) fresh)) /\
  (forall a, a < 0 \/ n * ld <= a -> r.1 !! a = x !! a).
Proof.
  intros Hn Hld step tmp0.
  apply (for_ind
           (fun k (r : mem K * mem K) =>
              (forall i j, 0 <= i < k -> 0 <= j < ld ->
                 r.1 !! (i * ld + j) =
                 Some (nth (Z.to_nat j)
                           (umfpack_wsolve (_numeric s) (_control s)
                                           (loads fresh x (i * ld) ld))
                           fresh)) /\
              (forall a, a < 0 \/ k * ld <= a -> r.1 !! a = x !! a))
           step n (x, tmp0) Hn).
  - split; [intros; lia|done].
  - intros k [x' tmp] Hk [Hcols Hrest]. simpl in Hcols, Hrest.
    unfold step. cbn [fst].
    rewrite copy_n_stores_n.
    assert (Hcol : loads fresh x' (k * ld) ld = loads fresh x (k * ld) ld).
    { apply loads_ext. intros j Hj. apply Hrest. nia. }
    rewrite Hcol. split.
    + intros i j Hi Hj. destruct (decide (i = k)) as [->|Hne].
      * by rewrite lookup_stores_n.
      * rewrite lookup_stores_n_out by nia. apply Hcols; [lia|done].
    + intros a Ha. rewrite lookup_stores_n_out by nia. apply Hrest. nia.
Qed.

(** X2. On an object that holds no factorization, [solve(x)] and
    [solve(x, n)] copy [std::distance(_tmp, _W) = 0] cells: they leave [x]
    as it is. *)
Theorem solve_without_factorization (x : mem K) (n : Z)
    (s : SuiteSparseSub K) :
  null (_c s) = true -> null (_W s) = true -> 0 <= n ->
  (solve x s).1 = x /\ (solve_n x n s).1 = x.
Proof.
  intros Hc HW Hn. unfold solve, solve_n.
  destruct (_c s); [done|]. destruct (_W s); [done|]. simpl. split.
  - unfold copy_n. by rewrite for_empty.
  - match goal with
    | |- (let '(x', _) := for_ 0 n ?f ?init in _).1 = _ =>
        assert (Hloop : (for_ 0 n f init).1 = x)
    end.
    { apply (for_ind (fun _ (r : mem K * mem K) => r.1 = x)); [done|done|].
      intros j [x' tmp] Hj Hx'. simpl in Hx'. subst x'. simpl.
      unfold copy_n. by rewrite for_empty. }
    destruct (for_ 0 n _ _) as [x' tmp]. done.
Qed.

(** X3. [solve(x, 1)] leaves in [x] what [solve(x)] leaves there, on the path
    of CHOLMOD and on the path of UMFPACK. *)
Theorem solve_n_one (x : mem K) (s : SuiteSparseSub K) :
  (solve_n x 1 s).1 = (solve x s).1.
Proof.
  unfold solve_n, solve.
  destruct (_c s) as [c|].
  - destruct (_L s) as [L|], (_b s) as [b|], (_x s) as [xd|]; try done.
    cbn [dn_nrow]. rewrite !Z.mul_1_l.
    destruct (cholmod_solve2 _ _ _ _ _ _) as [[sol Y] E]. cbn [fst].
    by rewrite !copy_n_stores_n.
  - change (for_ 0 1 ?f ?init) with (f init 0). cbn beta iota.
    rewrite !Z.mul_0_l. done.
Qed.

(** X4. On the path of UMFPACK, [solve(x, n)] solves the columns one by one:
    column [i] of the result is what [umfpack_wsolve] gives for column [i]
    of [x], whatever the other columns hold, and no cell outside the [n]
    columns is written. *)
Theorem solve_n_by_columns (x : mem K) (n ld : Z) (s : SuiteSparseSub K) :
  _c s = None -> _W s = Some ld -> 0 <= n -> 0 <= ld ->
  (forall i j, 0 <= i < n -> 0 <= j < ld ->
     (solve_n x n s).1 !! (i * ld + j) =
     Some (nth (Z.to_nat j)
               (umfpack_wsolve (_numeric s) (_control s)
                               (loads fresh x (i * ld) ld)) fresh)) /\
  (forall a, a < 0 \/ n * ld <= a -> (solve_n x n s).1 !! a = x !! a).
Proof.
  intros Hc HW Hn Hld. unfold solve_n. rewrite Hc, HW. cbn [default].
  pose proof (solve_n_LU_turns x n s ld Hn Hld (default ∅ (_tmp s))) as Hturns.
  cbv zeta in Hturns.
  destruct (for_ 0 n _ _) as [x' tmp]. exact Hturns.
Qed.

(** X5. [solve(b, x)] with a right-hand side [b] that holds what [x] holds
    leaves in [x] what [solve(x)] leaves there. *)
Theorem solve_to_agrees (x : mem K) (s : SuiteSparseSub K) :
  (solve_to x x s).1 = (solve x s).1.
Proof.
  unfold solve_to, solve.
  destruct (_c s) as [c|].
  - destruct (_L s) as [L|], (_b s) as [b|], (_x s) as [xd|]; try done.
    destruct (cholmod_solve2 _ _ _ _ _ _) as [[sol Y] E]. cbn [fst].
    by rewrite copy_n_stores_n.
  - cbn [fst]. by rewrite copy_n_stores_n.
Qed.

End SuiteSparse_solves.

(** ** The sub-domain solver: the matrix handed to UMFPACK *)

Section SuiteSparse_expansion.
Import SuiteSparse.
Context {K : Type} `{BK : Backends K}.

Lemma insert_by_col_sorted (e : Z * K) row :
  StronglySorted by_column row -> StronglySorted by_column (insert_by_col e row).
Proof.
  induction 1 as [|e0 row Hrow IH Hall]; simpl.
  - constructor; [constructor|constructor].
  - destruct (Z.leb_spec (fst e0) (fst e)) as [Hle|Hgt].
    + constructor; [done|].
      apply Forall_forall. intros e1 He1.
      apply elem_of_insert_by_col in He1 as [->|He1]; [done|].
      by apply (proj1 (Forall_forall _ _) Hall).
    + constructor; [by constructor|].
      constructor; [unfold by_column; lia|].
      eapply Forall_impl; [exact Hall|]. unfold by_column. simpl.
      intros e1 He1. lia.
Qed.

Lemma insert_by_col_perm (e : Z * K) row : insert_by_col e row ≡ₚ e :: row.
Proof.
  induction row as [|e0 row IH]; simpl; [done|].
  destruct (fst e0 <=? fst e); [|done].
  rewrite IH. apply Permutation_swap.
Qed.

Lemma sort_row_sorted (row : list (Z * K)) :
  StronglySorted by_column (sort_row row).
Proof.
  unfold sort_row. induction row as [|e row IH]; simpl; [constructor|].
  by apply insert_by_col_sorted.
Qed.

Lemma sort_row_perm (row : list (Z * K)) : sort_row row ≡ₚ row.
Proof.
  unfold sort_row. induction row as [|e row IH]; simpl; [done|].
  by rewrite insert_by_col_perm, IH.
Qed.

(** X6. Every row that the LU path hands to UMFPACK for a symmetric matrix is
    in the order of the column indices, and holds the entries that the
    expansion has put in it, each as many times. *)
Theorem expansion_rows_sorted (A : MatrixCSR K) (r : nat)
    (row : list (Z * K)) :
  (sort_row <$> expand_rows A) !! r = Some row ->
  StronglySorted by_column row /\
  exists row0, expand_rows A !! r = Some row0 /\ row ≡ₚ row0.
Proof.
  rewrite list_lookup_fmap. intros Hrow.
  destruct (expand_rows A !! r) as [row0|]; [|done].
  simpl in Hrow. injection Hrow as <-.
  split; [apply sort_row_sorted|]. exists row0. split; [done|].
  apply sort_row_perm.
Qed.

Lemma expanded_symmetric (A : MatrixCSR K) r c a :
  0 <= c < _n A -> expanded A (_n A) r (c, a) -> expanded A (_n A) c (r, a).
Proof.
  intros Hc [Hr He|j Hr Hj Hab He|i j Hi Hj Hab Hja He].
  - injection He as -> ->. by apply expanded_diag.
  - injection He as -> ->. by apply (expanded_mirror _ _ _ _ r j).
  - injection He as -> ->. apply (expanded_kept _ _ _ _ j); try done.
    by rewrite Hja.
Qed.

(** X7. The matrix that the LU path hands to UMFPACK for a symmetric matrix
    is symmetric: row [r] holds the value [a] in column [c] only if row
    [c] holds [a] in column [r]. *)
Theorem expansion_is_symmetric (A : MatrixCSR K) (r c : Z) (a : K) :
  0 <= r < _n A -> 0 <= c < _n A ->
  in_row (sort_row <$> expand_rows A) r (c, a) ->
  in_row (sort_row <$> expand_rows A) c (r, a).
Proof.
  intros Hr Hc. rewrite !in_row_sort, !in_row_expand_rows by done.
  by apply expanded_symmetric.
Qed.

Lemma flatten_rows_snoc (v : list (list (Z * K))) row :
  flatten_rows (v ++ [row]) =
  let '(ia, ja, a) := flatten_rows v in
  (ia ++ [Z.of_nat (length ja + length row)],
   ja ++ (fst <$> row), a ++ (snd <$> row)).
Proof.
  unfold flatten_rows. rewrite foldl_app. simpl.
  by destruct (foldl _ _ v) as [[ia ja] a].
Qed.

(** The arrays that the last loop of the expansion fills, read back. *)
Lemma flatten_rows_layout (v : list (list (Z * K))) :
  let '(ia, ja, a) := flatten_rows v in
  length ia = S (length v) /\ length ja = length a /\
  ia !! O = Some 0 /\ ia !! length v = Some (Z.of_nat (length ja)) /\
  forall (r : nat) row, v !! r = Some row ->
    exists lo : nat,
      ia !! r = Some (Z.of_nat lo) /\
      ia !! S r = Some (Z.of_nat (lo + length row)) /\
      (lo + length row <= length ja)%nat /\
      take (length row) (drop lo ja) = fst <$> row /\
      take (length row) (drop lo a) = snd <$> row.
Proof.
  induction v as [|row' v IH] using rev_ind.
  { simpl. split_and!; try done. }
  rewrite flatten_rows_snoc. destruct (flatten_rows v) as [[ia ja] a].
  destruct IH as (Hia & Hja & H0 & Hlast & Hrows).
  rewrite !length_app, !length_fmap. simpl. split_and!.
  - lia.
  - lia.
  - rewrite lookup_app_l by lia. done.
  - rewrite lookup_app_r by lia.
    replace (length v + 1 - length ia)%nat with O by lia. done.
  - intros r row Hr.
    destruct (decide (r < length v)%nat) as [Hlt|Hge].
    + rewrite lookup_app_l in Hr by done.
      destruct (Hrows r row Hr) as (lo & Hlo & Hhi & Hle & Htj & Hta).
      exists lo. rewrite !lookup_app_l by lia. split_and!; try done.
      * lia.
      * rewrite drop_app_le by lia. rewrite take_app_le; [done|].
        rewrite length_drop. lia.
      * rewrite drop_app_le by lia. rewrite take_app_le; [done|].
        rewrite length_drop. lia.
    + assert (r = length v) as ->.
      { apply lookup_lt_Some in Hr. rewrite length_app in Hr. simpl in Hr.
        lia. }
      rewrite lookup_app_r in Hr by lia.
      replace (length v - length v)%nat with O in Hr by lia.
      injection Hr as ->.
      exists (length ja). split_and!.
      * by rewrite lookup_app_l by lia.
      * rewrite lookup_app_r by lia.
        replace (S (length v) - length ia)%nat with O by lia. done.
      * lia.
      * rewrite drop_app_length.
        rewrite <- (length_fmap fst row). apply firstn_all.
      * rewrite Hja, drop_app_length.
        rewrite <- (length_fmap snd row). apply firstn_all.
Qed.

(** X8. For a symmetric matrix the LU path hands to UMFPACK arrays in the
    compressed layout: [ia] has one more cell than there are rows, starts
    at 0 and ends at the count of entries, and the cells of [ja] and [a]
    from [ia[r]] up to [ia[r + 1]] are the sorted row [r] of the
    expansion. *)
Theorem umfpack_input_layout (A : MatrixCSR K) :
  _sym A = true ->
  let '(ia, ja, a) := umfpack_input A in
  let rows := sort_row <$> expand_rows A in
  length rows = Z.to_nat (_n A) /\
  length ia = S (length rows) /\ length ja = length a /\
  ia !! O = Some 0 /\ ia !! length rows = Some (Z.of_nat (length ja)) /\
  forall (r : nat) row, rows !! r = Some row ->
    exists lo : nat,
      ia !! r = Some (Z.of_nat lo) /\
      ia !! S r = Some (Z.of_nat (lo + length row)) /\
      take (length row) (drop lo ja) = fst <$> row /\
      take (length row) (drop lo a) = snd <$> row.
Proof.
  intros Hsym. unfold umfpack_input. rewrite Hsym. simpl.
  pose proof (flatten_rows_layout (sort_row <$> expand_rows A)) as Hlay.
  destruct (flatten_rows _) as [[ia ja] a].
  destruct Hlay as (Hia & Hja & H0 & Hlast & Hrows).
  split_and!; try done.
  - rewrite length_fmap. unfold expand_rows.
    rewrite (length_for_ _ length) by (intros; apply length_expand_row).
    apply length_replicate.
  - intros r row Hr.
    destruct (Hrows r row Hr) as (lo & ? & ? & _ & ? & ?). by exists lo.
Qed.

End SuiteSparse_expansion.

(** ** Computations that call the outside *)

Section Krylov_facts.
Context {K U Env : Type} `{SC : Scalar K U} `{BL : !Blas K U}.
Context `{LP : !Lapack K}.
Context `{MP : !Mpi K U Env} `{OP : !Operator K U Env}.
Context `{HP : !Helpers K U Env}.

Local Abbreviation M := (@M K U Env).
Local Abbreviation Ev := (Event K U).

Lemma post_ret {A} (a : A) (Q : A -> list Ev -> Prop) :
  Q a [] -> post (mret a : M A) Q.
Proof. intros HQ e. exact HQ. Qed.

Lemma post_bind {A B} (m : M A) (f : A -> M B) (Q1 : A -> list Ev -> Prop)
    (Q : B -> list Ev -> Prop) :
  post m Q1 ->
  (forall a t1, Q1 a t1 -> post (f a) (fun b t2 => Q b (t1 ++ t2))) ->
  post (m ≫= f) Q.
Proof.
  intros Hm Hf e. unfold mbind, M_bind.
  specialize (Hm e). destruct (m e) as [[a e1] t1]. simpl in Hm.
  specialize (Hf a t1 Hm e1). destruct (f a e1) as [[b e2] t2]. exact Hf.
Qed.

Lemma post_conseq {A} (m : M A) (Q Q' : A -> list Ev -> Prop) :
  post m Q -> (forall a t, Q a t -> Q' a t) -> post m Q'.
Proof. intros Hm HQ e. apply HQ, Hm. Qed.

Lemma post_call {A} (f : Env -> A * Env) :
  post (call f : M A) (fun _ t => t = []).
Proof. intros e. unfold call. by destruct (f e). Qed.

Lemma post_emit (ev : Ev) : post (emit ev : M unit) (fun _ t => t = [ev]).
Proof. by intros e. Qed.

Lemma post_Allreduce_K (buf : mem K) off count ty :
  post (MPI_Allreduce_K buf off count ty)
       (fun buf' t =>
          t = [EvAllreduce_K count ty (loads K0 buf off count)] /\
          exists recv, buf' = stores_n K0 buf off count recv).
Proof.
  intros e. unfold MPI_Allreduce_K, mbind, M_bind, emit, call, mret, M_ret.
  destruct (allreduce_K _ _ _ e) as [recv e']. simpl. eauto.
Qed.

Lemma post_Allreduce_U (buf : mem U) off count ty :
  post (MPI_Allreduce_U buf off count ty)
       (fun buf' t =>
          t = [EvAllreduce_U count ty (loads U0 buf off count)] /\
          exists recv, buf' = stores_n U0 buf off count recv).
Proof.
  intros e. unfold MPI_Allreduce_U, mbind, M_bind, emit, call, mret, M_ret.
  destruct (allreduce_U _ _ _ e) as [recv e']. simpl. eauto.
Qed.

(** A loop whose body calls the outside: [Inv k s t] holds of the state and
    of the events after [k] turns. *)
Lemma post_foldlM {St} (body : St -> Z -> M St) (l : list Z)
    (Inv : nat -> St -> list Ev -> Prop) :
  forall s t0 k0,
  Inv k0 s t0 ->
  (forall k s t j, l !! k = Some j -> Inv (k0 + k)%nat s t ->
     post (body s j) (fun s' t' => Inv (S (k0 + k)%nat) s' (t ++ t'))) ->
  post (foldlM body l s)
       (fun s' t => Inv (k0 + length l)%nat s' (t0 ++ t)).
Proof.
  induction l as [|j l IH]; intros s t0 k0 H0 Hstep; simpl.
  - apply post_ret. by rewrite Nat.add_0_r, app_nil_r.
  - eapply post_bind.
    + apply (Hstep O s t0 j). { reflexivity. }
      rewrite Nat.add_0_r. exact H0.
    + intros s' t' Hs'. simpl in Hs'. rewrite Nat.add_0_r in Hs'.
      eapply post_conseq.
      * apply (IH s' (t0 ++ t') (S k0) Hs').
        intros k s'' t'' j' Hj' Hinv.
        replace (S k0 + k)%nat with (k0 + S k)%nat in * by lia.
        by apply Hstep.
      * intros s'' t'' Hinv. simpl in *.
        replace (k0 + S (length l))%nat with (S (k0 + length l))%nat by lia.
        rewrite app_assoc. exact Hinv.
Qed.

Lemma post_forM {St} (body : St -> Z -> M St) lo hi (s : St)
    (Inv : nat -> St -> list Ev -> Prop) :
  Inv O s [] ->
  (forall k s t, lo + Z.of_nat k < hi -> Inv k s t ->
     post (body s (lo + Z.of_nat k))
          (fun s' t' => Inv (S k) s' (t ++ t'))) ->
  post (forM lo hi body s) (fun s' t => Inv (Z.to_nat (hi - lo)) s' t).
Proof.
  intros H0 Hstep. unfold forM.
  eapply post_conseq.
  - apply (post_foldlM body (seqZ lo (hi - lo)) Inv s [] O H0).
    intros k s' t j Hj Hinv. apply lookup_seqZ in Hj as [-> Hk].
    apply Hstep; [lia|done].
  - intros s' t. simpl. by rewrite length_seqZ.
Qed.

(** ** The kernels write one column *)

Implicit Types (k : @KrylovMem K U).

(** Linear arithmetic once the products of the indices are known to grow
    with their factors. *)
Ltac index_arith :=
  repeat match goal with
         | H : context [?f ?i] |- _ =>
             match type of (f i) with Z => is_var f; generalize dependent (f i); intros end
         | |- context [?f ?i] =>
             match type of (f i) with Z => is_var f; generalize (f i); intros end
         end;
  nia.

Ltac post_call_step :=
  eapply post_bind; [apply post_call|]; intros ? ? ->.

Ltac post_reduce_step h :=
  eapply post_bind;
  [first [apply post_Allreduce_K|apply post_Allreduce_U]|];
  intros h ? [-> [? ->]].

Lemma column_frame_refl H i w ps k : column_frame H i w ps k k.
Proof. split_and!; apply same_outside_refl. Qed.

Lemma column_frame_trans H i w ps k1 k2 k3 :
  column_frame H i w ps k1 k2 -> column_frame H i w ps k2 k3 ->
  column_frame H i w ps k1 k3.
Proof.
  intros (?&?&?) (?&?&?).
  split_and!; eapply same_outside_trans; eassumption.
Qed.

Lemma column_frame_eq H i w ps k k' :
  mH k' = mH k -> msn k' = msn k -> mtau k' = mtau k ->
  column_frame H i w ps k k'.
Proof.
  intros E1 E2 E3. unfold column_frame. rewrite E1, E2, E3.
  split_and!; apply same_outside_refl.
Qed.

Lemma column_frame_H H i w ps k h :
  same_outside (H i) (H i + w) (mH k) h ->
  column_frame H i w ps k (with_H k h).
Proof. intros Hh. split_and!; [done|apply same_outside_refl..]. Qed.

Lemma column_frame_sn H i w ps k sn :
  same_outside (i * ps) ((i + 1) * ps) (msn k) sn ->
  column_frame H i w ps k (with_sn k sn).
Proof. intros Hh. split_and!; [apply same_outside_refl|done|apply same_outside_refl]. Qed.

Lemma column_frame_tau H i w ps k tau :
  same_outside (i * ps) ((i + 1) * ps) (mtau k) tau ->
  column_frame H i w ps k (with_tau k tau).
Proof. intros Hh. split_and!; [apply same_outside_refl..|done]. Qed.

(** The operator and the preconditioner write [v] and [Ax] only, and show
    no event. *)
Lemma apply_operator_frame excluded variant m v n i mu H w ps k :
  post (apply_operator excluded variant m v n i mu k)
       (fun k' t => t = [] /\ column_frame H i w ps k k').
Proof.
  unfold apply_operator.
  destruct (Ascii.eqb variant "L").
  - eapply (post_bind _ _ (fun k1 t => t = [] /\ column_frame H i w ps k k1)).
    + destruct excluded; simpl.
      * apply post_ret. split; [done|apply column_frame_refl].
      * post_call_step. apply post_ret. split; [done|].
        by apply column_frame_eq.
    + intros k1 ? [-> Hk1]. post_call_step. destruct a as [out wk].
      apply post_ret. split; [done|].
      eapply column_frame_trans; [done|]. by apply column_frame_eq.
  - post_call_step. destruct a as [out work].
    destruct (Ascii.eqb variant "F"), excluded; simpl.
    + apply post_ret. split; [done|]. by apply column_frame_eq.
    + post_call_step. apply post_ret. split; [done|].
      by apply column_frame_eq.
    + apply post_ret. split; [done|]. by apply column_frame_eq.
    + post_call_step. apply post_ret. split; [done|].
      by apply column_frame_eq.
Qed.

Lemma reductions_app (t1 t2 : list Ev) :
  reductions (t1 ++ t2) = reductions t1 ++ reductions t2.
Proof. apply omap_app. Qed.

(** A rank that holds no unknown: the frame, the reductions, the zeros. *)
Lemma Arnoldi_excluded_spec gs H i mu k :
  0 <= i -> 0 <= mu ->
  post (Arnoldi_excluded gs H i mu k)
       (fun k' t => column_frame H i ((i + 2) * mu) mu k k' /\
                    reductions t = Arnoldi_reductions gs i mu /\
                    Forall sends_zeros t).
Proof.
  intros Hi Hmu. unfold Arnoldi_excluded, Arnoldi_reductions.
  set (h0 := fill_n (mH k) (H i) (mu * (i + 1)) K0).
  assert (Hh0 : same_outside (H i) (H i + (i + 2) * mu) (mH k) h0).
  { apply same_outside_fill_n; index_arith. }
  assert (Hz0 : all_in (fun a => a = K0) K0 h0 (H i) (H i + mu * (i + 1))).
  { by apply all_in_fill_n. }
  eapply (post_bind _ _
            (fun h t => same_outside (H i) (H i + (i + 2) * mu) (mH k) h /\
                        reductions t =
                          (if gs =? 1
                           then replicate (Z.to_nat (i + 1)) (mu, mpi_type)
                           else [(mu * (i + 1), mpi_type)]) /\
                        Forall sends_zeros t)).
  - simpl. destruct (gs =? 1).
    + eapply post_conseq.
      * apply (post_forM _ 0 (i + 1) h0
                 (fun n h t =>
                    same_outside (H i) (H i + (i + 2) * mu) (mH k) h /\
                    reductions t = replicate n (mu, mpi_type) /\
                    Forall sends_zeros t /\
                    all_in (fun a => a = K0) K0 h
                           (H i + mu * Z.of_nat n) (H i + mu * (i + 1)))).
        { split_and!; [done|done|done|].
          intros a Ha. apply Hz0. lia. }
        intros n h t Hn (Hf & Hr & Hs & Hz).
        eapply post_conseq; [apply post_Allreduce_K|].
        intros h' t' [-> [recv ->]]. simpl.
        assert (Hst : same_outside (H i + mu * (0 + Z.of_nat n))
                        (H i + mu * (0 + Z.of_nat n) + mu) h
                        (stores_n K0 h (H i + mu * (0 + Z.of_nat n)) mu recv)).
        { apply same_outside_stores_n; lia. }
        split_and!.
        -- eapply same_outside_trans; [done|].
           eapply same_outside_weaken; [| |exact Hst]; index_arith.
        -- rewrite reductions_app, Hr. simpl. by rewrite replicate_cons_app.
        -- apply Forall_app. split; [done|]. apply Forall_singleton. simpl.
           apply all_in_loads. intros a Ha. apply Hz. index_arith.
        -- eapply all_in_same_outside; [|exact Hst|lia].
           intros a Ha. apply Hz. index_arith.
      * intros h t (Hf & Hr & Hs & _). rewrite Z.sub_0_r in Hr. done.
    + eapply post_conseq; [apply post_Allreduce_K|].
      intros h' t' [-> [recv ->]]. simpl. split_and!.
      * eapply same_outside_trans; [done|].
        apply same_outside_stores_n; index_arith.
      * done.
      * apply Forall_singleton. simpl. unfold h0.
        rewrite loads_fill_n. by apply Forall_replicate.
  - intros h t (Hf & Hr & Hs). simpl.
    post_reduce_step snb. apply post_ret. split_and!.
    + split_and!; simpl.
      * eapply same_outside_trans; [done|].
        apply (same_outside_for_ (H i) (H i + (i + 2) * mu)
                 (fun h nu => store h (H i + (i + 1) * mu + nu) _) 0 mu).
        intros h' nu Hnu. apply same_outside_store.
        pose proof (Z.mul_nonneg_nonneg (i + 1) mu). lia.
      * eapply same_outside_trans; [|apply same_outside_stores_n; index_arith].
        apply same_outside_fill_n; index_arith.
      * apply same_outside_refl.
    + rewrite reductions_app, Hr. reflexivity.
    + apply Forall_app. split; [done|].
      apply Forall_app. split; [|done].
      apply Forall_singleton. simpl.
      rewrite loads_fill_n. apply Forall_replicate. by left.
Qed.

Lemma Arnoldi_cgs_step_spec H v n i mu k j :
  0 <= j <= i -> 0 <= mu ->
  post (Arnoldi_cgs_step H v n i mu k j)
       (fun k' t => column_frame H i ((i + 2) * mu) mu k k' /\
                    reductions t = [(mu, mpi_type)]).
Proof.
  intros Hj Hmu. unfold Arnoldi_cgs_step.
  set (h1 := for_ 0 mu _ (mH k)).
  assert (Hh1 : same_outside (H i) (H i + (i + 2) * mu) (mH k) h1).
  { apply (same_outside_for_ (H i) (H i + (i + 2) * mu)
             (fun h nu => store h (H i + j * mu + nu) _) 0 mu).
    intros h nu Hnu. apply same_outside_store.
    assert (0 <= j * mu <= i * mu) by nia. lia. }
  post_reduce_step h2. apply post_ret. split; [|done].
  split_and!; simpl; [|apply same_outside_refl..].
  eapply same_outside_trans; [exact Hh1|].
  eapply same_outside_trans; cycle 1.
  { apply (same_outside_for_ (H i) (H i + (i + 2) * mu)
             (fun h nu => store h (H i + (i + 1) * mu + nu) _) 0 mu).
    intros h nu Hnu. apply same_outside_store. index_arith. }
  apply same_outside_stores_n; index_arith.
Qed.

Lemma Arnoldi_mgs_spec gs H v n i mu k :
  0 <= i -> 0 <= mu ->
  post (Arnoldi_mgs gs H v n i mu k)
       (fun k' t => column_frame H i ((i + 2) * mu) mu k k' /\
                    reductions t = [(mu * (i + 1), mpi_type)]).
Proof.
  intros Hi Hmu. unfold Arnoldi_mgs.
  set (h1 := for_ 0 mu _ (mH k)).
  assert (Hh1 : same_outside (H i) (H i + (i + 2) * mu) (mH k) h1).
  { apply (same_outside_for_ (H i) (H i + (i + 2) * mu)
             (fun h nu => stores_inc_n K0 h (H i + nu) mu (i + 1) _) 0 mu).
    intros h nu Hnu. apply same_outside_stores_inc_n; index_arith. }
  post_reduce_step h2. apply post_ret. split.
  - split_and!; simpl; [|apply same_outside_refl..].
    eapply same_outside_trans; [exact Hh1|].
    apply same_outside_stores_n; index_arith.
  - simpl. by rewrite (Z.mul_comm (i + 1) mu).
Qed.

Lemma Arnoldi_included_spec gs m H v n i mu k :
  0 <= i -> 0 <= mu ->
  post (Arnoldi_included gs m H v n i mu k)
       (fun k' t => column_frame H i ((i + 2) * mu) mu k k' /\
                    reductions t = Arnoldi_reductions gs i mu).
Proof.
  intros Hi Hmu. unfold Arnoldi_included, Arnoldi_reductions.
  eapply (post_bind _ _
            (fun k1 t => column_frame H i ((i + 2) * mu) mu k k1 /\
                         reductions t =
                           (if gs =? 1
                            then replicate (Z.to_nat (i + 1)) (mu, mpi_type)
                            else [(mu * (i + 1), mpi_type)]))).
  - destruct (gs =? 1).
    + eapply post_conseq.
      * apply (post_forM _ 0 (i + 1) k
                 (fun c k1 t =>
                    column_frame H i ((i + 2) * mu) mu k k1 /\
                    reductions t = replicate c (mu, mpi_type))).
        { split; [apply column_frame_refl|done]. }
        intros c k1 t Hc (Hf & Hr).
        eapply post_conseq; [apply Arnoldi_cgs_step_spec; lia|].
        intros k2 t2 (Hf2 & Hr2). split.
        -- by eapply column_frame_trans.
        -- rewrite reductions_app, Hr, Hr2. by rewrite replicate_S_end.
      * intros k1 t (Hf & Hr). by rewrite Z.sub_0_r in Hr.
    + by apply Arnoldi_mgs_spec.
  - intros k1 t (Hf & Hr). simpl.
    post_reduce_step snb. apply post_ret. split.
    + eapply column_frame_trans; [exact Hf|].
      set (k2 := with_sn k1 _).
      assert (Hk2 : column_frame H i ((i + 2) * mu) mu k1 k2).
      { apply column_frame_sn.
        eapply same_outside_trans; [|apply same_outside_stores_n; index_arith].
        apply (same_outside_for_ (i * mu) ((i + 1) * mu)
                 (fun s nu => store s (i * mu + nu) _) 0 mu).
        intros s nu Hnu. apply same_outside_store. index_arith. }
      eapply column_frame_trans; [exact Hk2|].
      apply (for_invariant (column_frame H i ((i + 2) * mu) mu));
        [apply column_frame_refl|apply column_frame_trans|].
      intros k3 nu Hnu.
      assert (Hst : same_outside (H i) (H i + (i + 2) * mu) (mH k3)
                      (store (mH k3) (H i + (i + 1) * mu + nu)
                         (of_real (Usqrt (load U0 (msn k3) (i * mu + nu)))))).
      { apply same_outside_store.
        pose proof (Z.mul_nonneg_nonneg (i + 1) mu). lia. }
      destruct (i <? m - 1).
      * split_and!; simpl; [done|apply same_outside_refl..].
      * by apply column_frame_H.
    + rewrite reductions_app, Hr. reflexivity.
Qed.

Lemma Arnoldi_rotate_frame H i mu (s : mem U) (h : mem K) :
  0 <= i -> 0 <= mu ->
  same_outside (H i) (H i + (i + 2) * mu) h (Arnoldi_rotate H i mu s h).
Proof.
  intros Hi Hmu. unfold Arnoldi_rotate.
  apply (same_outside_for_ (H i) (H i + (i + 2) * mu) _ 0 i).
  intros h1 j Hj.
  apply (same_outside_for_ (H i) (H i + (i + 2) * mu) _ 0 mu).
  intros h2 nu Hnu.
  eapply same_outside_trans; apply same_outside_store; index_arith.
Qed.

Lemma Arnoldi_givens_frame H i mu k :
  0 <= i -> 0 <= mu ->
  column_frame H i ((i + 2) * mu) mu k (Arnoldi_givens H i mu k).
Proof.
  intros Hi Hmu. unfold Arnoldi_givens.
  apply (for_invariant (column_frame H i ((i + 2) * mu) mu));
    [apply column_frame_refl|apply column_frame_trans|].
  intros k1 nu Hnu. split_and!; simpl.
  - eapply same_outside_trans; apply same_outside_store; index_arith.
  - apply same_outside_store. index_arith.
  - apply same_outside_refl.
Qed.

(** One call of [Arnoldi]: the frame and the reductions; on a rank that
    holds no unknown, the zeros. *)
Lemma Arnoldi_spec excluded variant gs m H v n i mu save k :
  0 <= i -> 0 <= mu ->
  post (Arnoldi excluded variant gs m H v n i mu save k)
       (fun k' t => column_frame H i ((i + 2) * mu) mu k k' /\
                    reductions t = Arnoldi_reductions gs i mu /\
                    (excluded = true -> Forall sends_zeros t)).
Proof.
  intros Hi Hmu. unfold Arnoldi.
  eapply post_bind;
    [apply (apply_operator_frame _ _ _ _ _ _ _ H ((i + 2) * mu) mu)|].
  intros k1 t1 [-> Hk1].
  eapply (post_bind _ _
            (fun k2 t => column_frame H i ((i + 2) * mu) mu k1 k2 /\
                         reductions t = Arnoldi_reductions gs i mu /\
                         (excluded = true -> Forall sends_zeros t))).
  - destruct excluded.
    + eapply post_conseq; [by apply Arnoldi_excluded_spec|].
      intros k2 t (?&?&?). done.
    + eapply post_conseq; [by apply Arnoldi_included_spec|].
      intros k2 t (?&?). done.
  - intros k2 t2 (Hk2 & Hr2 & Hz2). apply post_ret.
    rewrite app_nil_r. simpl. split_and!; [|done|done].
    eapply column_frame_trans; [exact Hk1|].
    eapply column_frame_trans; [exact Hk2|].
    eapply column_frame_trans; [|by apply Arnoldi_givens_frame].
    set (k3 := match save with Some _ => _ | None => _ end).
    assert (Hk3 : column_frame H i ((i + 2) * mu) mu k2 k3).
    { unfold k3. destruct save; [by apply column_frame_eq|].
      apply column_frame_refl. }
    eapply column_frame_trans; [exact Hk3|].
    apply column_frame_H. by apply Arnoldi_rotate_frame.
Qed.

Lemma same_outside_store_mat lo hi (m : mem K) off ld rows cols A :
  0 <= ld -> lo <= off -> off + (cols - 1) * ld + rows <= hi ->
  same_outside lo hi m (store_mat m off ld rows cols A).
Proof. apply same_outside_store_mat_gen. Qed.

Lemma same_outside_omatcopy_N lo hi rows len (a : mem K) aoff lda
    (b : mem K) boff ldb :
  0 <= ldb -> lo <= boff -> boff + (rows - 1) * ldb + len <= hi ->
  same_outside lo hi b (omatcopy_N rows len a aoff lda b boff ldb).
Proof.
  intros Hld Hlo Hhi. unfold omatcopy_N.
  apply (same_outside_for_ lo hi
           (fun b c => copy_n K0 a (aoff + c * lda) len b (boff + c * ldb))
           0 rows).
  intros b' c Hc. apply same_outside_copy_n; nia.
Qed.

Lemma BlockArnoldi_cgs_step_frame H v m n i mu k j :
  0 <= j <= i -> i < m -> 0 <= mu ->
  post (BlockArnoldi_cgs_step H v (mu * (m + 1)) n i mu k j)
       (fun k' _ => column_frame H i (mu * (mu * (m + 1))) (2 * mu) k k').
Proof.
  intros Hj Him Hmu. unfold BlockArnoldi_cgs_step.
  post_reduce_step ax. apply post_ret.
  split_and!; simpl; [|apply same_outside_refl..].
  apply same_outside_omatcopy_N; [nia|index_arith|].
  assert (mu * j + mu <= mu * (m + 1)) by nia.
  assert ((mu - 1) * (mu * (m + 1)) + mu * (m + 1) = mu * (mu * (m + 1)))
    by ring.
  lia.
Qed.

Lemma BlockArnoldi_project_frame gs H v m n i mu k :
  0 <= i < m -> 0 <= mu ->
  post (BlockArnoldi_project gs H v (mu * (m + 1)) n i mu k)
       (fun k' _ => column_frame H i (mu * (mu * (m + 1))) (2 * mu) k k').
Proof.
  intros Hi Hmu. unfold BlockArnoldi_project.
  destruct (gs =? 1).
  - eapply post_conseq.
    + apply (post_forM _ 0 (i + 1) k
               (fun _ k1 _ =>
                  column_frame H i (mu * (mu * (m + 1))) (2 * mu) k k1)).
      { apply column_frame_refl. }
      intros c k1 t Hc Hf.
      eapply post_conseq; [apply BlockArnoldi_cgs_step_frame; lia|].
      intros k2 t2 Hf2. by eapply column_frame_trans.
    + done.
  - post_reduce_step ax. apply post_ret.
    split_and!; simpl; [|apply same_outside_refl..].
    apply same_outside_omatcopy_N; [nia|lia|].
    assert (mu * (i + 1) <= mu * (m + 1)) by nia.
    assert ((mu - 1) * (mu * (m + 1)) + mu * (m + 1) = mu * (mu * (m + 1)))
      by ring.
    lia.
Qed.

(** One call of [BlockArnoldi]: the frame. *)
Lemma BlockArnoldi_frame excluded variant gs m H v lwork n i mu save k :
  0 <= i < m -> 0 <= mu ->
  post (BlockArnoldi excluded variant gs m H v lwork n i mu save k)
       (fun k' _ => column_frame H i (mu * (mu * (m + 1))) (2 * mu) k k').
Proof.
  intros Hi Hmu. unfold BlockArnoldi.
  set (ldh := mu * (m + 1)).
  assert (Hldh : 0 <= ldh) by (unfold ldh; nia).
  assert (Hcol : (i + 2) * mu <= ldh) by (unfold ldh; nia).
  assert (Hsum : (mu - 1) * ldh + ldh = mu * ldh) by ring.
  eapply post_bind;
    [apply (apply_operator_frame _ _ _ _ _ _ _ H (mu * ldh) (2 * mu))|].
  intros k1 t1 [-> Hk1].
  eapply post_bind; [by apply BlockArnoldi_project_frame|].
  intros k2 t2 Hk2. fold ldh in Hk2.
  post_reduce_step ax.
  set (k3 := with_Ax k2 _).
  set (h3 := for_ 0 mu _ (mH k3)).
  assert (Hh3 : same_outside (H i) (H i + mu * ldh) (mH k2) h3).
  { unfold h3. simpl.
    apply (same_outside_for_ (H i) (H i + mu * ldh) _ 0 mu).
    intros h j Hj. apply same_outside_copy_n.
    - assert (0 <= (i + 1) * mu) by nia.
      assert (0 <= (mu - 1 - j) * ldh) by nia. lia.
    - assert ((mu - 1 - j) * ldh <= (mu - 1) * ldh) by nia. lia. }
  destruct (potrf _ _ _) as [R info].
  set (h4 := store_mat h3 _ _ _ _ R).
  assert (Hh4 : same_outside (H i) (H i + mu * ldh) (mH k2) h4).
  { eapply same_outside_trans; [exact Hh3|].
    apply same_outside_store_mat; [done|nia|lia]. }
  set (k4 := with_H k3 h4).
  assert (Hk4 : column_frame H i (mu * ldh) (2 * mu) k2 k4).
  { split_and!; simpl; [done|apply same_outside_refl..]. }
  set (k5 := match save with Some _ => _ | None => _ end).
  assert (Hk5 : column_frame H i (mu * ldh) (2 * mu) k4 k5).
  { unfold k5. destruct save; [by apply column_frame_eq|].
    apply column_frame_refl. }
  set (k6 := if i <? m - 1 then _ else k5).
  assert (Hk6 : column_frame H i (mu * ldh) (2 * mu) k5 k6).
  { unfold k6. destruct (i <? m - 1); [by apply column_frame_eq|].
    apply column_frame_refl. }
  set (k7 := for_ 0 i _ k6).
  assert (Hk7 : column_frame H i (mu * ldh) (2 * mu) k6 k7).
  { unfold k7.
    apply (for_invariant (column_frame H i (mu * ldh) (2 * mu)));
      [apply column_frame_refl|apply column_frame_trans|].
    intros k' leading Hl.
    destruct (mqr _ _ _ _ _ _ _ _ _) as [[C work] info'].
    split_and!; simpl; [|apply same_outside_refl..].
    apply same_outside_store_mat; [done|nia|].
    assert (leading * mu + 2 * mu <= ldh) by nia. lia. }
  destruct (geqrf _ _ _ _) as [[[A' tau'] work] info1].
  destruct (mqr _ _ _ _ _ _ _ _ _) as [[C work'] info2].
  apply post_ret.
  eapply column_frame_trans; [exact Hk1|].
  eapply column_frame_trans; [exact Hk2|].
  eapply column_frame_trans; [exact Hk4|].
  eapply column_frame_trans; [exact Hk5|].
  eapply column_frame_trans; [exact Hk6|].
  eapply column_frame_trans; [exact Hk7|].
  split_and!; simpl.
  - apply same_outside_store_mat; [done|nia|].
    assert (i * mu + 2 * mu <= ldh) by nia. lia.
  - apply same_outside_refl.
  - apply same_outside_stores_n; nia.
Qed.

(** ** The reductions of CG and of PCG *)

Lemma CG_init_reductions_spec excluded it n mu d (b x : mem K) :
  post (CG_init excluded it n mu d b x)
       (fun r t => reductions t = CG_init_reductions mu /\ cg_i r.1 = 0).
Proof.
  unfold CG_init.
  eapply post_bind; [apply post_emit|]. intros ? ? ->.
  post_call_step. destruct a0 as [allocate x']. simpl.
  eapply (post_bind _ _ (fun _ t => t = [])).
  { destruct excluded; simpl; [by apply post_ret|].
    post_call_step. by apply post_ret. }
  intros wk ? ->. post_call_step. destruct a0 as [out work].
  post_reduce_step res. by apply post_ret.
Qed.

Lemma CG_body_reductions_spec excluded tol it id0 id1 n mu d st :
  post (CG_body excluded tol it id0 id1 n mu d st)
       (fun r t => reductions t = CG_body_reductions id1 (cg_i st) mu /\
                   cg_i r.1 = cg_i st + 1).
Proof.
  unfold CG_body, CG_body_reductions.
  eapply (post_bind _ _
            (fun _ t => reductions t =
               if (id1 =? 2) && negb (cg_i st =? 0)
               then [(cg_i st * mu, mpi_underlying_type)] else [])).
  { destruct ((id1 =? 2) && negb (cg_i st =? 0)); [|by apply post_ret].
    post_reduce_step res.
    destruct (negb excluded && negb (n =? 0)); by apply post_ret. }
  intros [wk1 res1] t1 Ht1.
  eapply (post_bind _ _ (fun _ t => t = [])).
  { destruct excluded; simpl; [by apply post_ret|].
    post_call_step. by apply post_ret. }
  intros wk2 ? ->.
  eapply (post_bind _ _
            (fun _ t => reductions t =
               if negb (cg_i st =? 0)
               then [(cg_i st * mu, mpi_underlying_type)] else [])).
  { destruct (negb (cg_i st =? 0)); [|by apply post_ret].
    post_reduce_step res.
    destruct excluded; simpl; [by apply post_ret|].
    post_call_step. by apply post_ret. }
  intros [wk3 res3] t3 Ht3.
  post_reduce_step res4.
  destruct (for_ 0 mu _ (_, _)) as [x5 wk5].
  post_call_step. destruct a as [out work].
  post_reduce_step res6.
  apply post_ret. simpl. split; [|done].
  rewrite !reductions_app, Ht1, Ht3. reflexivity.
Qed.








Lemma PCG_allocateSingle_spec (h : gmap nat (mem K)) next :
  post (PCG_allocateSingle h next) (fun _ t => t = []).
Proof. unfold PCG_allocateSingle. post_call_step. by apply post_ret. Qed.

Lemma PCG_included_spec it n offset m st :
  post (PCG_included it n offset m st)
       (fun st' t => reductions t = PCG_body_reductions (pcg_i st) /\
                     pcg_i st' = pcg_i st).
Proof.
  unfold PCG_included, PCG_body_reductions.
  post_call_step. post_reduce_step alpha1.
  destruct (for_ 0 (pcg_i st - 1) _ (_, _)) as [alpha2 h2].
  post_call_step.
  eapply post_bind; [apply PCG_allocateSingle_spec|].
  intros [[h3 next3] zCurr3] ? ->.
  post_reduce_step alpha4. post_call_step. post_call_step.
  by apply post_ret.
Qed.

Lemma PCG_excluded_spec st :
  post (PCG_excluded st)
       (fun st' t => reductions t = PCG_body_reductions (pcg_i st) /\
                     pcg_i st' = pcg_i st /\ Forall sends_zeros t).
Proof.
  unfold PCG_excluded, PCG_body_reductions.
  post_call_step. post_reduce_step alpha1. post_reduce_step alpha2.
  post_call_step. apply post_ret. split_and!; [done|done|].
  cbn [app].
  apply Forall_cons; split; [|apply Forall_cons; split; [|done]].
  - cbn [sends_zeros]. rewrite loads_fill_n. by apply Forall_replicate.
  - cbn [sends_zeros]. rewrite loads_fill_n. by apply Forall_replicate.
Qed.


(** ** The loops *)

Lemma CG_body_counter excluded tol it id0 id1 n mu d st e :
  cg_i (CG_body excluded tol it id0 id1 n mu d st e).1.1.1 = cg_i st + 1.
Proof. apply (CG_body_reductions_spec excluded tol it id0 id1 n mu d st e). Qed.

(** The loop of CG from [i = turns]: it ends; it ends with [i] one less than
    the turns when it ends at the [break], and with [i = it] and as many
    turns otherwise. *)
Lemma CG_loop_spec excluded tol it id0 id1 n mu d :
  forall fuel turns st e,
  cg_i st = Z.of_nat turns -> 0 <= it ->
  (Z.to_nat (it - cg_i st) < fuel)%nat ->
  exists st' turns' e' t,
    CG_loop fuel excluded tol it id0 id1 n mu d turns st e
      = Some (st', turns', e', t) /\
    Z.of_nat turns' <= Z.max it (Z.of_nat turns) /\
    ((cg_i st' = Z.of_nat turns' - 1 /\ (turns < turns')%nat) \/
     (cg_i st' = Z.of_nat turns' /\ it <= Z.of_nat turns')).
Proof.
  induction fuel as [|fuel IH]; intros turns st e Hi Hit Hfuel; [lia|].
  simpl. destruct (Z.ltb_spec (cg_i st) it) as [Hlt|Hge].
  - unfold mbind, MO_bind, lift.
    pose proof (CG_body_counter excluded tol it id0 id1 n mu d st e) as Hc.
    destruct (CG_body excluded tol it id0 id1 n mu d st e)
      as [[[st1 found_none] e1] t1]. simpl in Hc.
    destruct found_none.
    + simpl. eexists _, _, _, _. split; [reflexivity|]. simpl.
      split; [lia|]. left. lia.
    + destruct (IH (S turns) st1 e1) as (st' & turns' & e' & t & -> & Hle & H);
        [lia|lia|lia|].
      eexists _, _, _, _. split; [reflexivity|].
      split; [lia|]. destruct H as [[? ?]|[? ?]]; [left|right]; lia.
  - eexists _, _, _, _. split; [reflexivity|]. split; [lia|]. right. lia.
Qed.

Lemma to_ushort_range z : 0 <= to_ushort z < 65536.
Proof. unfold to_ushort. apply Z.mod_pos_bound. lia. Qed.

Lemma to_ushort_small z : 0 <= z < 65536 -> to_ushort z = z.
Proof. intros. unfold to_ushort. by apply Z.mod_small. Qed.

(** CG returns: the value and the turns of a call that keeps the system. *)
Lemma CG_run_spec excluded opt (b x : mem K) mu e :
  let it := to_ushort (options 2 prefix opt).1.1.2 in
  exists ret x' turns e' t,
    CG_run excluded opt b x mu e = Some (ret, x', turns, e', t) /\
    Z.of_nat turns <= it /\
    ((ret = Z.of_nat turns - 1 /\ (0 < turns)%nat) \/
     (ret = Z.of_nat turns /\ Z.of_nat turns = it)).
Proof.
  unfold CG_run.
  destruct (options 2 prefix opt) as [[[tol it0] id0] id1]. cbn [fst snd].
  pose proof (to_ushort_range it0) as Hit.
  unfold mbind, MO_bind, lift.
  match goal with
  | |- context [CG_init ?ex ?it ?n ?mu ?d ?b ?x e] =>
      pose proof (CG_init_reductions_spec ex it n mu d b x e) as [_ Hi];
      destruct (CG_init ex it n mu d b x e) as [[[st allocate] e1] t1]
  end.
  simpl in Hi.
  match goal with
  | |- context [CG_loop ?f ?ex ?tol ?it ?id0 ?id1 ?n ?mu ?d O st e1] =>
      destruct (CG_loop_spec ex tol it id0 id1 n mu d f O st e1)
        as (st' & turns & e2 & t2 & -> & Hle & H); [by rewrite Hi|lia| |]
  end.
  { rewrite Hi. lia. }
  unfold CG_exit, mbind, M_bind, emit, call, mret, M_ret, MO_ret. simpl.
  assert (Hret : to_ushort (cg_i st') `min` to_ushort it0 = Z.of_nat turns - 1
                   /\ (0 < turns)%nat
                 \/ to_ushort (cg_i st') `min` to_ushort it0 = Z.of_nat turns
                   /\ Z.of_nat turns = to_ushort it0).
  { destruct H as [[Hc Hlt]|[Hc Hge]]; [left|right];
      rewrite Hc, to_ushort_small by lia; lia. }
  destruct is_complex; simpl;
    (eexists _, _, _, _, _; split; [reflexivity|]; split; [lia|exact Hret]).
Qed.

(** ** The claims on the kernels and on the reductions *)

(** C7: the step [i] of [Arnoldi] and of [BlockArnoldi] writes, in [H], in
    the rotations [sn] and in the reflectors [tau], only the cells of
    column [H i] and of step [i].  Where the columns do not overlap, every
    cell of a column [H j] with [j < i] and every cell of the rotations or
    reflectors of a step [j < i] holds after the step what it held
    before. *)
Theorem kernels_write_newest_column excluded variant gs m H v lwork n i mu
    save k e :
  0 <= i < m -> 0 <= mu ->
  let ka := (Arnoldi excluded variant gs m H v n i mu save k e).1.1 in
  let kb := (BlockArnoldi excluded variant gs m H v lwork n i mu save k e).1.1
  in
  let ldh := mu * (m + 1) in
  (column_frame H i ((i + 2) * mu) mu k ka /\
   forall j c, 0 <= j < i ->
     (H j + (j + 2) * mu <= H i \/ H i + (i + 2) * mu <= H j ->
      H j <= c < H j + (j + 2) * mu -> mH ka !! c = mH k !! c) /\
     (j * mu <= c < (j + 1) * mu -> msn ka !! c = msn k !! c)) /\
  (column_frame H i (mu * ldh) (2 * mu) k kb /\
   forall j c, 0 <= j < i ->
     (H j + mu * ldh <= H i \/ H i + mu * ldh <= H j ->
      H j <= c < H j + mu * ldh -> mH kb !! c = mH k !! c) /\
     (j * (2 * mu) <= c < (j + 1) * (2 * mu) -> mtau kb !! c = mtau k !! c)).
Proof.
  intros Hi Hmu ka kb ldh.
  destruct (Arnoldi_spec excluded variant gs m H v n i mu save k
              ltac:(lia) Hmu e) as [Ha _].
  pose proof (BlockArnoldi_frame excluded variant gs m H v lwork n i mu save
                k Hi Hmu e) as Hb.
  fold ka in Ha. fold kb ldh in Hb.
  split; (split; [done|]); intros j c Hj.
  - destruct Ha as (HH & Hsn & _). split.
    + intros Hdis Hc. apply HH. lia.
    + intros Hc. apply Hsn. nia.
  - destruct Hb as (HH & _ & Htau). split.
    + intros Hdis Hc. apply HH. lia.
    + intros Hc. apply Htau. nia.
Qed.


(** C2: with [prefix + "schwarz_method"] in {0, 1, 4} or
    [prefix + "schwarz_coarse_correction"] equal to 0 in the configuration,
    CG and BCG are the call of [GMRES<excluded>(A, b, x, mu, comm)]: they
    return its value and its [x], change the outside as it does, and leave
    no event of their own (no [start], no reduction, no turn of the loop). *)
Theorem redirected_to_GMRES fuel excluded opt (b x : mem K) mu e :
  any_of opt (prefix +:+ "schwarz_method") [0; 1; 4] = true \/
  any_of opt (prefix +:+ "schwarz_coarse_correction") [0] = true ->
  CG excluded opt b x mu e = Some (GMRES excluded opt b x mu e) /\
  BCG fuel excluded opt b x mu e = Some (GMRES excluded opt b x mu e).
Proof.
  intros Hopt.
  assert (Hred : redirected opt = true).
  { unfold redirected. apply orb_true_iff. exact Hopt. }
  unfold CG, BCG. rewrite Hred. done.
Qed.

(** ** The way from BCG to CG *)

Lemma CG_returns excluded opt (b x : mem K) mu e :
  exists r, CG excluded opt b x mu e = Some r.
Proof.
  unfold CG. destruct (redirected opt); [by eexists|].
  destruct (CG_run_spec excluded opt b x mu e)
    as (ret & x' & turns & e' & t & Hrun & _).
  unfold mbind, MO_bind. rewrite Hrun. by eexists.
Qed.

Lemma BCG_fall_back_spec excluded opt (b : mem K) mu allocate with_norm x e :
  exists ret x' e' t,
    CG excluded opt b x mu (end_ allocate e) = Some (ret, x', e', t) /\
    BCG_fall_back excluded opt b mu allocate with_norm x e
      = Some (ret, x', e',
              (if with_norm then [EvDelete "norm"] else [])
                ++ [EvDelete "trash"; EvEnd allocate] ++ t).
Proof.
  destruct (CG_returns excluded opt b x mu (end_ allocate e))
    as ([[[ret x'] e'] t] & HCG).
  exists ret, x', e', t. split; [done|].
  unfold BCG_fall_back, mbind, MO_bind, lift, emit, call, mret, M_ret.
  destruct with_norm; simpl; by rewrite HCG.
Qed.

(** A turn of BCG that is abandoned ends in CG. *)
Lemma BCG_loop_abandon fuel excluded opt (b : mem K) tol m0 m1 id0 id1 n mu d
    allocate turns st e st' e1 t1 :
  bcg_i st <= m0 ->
  BCG_body excluded tol m1 id0 id1 n mu d st e = (BCG_abandon st', e1, t1) ->
  falls_back_to_CG excluded opt b mu allocate true (bcg_x st') e1 t1
    (BCG_loop (S fuel) excluded opt b tol m0 m1 id0 id1 n mu d allocate
              turns st e).
Proof.
  intros Hi Hbody.
  destruct (BCG_fall_back_spec excluded opt b mu allocate true (bcg_x st') e1)
    as (ret & x' & e' & t & HCG & Hfb).
  exists ret, x', (S turns), e', t. split; [done|].
  simpl. destruct (Z.leb_spec (bcg_i st) m0); [|lia].
  unfold mbind, MO_bind, lift. rewrite Hbody.
  unfold mbind, MO_bind. rewrite Hfb.
  unfold mret, MO_ret. by rewrite app_nil_r.
Qed.

(** C1: where the first [QR] of BCG, or in a turn of its loop the solve of
    the block system ([ppsv]), the solve for the coefficients ([posv]) or
    the [QR] of the new directions gives an [info] that is not zero, BCG
    frees its blocks, ends the scope of the operator, and its value and its
    [x] are those of [CG<excluded>(A, b, x, mu, comm)] on the [x] it holds;
    that call returns. *)
Theorem BCG_falls_back_on_breakdown (fuel : nat) (excluded : bool)
    (opt : Option_) (b : mem K) (mu : Z) (e : Env) tol max_it id0 id1 :
  options 3 prefix opt = (tol, max_it, id0, id1) ->
  let m0 := to_ushort max_it in
  let m1 := to_ushort (val opt (prefix +:+ "enlarge_krylov_subspace") 1) in
  let n : Z := if excluded then 0 else getDof in
  let d : option (list U) := (fun m => loads U0 m 0 n) <$> getScaling in
  (forall x wk x1 allocate info e1 t1,
     BCG_init excluded id1 n mu d b x e = (wk, x1, allocate, info, e1, t1) ->
     info <> 0 ->
     falls_back_to_CG excluded opt b mu allocate false x1 e1 t1
       (BCG_run fuel excluded opt b x mu e)) /\
  (forall allocate turns st,
     bcg_i st <= m0 ->
     let loop := BCG_loop (S fuel) excluded opt b tol m0 m1 id0 id1 n mu d
                          allocate turns st e in
     (forall info wk e1 t1,
        BCG_block_system excluded n mu d (bcg_wk st) e = (info, wk, e1, t1) ->
        info <> 0 ->
        falls_back_to_CG excluded opt b mu allocate true (bcg_x st) e1 t1
          loop) /\
     (forall wk e1 t1 x2 wk2 count e2 t2,
        BCG_block_system excluded n mu d (bcg_wk st) e = (0, wk, e1, t1) ->
        BCG_advance excluded tol m1 id0 n mu (bcg_i st) d (bcg_norm st)
                    (bcg_x st) wk e1 = (x2, wk2, count, e2, t2) ->
        mu <> count ->
        (forall info wk3,
           BCG_coefficients n mu wk2 = (info, wk3) -> info <> 0 ->
           falls_back_to_CG excluded opt b mu allocate true x2 e2 (t1 ++ t2)
             loop) /\
        (forall wk3 info wk4 e4 t4,
           BCG_coefficients n mu wk2 = (0, wk3) ->
           BCG_new_direction excluded id1 n mu d wk3 e2 = (info, wk4, e4, t4)
           -> info <> 0 ->
           falls_back_to_CG excluded opt b mu allocate true x2 e4
             (t1 ++ t2 ++ t4) loop))).
Proof.
  intros Hopt. split.
  - intros x wk x1 allocate info e1 t1 Hinit Hinfo.
    destruct (BCG_fall_back_spec excluded opt b mu allocate false x1 e1)
      as (ret & x' & e' & t & HCG & Hfb).
    exists ret, x', O, e', t. split; [done|].
    unfold BCG_run. rewrite Hopt. unfold mbind at 1, MO_bind at 1, lift.
    rewrite Hinit.
    destruct (Z.eqb_spec info 0) as [|_]; [done|]. cbn [negb].
    unfold mbind, MO_bind. rewrite Hfb. unfold mret, MO_ret.
    by rewrite app_nil_r.
  - intros allocate turns st Hi loop. split; [|intros wk e1 t1 x2 wk2 count e2
      t2 Hsys Hadv Hcount; split].
    + intros info wk e1 t1 Hsys Hinfo.
      eapply BCG_loop_abandon with (st' := {| bcg_x := bcg_x st |});
        [done|].
      unfold BCG_body, mbind at 1, M_bind at 1. rewrite Hsys.
      destruct (Z.eqb_spec info 0) as [|_]; [done|]. simpl.
      by rewrite app_nil_r.
    + intros info wk3 Hco Hinfo.
      eapply BCG_loop_abandon with (st' := {| bcg_x := x2 |}); [done|].
      unfold BCG_body, mbind at 1, M_bind at 1. rewrite Hsys. simpl.
      unfold mbind at 1, M_bind at 1. rewrite Hadv.
      destruct (Z.eqb_spec mu count) as [|_]; [done|].
      rewrite Hco. destruct (Z.eqb_spec info 0) as [|_]; [done|]. simpl.
      by rewrite app_nil_r.
    + intros wk3 info wk4 e4 t4 Hco Hdir Hinfo.
      eapply BCG_loop_abandon with (st' := {| bcg_x := x2 |}); [done|].
      unfold BCG_body, mbind at 1, M_bind at 1. rewrite Hsys. simpl.
      unfold mbind at 1, M_bind at 1. rewrite Hadv.
      destruct (Z.eqb_spec mu count) as [|_]; [done|].
      rewrite Hco. simpl. unfold mbind at 1, M_bind at 1. rewrite Hdir.
      destruct (Z.eqb_spec info 0) as [|_]; [done|]. simpl.
      by rewrite app_nil_r.
Qed.

(** ** The values returned and the turns *)

(** C3: CG returns, after no more turns than the maximum [it] and with a
    value that is not above [it].  The value is the count of the turns only
    where the loop has run [it] turns without the [break]: where a turn
    ends at the [break], the code takes one from [i] before it leaves the
    loop, and the value is one less than the turns that were run. *)
Theorem CG_returns_turns_or_one_less excluded opt (b x : mem K) mu e :
  exists ret x' turns e' t,
    CG_run excluded opt b x mu e = Some (ret, x', turns, e', t) /\
    Z.of_nat turns <= to_ushort (options 2 prefix opt).1.1.2 /\
    ret <= to_ushort (options 2 prefix opt).1.1.2 /\
    ((ret = Z.of_nat turns - 1 /\ (0 < turns)%nat) \/
     (ret = Z.of_nat turns /\
      Z.of_nat turns = to_ushort (options 2 prefix opt).1.1.2)).
Proof.
  destruct (CG_run_spec excluded opt b x mu e)
    as (ret & x' & turns & e' & t & Hrun & Hle & H).
  exists ret, x', turns, e', t. split_and!; [done|done| |done]. lia.
Qed.



(** One turn of PCG ends at the [break] where the ratio of the norms is not
    above the tolerance, and leaves [i] as it is; it adds one to [i], an
    [unsigned short], where it does not. *)
Lemma PCG_body_counter excluded tol resInit it verbosity n offset m st :
  post (PCG_body excluded tol resInit it verbosity n offset m st)
       (fun r _ =>
          Uleb (Udiv (pcg_resRel r.1) resInit) tol = r.2 /\
          pcg_i r.1 = if r.2 then pcg_i st else to_ushort (pcg_i st + 1)).
Proof.
  unfold PCG_body.
  eapply (post_bind _ _ (fun st' _ => pcg_i st' = pcg_i st)).
  { destruct excluded; simpl.
    - eapply post_conseq; [apply PCG_excluded_spec|].
      intros st' t (?&?&?). done.
    - eapply post_conseq; [apply PCG_included_spec|].
      intros st' t (?&?). done. }
  intros st' t1 Hi. post_call_step.
  eapply (post_bind _ _ (fun _ _ => True)).
  { destruct (2 <? verbosity); [|by apply post_ret].
    eapply post_conseq; [apply post_emit|]. done. }
  intros _ t2 _.
  destruct (Uleb _ _) eqn:Hleb; [by apply post_ret|].
  destruct excluded; simpl.
  - apply post_ret. simpl. by rewrite Hi.
  - eapply post_bind; [apply PCG_allocateSingle_spec|].
    intros [[h3 next3] pCurr3] ? ->. apply post_ret. simpl. by rewrite Hi.
Qed.


(** C4: with the maximum 65535, the turn of PCG that starts with
    [i = 65535] and does not end at the [break] leaves [i = 0]: the
    condition [i <= it] of the loop holds again, and the loop goes on with
    the turn after the 65535 turns it has run. *)
Theorem PCG_counter_wraps fuel excluded tol resInit verbosity n offset m
    turns st e st' e1 t1 :
  pcg_i st = 65535 ->
  PCG_body excluded tol resInit 65535 verbosity n offset m st e
    = (st', false, e1, t1) ->
  pcg_i st' = 0 /\
  (pcg_i st' <=? 65535) = true /\
  PCG_loop (S fuel) excluded tol resInit 65535 verbosity n offset m turns st e
    = match PCG_loop fuel excluded tol resInit 65535 verbosity n offset m
                     (S turns) st' e1 with
      | Some (r, e2, t2) => Some (r, e2, t1 ++ t2)
      | None => None
      end.
Proof.
  intros Hi Hbody.
  pose proof (PCG_body_counter excluded tol resInit 65535 verbosity n offset m
                st e) as [_ Hc].
  rewrite Hbody in Hc. simpl in Hc. rewrite Hi in Hc.
  change (to_ushort (65535 + 1)) with 0 in Hc.
  split; [done|]. split; [by rewrite Hc|].
  simpl. rewrite Hi. change (65535 <=? 65535) with true. cbv iota.
  unfold mbind, MO_bind, lift. by rewrite Hbody.
Qed.

(** ** The verbosity of PCG *)

Lemma silent_app (t1 t2 : list Ev) : silent (t1 ++ t2) = silent t1 ++ silent t2.
Proof. apply filter_app. Qed.

(** One turn of PCG with two levels of verbosity: one result, one outside,
    and the same events but the line that is printed. *)
Lemma PCG_body_verbosity excluded tol resInit it v v' n offset m st e :
  let r := PCG_body excluded tol resInit it v n offset m st e in
  let r' := PCG_body excluded tol resInit it v' n offset m st e in
  r.1 = r'.1 /\ silent r.2 = silent r'.2.
Proof.
  unfold PCG_body, mbind, M_bind.
  destruct ((if negb excluded then PCG_included it n offset m st
             else PCG_excluded st) e) as [[st1 e1] t1].
  unfold call.
  destruct (computeDot excluded _ _ e1) as [resRel e2].
  assert (Hprint : forall w : Z,
            exists t, (if 2 <? w
                       then emit (EvPrint (pcg_i st1) (Usqrt resRel) resInit
                                    (Udiv (Usqrt resRel) resInit) tol)
                       else (mret tt : M unit)) e2 = (tt, e2, t) /\
                      silent t = []).
  { intros w. destruct (2 <? w); by eexists. }
  destruct (Hprint v) as (t & -> & Ht).
  destruct (Hprint v') as (t' & -> & Ht').
  cbv beta iota.
  match goal with
  | |- context [?body e2] =>
      match body with
      | (if Uleb _ _ then _ else _) => destruct (body e2) as [[r3 e3] t3]
      end
  end.
  simpl. split; [done|].
  by rewrite !silent_app, Ht, Ht'.
Qed.

Lemma PCG_loop_verbosity excluded tol resInit it v v' n offset m :
  forall fuel turns st e,
  same_but_prints
    (PCG_loop fuel excluded tol resInit it v n offset m turns st e)
    (PCG_loop fuel excluded tol resInit it v' n offset m turns st e).
Proof.
  induction fuel as [|fuel IH]; intros turns st e; [done|].
  simpl. destruct (pcg_i st <=? it); [|done].
  unfold mbind, MO_bind, lift.
  pose proof (PCG_body_verbosity excluded tol resInit it v v' n offset m st e)
    as [Hr Ht].
  destruct (PCG_body excluded tol resInit it v n offset m st e)
    as [[[st1 stop] e1] t1].
  destruct (PCG_body excluded tol resInit it v' n offset m st e)
    as [[[st1' stop'] e1'] t1'].
  simpl in Hr, Ht. injection Hr as <- <- <-.
  destruct stop.
  - simpl. by rewrite !silent_app, Ht.
  - specialize (IH (S turns) st1 e1). unfold same_but_prints in IH |- *.
    destruct (PCG_loop fuel excluded tol resInit it v n offset m (S turns)
                       st1 e1) as [[[r2 e2] t2]|];
      destruct (PCG_loop fuel excluded tol resInit it v' n offset m (S turns)
                         st1 e1) as [[[r2' e2'] t2']|]; try done.
    destruct IH as (-> & -> & Ht2). by rewrite !silent_app, Ht, Ht2.
Qed.

(** C9: two calls of PCG that differ in the verbosity of the configuration
    only return the same value and the same [x] after the same turns, leave
    the same outside, and hold the same values at the end of every turn;
    their events are the same but the lines that are printed and the report
    of [convergence]. *)
Theorem PCG_verbosity_is_observational fuel excluded opt opt' tol it v v' w w'
    (f x : mem K) e :
  options 6 prefix opt = (tol, it, v, w) ->
  options 6 prefix opt' = (tol, it, v', w') ->
  same_but_prints (PCG_run fuel excluded opt f x e)
                  (PCG_run fuel excluded opt' f x e) /\
  same_but_prints (PCG fuel excluded opt f x e)
                  (PCG fuel excluded opt' f x e) /\
  forall resInit n offset m st e1,
    let r := PCG_body excluded tol resInit (to_ushort it) v n offset m st e1 in
    let r' := PCG_body excluded tol resInit (to_ushort it) v' n offset m st e1
    in r.1 = r'.1 /\ silent r.2 = silent r'.2.
Proof.
  intros Hopt Hopt'.
  assert (Hrun : same_but_prints (PCG_run fuel excluded opt f x e)
                                 (PCG_run fuel excluded opt' f x e)).
  { unfold PCG_run. rewrite Hopt, Hopt'.
    unfold mbind at 1 4, MO_bind at 1 4, lift at 1 3.
    destruct (PCG_init excluded _ _ f x e) as [[[[st0 allocate] resInit] e0] t0].
    unfold mbind at 1 3, MO_bind at 1 3.
    match goal with
    | |- context [PCG_loop fuel excluded tol resInit ?it' v ?n ?off ?m O st0 e0]
      => pose proof (PCG_loop_verbosity excluded tol resInit it' v v' n off m
                       fuel O st0 e0) as Hloop;
         destruct (PCG_loop fuel excluded tol resInit it' v n off m O st0 e0)
           as [[[[st1 turns1] e1] t1]|];
         destruct (PCG_loop fuel excluded tol resInit it' v' n off m O st0 e0)
           as [[[[st1' turns1'] e1'] t1']|]; try done
    end.
    destruct Hloop as ([= <- <-] & <- & Ht1).
    unfold PCG_exit, mbind, MO_bind, M_bind, lift, emit, call, mret, MO_ret,
      M_ret.
    destruct (computeSolution excluded _ (pcg_x st1) e1) as [x2 e2].
    simpl. split_and!; [done|done|].
    rewrite !silent_app, Ht1. reflexivity. }
  split; [done|]. split.
  - unfold PCG, mbind, MO_bind. unfold same_but_prints in Hrun |- *.
    destruct (PCG_run fuel excluded opt f x e) as [[[[[ret1 x1] n1] e1] t1]|];
      destruct (PCG_run fuel excluded opt' f x e)
        as [[[[[ret1' x1'] n1'] e1'] t1']|]; try done.
    destruct Hrun as ([= <- <- <-] & <- & Ht). simpl.
    split_and!; [done|done|]. by rewrite !silent_app, Ht.
  - intros resInit n offset m st e1. apply PCG_body_verbosity.
Qed.

(** ** The calls return *)





End Krylov_facts.

(** * Further properties of the kernels and of the methods *)

Section Krylov_more.
Context {K U Env : Type} `{SC : Scalar K U} `{BL : !Blas K U}.
Context `{LP : !Lapack K}.
Context `{MP : !Mpi K U Env} `{OP : !Operator K U Env}.
Context `{HP : !Helpers K U Env}.

Local Abbreviation M := (@M K U Env).
Local Abbreviation Ev := (Event K U).
Implicit Types (k : @KrylovMem K U).

Ltac index_arith :=
  repeat match goal with
         | H : context [?f ?i] |- _ =>
             match type of (f i) with Z => is_var f; generalize dependent (f i); intros end
         | |- context [?f ?i] =>
             match type of (f i) with Z => is_var f; generalize (f i); intros end
         end;
  nia.

Ltac post_call_step :=
  eapply post_bind; [apply post_call|]; intros ? ? ->.

Ltac post_reduce_step h :=
  eapply post_bind;
  [first [apply post_Allreduce_K|apply post_Allreduce_U]|];
  intros h ? [-> [? ->]].

(** ** What the kernels leave alone besides [H] *)

Lemma written_in_refl {T} (cells : Z -> Prop) (m : mem T) :
  written_in cells m m.
Proof. by intros a _. Qed.

Lemma written_in_trans {T} (cells : Z -> Prop) (m1 m2 m3 : mem T) :
  written_in cells m1 m2 -> written_in cells m2 m3 -> written_in cells m1 m3.
Proof. intros H12 H23 a Ha. by rewrite H23, H12. Qed.

Lemma written_in_same_outside {T} (cells : Z -> Prop) lo hi (m m' : mem T) :
  (forall a, lo <= a < hi -> cells a) -> same_outside lo hi m m' ->
  written_in cells m m'.
Proof.
  intros Hin Hsame a Ha. apply Hsame.
  destruct (decide (lo <= a < hi)) as [Hyes|Hno]; [|lia].
  by destruct Ha; apply Hin.
Qed.

Section Rest.
Variables (variant : ascii) (m : Z) (v : Z -> Z) (n i mu s_hi : Z)
  (save : option (Z -> Z)) (width : Z).

Local Abbreviation rest := (rest_frame variant m v n i mu s_hi save width).

Lemma rest_frame_refl k : rest k k.
Proof.
  split_and!; [apply written_in_refl|apply same_outside_refl|].
  destruct save; [apply same_outside_refl|done].
Qed.

Lemma rest_frame_trans k1 k2 k3 : rest k1 k2 -> rest k2 k3 -> rest k1 k3.
Proof.
  intros (Hv1 & Hs1 & Hsv1) (Hv2 & Hs2 & Hsv2). split_and!.
  - by eapply written_in_trans.
  - by eapply same_outside_trans.
  - destruct save; [by eapply same_outside_trans|congruence].
Qed.

Lemma rest_frame_keep k k' :
  mv k' = mv k -> ms k' = ms k -> msave k' = msave k -> rest k k'.
Proof.
  intros Hv Hs Hsv. unfold rest_frame. rewrite Hv, Hs, Hsv.
  apply rest_frame_refl.
Qed.

(** A write in the vector [v[i + 1]]. *)
Lemma rest_frame_v k vv :
  same_outside (v (i + 1)) (v (i + 1) + mu * n) (mv k) vv ->
  rest k (with_v k vv).
Proof.
  intros Hvv. split_and!; simpl.
  - eapply written_in_same_outside; [|exact Hvv]. intros a Ha. by left.
  - apply same_outside_refl.
  - destruct save; [apply same_outside_refl|done].
Qed.

Lemma apply_operator_rest excluded k :
  post (apply_operator excluded variant m v n i mu k) (fun k' _ => rest k k').
Proof.
  unfold apply_operator.
  destruct (Ascii.eqb variant "L").
  - eapply (post_bind _ _ (fun k1 _ => rest k k1)).
    + destruct excluded; simpl; [apply post_ret, rest_frame_refl|].
      post_call_step. apply post_ret. by apply rest_frame_keep.
    + intros k1 ? Hk1. post_call_step. destruct a as [out wk].
      apply post_ret. eapply rest_frame_trans; [exact Hk1|].
      apply rest_frame_v, same_outside_stores_n; lia.
  - post_call_step. destruct a as [out work].
    set (k1 := with_v k _).
    assert (Hk1 : rest k k1).
    { apply rest_frame_v, same_outside_stores_n; lia. }
    destruct (Ascii.eqb_spec variant "F") as [HF|HF].
    + set (k2 := with_v k1 _).
      assert (Hk2 : rest k1 k2).
      { split_and!; simpl.
        - eapply written_in_same_outside;
            [|apply (same_outside_stores_n (v (i + m + 1))
                       (v (i + m + 1) + mu * n)); lia].
          intros a Ha. right. done.
        - apply same_outside_refl.
        - destruct save; [apply same_outside_refl|done]. }
      destruct excluded; simpl.
      * apply post_ret. by eapply rest_frame_trans.
      * post_call_step. apply post_ret.
        eapply rest_frame_trans; [exact Hk1|].
        eapply rest_frame_trans; [exact Hk2|].
        apply rest_frame_v, same_outside_stores_n; lia.
    + set (k2 := with_Ax k1 _).
      assert (Hk2 : rest k1 k2) by (by apply rest_frame_keep).
      destruct excluded; simpl.
      * apply post_ret. by eapply rest_frame_trans.
      * post_call_step. apply post_ret.
        eapply rest_frame_trans; [exact Hk1|].
        eapply rest_frame_trans; [exact Hk2|].
        apply rest_frame_v, same_outside_stores_n; lia.
Qed.

Lemma post_any {A} (c : M A) : post c (fun _ _ => True).
Proof. by intros e. Qed.

Lemma Arnoldi_excluded_rest gs H k :
  post (Arnoldi_excluded gs H i mu k) (fun k' _ => rest k k').
Proof.
  unfold Arnoldi_excluded.
  eapply post_bind; [apply post_any|]. intros h ? _. simpl.
  post_reduce_step snb. apply post_ret. by apply rest_frame_keep.
Qed.

Lemma Arnoldi_cgs_step_rest H k j :
  0 <= n -> post (Arnoldi_cgs_step H v n i mu k j) (fun k' _ => rest k k').
Proof.
  intros Hn. unfold Arnoldi_cgs_step.
  post_reduce_step h. apply post_ret.
  apply (rest_frame_trans _ (with_H k (for_ 0 mu
           (fun h nu => store h (H i + (i + 1) * mu + nu)
                          (Kopp (load K0 h (H i + j * mu + nu))))
           (stores_n K0 (for_ 0 mu
              (fun h nu => store h (H i + j * mu + nu)
                 (dot n (loads K0 (mv k) (v j + nu * n) n)
                        (loads K0 (mv k) (v (i + 1) + nu * n) n)))
              (mH k)) (H i + j * mu) mu x))));
    [by apply rest_frame_keep|].
  apply rest_frame_v. simpl.
  apply (same_outside_for_ (v (i + 1)) (v (i + 1) + mu * n) _ 0 mu).
  intros vv nu Hnu. apply same_outside_stores_n; nia.
Qed.

Lemma Arnoldi_mgs_rest gs H k :
  0 <= n -> post (Arnoldi_mgs gs H v n i mu k) (fun k' _ => rest k k').
Proof.
  intros Hn. unfold Arnoldi_mgs.
  post_reduce_step h. apply post_ret.
  match goal with
  | |- rest_frame _ _ _ _ _ _ _ _ _ k (with_v (with_H k ?h') ?vv) =>
      apply (rest_frame_trans _ (with_H k h'));
        [by apply rest_frame_keep|apply rest_frame_v; simpl]
  end.
  destruct (gs =? 0);
    apply (same_outside_for_ (v (i + 1)) (v (i + 1) + mu * n) _ 0 mu);
    intros vv nu Hnu; apply same_outside_stores_n; nia.
Qed.

Lemma Arnoldi_included_rest gs H k :
  0 <= n -> 0 <= i ->
  post (Arnoldi_included gs m H v n i mu k) (fun k' _ => rest k k').
Proof.
  intros Hn Hi. unfold Arnoldi_included.
  eapply (post_bind _ _ (fun k1 _ => rest k k1)).
  - destruct (gs =? 1); [|by apply Arnoldi_mgs_rest].
    eapply post_conseq.
    + apply (post_forM _ 0 (i + 1) k (fun _ k1 _ => rest k k1));
        [apply rest_frame_refl|].
      intros c k1 t Hc Hk1.
      eapply post_conseq; [by apply Arnoldi_cgs_step_rest|].
      intros k2 t2 Hk2. by eapply rest_frame_trans.
    + done.
  - intros k1 t Hk1. simpl. post_reduce_step snb. apply post_ret.
    eapply rest_frame_trans; [exact Hk1|].
    eapply (rest_frame_trans _ (with_sn k1 _));
      [by apply rest_frame_keep|].
    apply (for_invariant rest); [apply rest_frame_refl|apply rest_frame_trans|].
    intros k3 nu Hnu.
    destruct (i <? m - 1); [|by apply rest_frame_keep].
    match goal with
    | |- rest_frame _ _ _ _ _ _ _ _ _ k3 (with_v (with_H k3 ?h') ?vv) =>
        apply (rest_frame_trans _ (with_H k3 h'));
          [by apply rest_frame_keep|apply rest_frame_v; simpl]
    end.
    apply (same_outside_for_ (v (i + 1)) (v (i + 1) + mu * n) _
             (v (i + 1) + nu * n) (v (i + 1) + (nu + 1) * n)).
    intros vv a Ha. apply same_outside_store. nia.
Qed.

Lemma Arnoldi_givens_rest H k :
  0 <= mu -> (i + 2) * mu <= s_hi ->
  rest k (Arnoldi_givens H i mu k).
Proof.
  intros Hmu Hs. unfold Arnoldi_givens.
  apply (for_invariant rest); [apply rest_frame_refl|apply rest_frame_trans|].
  intros k1 nu Hnu. split_and!; simpl.
  - apply written_in_refl.
  - eapply same_outside_trans; apply same_outside_store; nia.
  - destruct save; [apply same_outside_refl|done].
Qed.

(** One call of [Arnoldi]: what it leaves alone besides [H]. *)
Lemma Arnoldi_rest excluded gs H k :
  0 <= n -> 0 <= i -> 0 <= mu -> (i + 2) * mu <= s_hi ->
  (i + 2) * mu <= width ->
  post (Arnoldi excluded variant gs m H v n i mu save k)
       (fun k' _ => rest k k').
Proof.
  intros Hn Hi Hmu Hs Hw. unfold Arnoldi.
  eapply post_bind; [apply apply_operator_rest|]. intros k1 t1 Hk1.
  eapply (post_bind _ _ (fun k2 _ => rest k1 k2)).
  - destruct excluded;
      [apply Arnoldi_excluded_rest|by apply Arnoldi_included_rest].
  - intros k2 t2 Hk2. apply post_ret.
    eapply rest_frame_trans; [exact Hk1|].
    eapply rest_frame_trans; [exact Hk2|].
    eapply rest_frame_trans; [|by apply Arnoldi_givens_rest].
    set (k3 := match save with Some _ => _ | None => _ end).
    assert (Hk3 : rest k2 k3).
    { unfold k3, rest_frame. destruct save as [sv|];
        (split_and!; simpl;
         [apply written_in_refl|apply same_outside_refl|]); [|done].
      apply same_outside_copy_n; lia. }
    eapply rest_frame_trans; [exact Hk3|]. by apply rest_frame_keep.
Qed.

Lemma rest_frame_v_only k k' :
  same_outside (v (i + 1)) (v (i + 1) + mu * n) (mv k) (mv k') ->
  ms k' = ms k -> msave k' = msave k -> rest k k'.
Proof.
  intros Hv Hs Hsv. unfold rest_frame. rewrite Hs, Hsv. split_and!.
  - eapply written_in_same_outside; [|exact Hv]. intros a Ha. by left.
  - apply same_outside_refl.
  - destruct save; [apply same_outside_refl|done].
Qed.

Lemma BlockArnoldi_cgs_step_rest H ldh k j :
  0 <= n -> 0 <= mu ->
  post (BlockArnoldi_cgs_step H v ldh n i mu k j)
       (fun k' t => rest k k' /\ reductions t = [(mu * mu, mpi_type)]).
Proof.
  intros Hn Hmu. unfold BlockArnoldi_cgs_step.
  post_reduce_step ax. apply post_ret. split; [|done].
  apply rest_frame_v_only; [simpl|done|done].
  apply same_outside_store_mat; [done|lia|nia].
Qed.

Lemma BlockArnoldi_project_rest gs H ldh k :
  0 <= n -> 0 <= mu -> 0 <= i ->
  post (BlockArnoldi_project gs H v ldh n i mu k)
       (fun k' t => rest k k' /\
                    reductions t =
                      if gs =? 1
                      then replicate (Z.to_nat (i + 1)) (mu * mu, mpi_type)
                      else [(mu * (mu * (i + 1)), mpi_type)]).
Proof.
  intros Hn Hmu Hi. unfold BlockArnoldi_project.
  destruct (gs =? 1).
  - eapply post_conseq.
    + apply (post_forM _ 0 (i + 1) k
               (fun c k1 t => rest k k1 /\
                              reductions t = replicate c (mu * mu, mpi_type))).
      { split; [apply rest_frame_refl|done]. }
      intros c k1 t Hc (Hk1 & Hr).
      eapply post_conseq; [by apply BlockArnoldi_cgs_step_rest|].
      intros k2 t2 (Hk2 & Hr2). split; [by eapply rest_frame_trans|].
      rewrite reductions_app, Hr, Hr2. by rewrite replicate_S_end.
    + intros k1 t (Hk1 & Hr). by rewrite Z.sub_0_r in Hr.
  - post_reduce_step ax. apply post_ret. split; [|done].
    apply rest_frame_v_only; [simpl|done|done].
    apply same_outside_store_mat; [done|lia|nia].
Qed.

(** One call of [BlockArnoldi]: what it leaves alone besides [H], and its
    reductions. *)
Lemma BlockArnoldi_rest excluded gs H lwork k :
  0 <= n -> 0 <= i < m -> 0 <= mu ->
  i * mu + mu * (mu * (m + 1)) <= s_hi -> mu * (mu * (m + 1)) <= width ->
  post (BlockArnoldi excluded variant gs m H v lwork n i mu save k)
       (fun k' t => rest k k' /\
                    reductions t = BlockArnoldi_reductions gs i mu).
Proof.
  intros Hn Hi Hmu Hs Hw. unfold BlockArnoldi, BlockArnoldi_reductions.
  set (ldh := mu * (m + 1)) in *.
  assert (Hldh : 0 <= ldh) by (unfold ldh; nia).
  assert (Hcol : (i + 2) * mu <= ldh) by (unfold ldh; nia).
  assert (Hsum : (mu - 1) * ldh + ldh = mu * ldh) by ring.
  eapply (post_bind _ _ (fun k' t => t = [] /\ rest k k')).
  { intros e. split.
    - apply (apply_operator_frame excluded variant m v n i mu H 0 0 k e).
    - apply (apply_operator_rest excluded k e). }
  intros k1 t1 [-> Hk1].
  eapply post_bind; [apply BlockArnoldi_project_rest; [done|done|lia]|].
  intros k2 t2 (Hk2 & Hr2).
  post_reduce_step ax.
  set (k3 := with_Ax k2 _).
  set (h3 := for_ 0 mu _ (mH k3)).
  destruct (potrf _ _ _) as [R info].
  set (h4 := store_mat h3 _ _ _ _ R).
  set (k4 := with_H k3 h4).
  assert (Hk4 : rest k2 k4) by (by apply rest_frame_keep).
  set (k5 := match save with Some _ => _ | None => _ end).
  assert (Hk5 : rest k4 k5).
  { unfold k5, rest_frame. destruct save as [sv|];
      (split_and!; simpl;
       [apply written_in_refl|apply same_outside_refl|]); [|done].
    apply (same_outside_for_ (sv i) (sv i + width) _ 0 mu).
    intros sm row Hrow. apply same_outside_copy_n; [nia|].
    assert (row * ldh <= (mu - 1) * ldh) by nia.
    assert ((i + 1) * mu + row + 1 <= ldh) by nia. lia. }
  set (k6 := if i <? m - 1 then _ else k5).
  assert (Hk6 : rest k5 k6).
  { unfold k6. destruct (i <? m - 1); [|apply rest_frame_refl].
    apply rest_frame_v_only; [simpl|done|done].
    apply same_outside_store_mat; [done|lia|nia]. }
  set (k7 := for_ 0 i _ k6).
  assert (Hk7 : rest k6 k7).
  { unfold k7.
    apply (for_invariant rest); [apply rest_frame_refl|apply rest_frame_trans|].
    intros k' leading Hl.
    destruct (mqr _ _ _ _ _ _ _ _ _) as [[C work] info'].
    by apply rest_frame_keep. }
  destruct (geqrf _ _ _ _) as [[[A' tau'] work] info1].
  destruct (mqr _ _ _ _ _ _ _ _ _) as [[C work'] info2].
  apply post_ret. split.
  - eapply rest_frame_trans; [exact Hk1|].
    eapply rest_frame_trans; [exact Hk2|].
    eapply rest_frame_trans; [exact Hk4|].
    eapply rest_frame_trans; [exact Hk5|].
    eapply rest_frame_trans; [exact Hk6|].
    eapply rest_frame_trans; [exact Hk7|].
    split_and!; simpl.
    + apply written_in_refl.
    + apply same_outside_store_mat; [done|lia|].
      assert (2 * mu <= ldh) by nia. lia.
    + destruct save; [apply same_outside_refl|done].
  - simpl. rewrite !reductions_app, Hr2. reflexivity.
Qed.

End Rest.

(** X9. Step [i] of [Arnoldi] and of [BlockArnoldi] writes, in the block of
    the basis, only the vector [v[i + 1]] and, with flexible
    preconditioning, [v[i + m + 1]].  With the vectors one after the other,
    [mu * n] cells each, the vectors [v[0]], ..., [v[i]] hold after the
    step what they held before. *)
Theorem kernels_keep_basis excluded variant gs m H v lwork n i mu save k e :
  0 <= n -> 0 <= i < m -> 0 <= mu ->
  let ka := (Arnoldi excluded variant gs m H v n i mu save k e).1.1 in
  let kb := (BlockArnoldi excluded variant gs m H v lwork n i mu save k e).1.1
  in
  (forall a, ~ basis_cells variant m v n i mu a ->
     mv ka !! a = mv k !! a /\ mv kb !! a = mv k !! a) /\
  ((forall j, v j = v 0 + j * (mu * n)) ->
   forall j a, 0 <= j <= i -> v j <= a < v j + mu * n ->
     mv ka !! a = mv k !! a /\ mv kb !! a = mv k !! a).
Proof.
  intros Hn Hi Hmu ka kb.
  pose proof (Arnoldi_rest variant m v n i mu ((i + 2) * mu) save
                ((i + 2) * mu) excluded gs H k Hn ltac:(lia) Hmu
                ltac:(lia) ltac:(lia) e) as (Ha & _).
  pose proof (BlockArnoldi_rest variant m v n i mu
                (i * mu + mu * (mu * (m + 1))) save (mu * (mu * (m + 1)))
                excluded gs H lwork k Hn Hi Hmu ltac:(lia) ltac:(lia) e)
    as ((Hb & _) & _).
  fold ka in Ha. fold kb in Hb.
  assert (Hcells : forall a, ~ basis_cells variant m v n i mu a ->
            mv ka !! a = mv k !! a /\ mv kb !! a = mv k !! a).
  { intros a Hout. split; [by apply Ha|by apply Hb]. }
  split; [exact Hcells|].
  intros Hlay j a Hj Hcell. apply Hcells.
  unfold basis_cells. rewrite (Hlay (i + 1)), (Hlay (i + m + 1)).
  rewrite (Hlay j) in Hcell.
  assert (0 <= mu * n) by nia.
  assert (j * (mu * n) + mu * n <= (i + 1) * (mu * n)) by nia.
  assert ((i + 1) * (mu * n) <= (i + m + 1) * (mu * n)) by nia.
  lia.
Qed.

(** X10. Step [i] of [Arnoldi] writes, in the right-hand side [s] of the least
    squares problem, only the cells from [i * mu] up to [(i + 2) * mu],
    and in [save] only the [(i + 2) * mu] cells at [save[i]];
    [BlockArnoldi] writes in [s] and at [save[i]] only within [mu] columns
    of [ldh = mu * (m + 1)] cells.  With a null [save] nothing is
    saved. *)
Theorem kernels_write_rhs_and_save excluded variant gs m H v lwork n i mu
    save k e :
  0 <= n -> 0 <= i < m -> 0 <= mu ->
  let ka := (Arnoldi excluded variant gs m H v n i mu save k e).1.1 in
  let kb := (BlockArnoldi excluded variant gs m H v lwork n i mu save k e).1.1
  in
  let ldh := mu * (m + 1) in
  (same_outside (i * mu) ((i + 2) * mu) (ms k) (ms ka) /\
   match save with
   | Some sv => same_outside (sv i) (sv i + (i + 2) * mu) (msave k) (msave ka)
   | None => msave ka = msave k
   end) /\
  (same_outside (i * mu) (i * mu + mu * ldh) (ms k) (ms kb) /\
   match save with
   | Some sv => same_outside (sv i) (sv i + mu * ldh) (msave k) (msave kb)
   | None => msave kb = msave k
   end).
Proof.
  intros Hn Hi Hmu ka kb ldh.
  pose proof (Arnoldi_rest variant m v n i mu ((i + 2) * mu) save
                ((i + 2) * mu) excluded gs H k Hn ltac:(lia) Hmu
                ltac:(lia) ltac:(lia) e) as (_ & Has & Hasv).
  pose proof (BlockArnoldi_rest variant m v n i mu
                (i * mu + mu * (mu * (m + 1))) save (mu * (mu * (m + 1)))
                excluded gs H lwork k Hn Hi Hmu ltac:(lia) ltac:(lia) e)
    as ((_ & Hbs & Hbsv) & _).
  done.
Qed.

(** X11. The calls of [MPI_Allreduce] of one call of [BlockArnoldi] are fixed
    by [gs], [i] and [mu]: with classical Gram-Schmidt [i + 1] reductions
    of [mu * mu] cells, else one of [mu * mu * (i + 1)] cells, then one of
    [mu * (mu + 1) / 2] cells, all of the type of [K]; a rank with
    [excluded = true] and a rank with [excluded = false] call them alike,
    whatever they hold. *)
Theorem BlockArnoldi_reduces_alike variant variant' gs m H H' v v' lwork
    lwork' n n' i mu save save' k k' (e e' : Env) :
  0 <= n -> 0 <= n' -> 0 <= i < m -> 0 <= mu ->
  let te := (BlockArnoldi true variant gs m H v lwork n i mu save k e).2 in
  let ti := (BlockArnoldi false variant' gs m H' v' lwork' n' i mu save' k'
               e').2 in
  reductions te = BlockArnoldi_reductions gs i mu /\
  reductions ti = BlockArnoldi_reductions gs i mu.
Proof.
  intros Hn Hn' Hi Hmu te ti. split.
  - apply (BlockArnoldi_rest variant m v n i mu
             (i * mu + mu * (mu * (m + 1))) save (mu * (mu * (m + 1)))
             true gs H lwork k Hn Hi Hmu ltac:(lia) ltac:(lia) e).
  - apply (BlockArnoldi_rest variant' m v' n' i mu
             (i * mu + mu * (mu * (m + 1))) save' (mu * (mu * (m + 1)))
             false gs H' lwork' k' Hn' Hi Hmu ltac:(lia) ltac:(lia) e').
Qed.


(** ** What the methods write in [x] *)

(** One turn of CG: the cells of [x] that it may write are those of the
    columns whose entry of [hasConverged] is still [-it]. *)
Lemma CG_body_x excluded tol it id0 id1 n mu d st :
  0 <= mu ->
  post (CG_body excluded tol it id0 id1 n mu d st)
       (fun r _ =>
          forall a,
            (forall nu, 0 <= nu < mu -> load 0 (cg_conv st) nu = - it ->
                        ~ (n * nu <= a < n * nu + n)) ->
            cg_x r.1 !! a = cg_x st !! a).
Proof.
  intros Hmu. unfold CG_body.
  eapply post_bind; [apply post_any|]. intros [wk1 res1] ? _.
  eapply post_bind; [apply post_any|]. intros wk2 ? _.
  eapply post_bind; [apply post_any|]. intros [wk3 res3] ? _.
  post_reduce_step res4.
  match goal with
  | |- context [for_ 0 mu ?f (cg_x st, ?wk0)] =>
      set (loop := for_ 0 mu f (cg_x st, wk0));
      assert (Hloop : forall a,
                (forall nu, 0 <= nu < mu -> load 0 (cg_conv st) nu = - it ->
                            ~ (n * nu <= a < n * nu + n)) ->
                loop.1 !! a = cg_x st !! a);
      [unfold loop;
       apply (for_ind
                (fun c (r : mem K * mem K) =>
                   forall a,
                     (forall nu, 0 <= nu < c ->
                        load 0 (cg_conv st) nu = - it ->
                        ~ (n * nu <= a < n * nu + n)) ->
                     r.1 !! a = cg_x st !! a)
                f mu (cg_x st, wk0) Hmu)|]
  end.
  { done. }
  { intros c [x' wk'] Hc IH a Ha. simpl in IH.
    destruct (Z.eqb_spec (load 0 (cg_conv st) c) (- it)) as [Heq|Hne];
      cbn [fst].
    - rewrite lookup_stores_n_out.
      + apply IH. intros nu Hnu. apply Ha. lia.
      + specialize (Ha c ltac:(lia) Heq). lia.
    - apply IH. intros nu Hnu. apply Ha. lia. }
  destruct loop as [x5 wk5]. simpl in Hloop.
  post_call_step. destruct a as [out work].
  post_reduce_step res6. apply post_ret. exact Hloop.
Qed.

(** X12. A turn of CG updates in [x] only the columns that have not converged:
    it writes no cell outside the [mu] columns of [n] cells, and a column
    whose entry of [hasConverged] is no longer [-it] holds after the turn
    what it held before.  On a rank without unknowns ([n = 0]) the turn
    leaves [x] as it is. *)
Theorem CG_turn_keeps_converged_columns excluded tol it id0 id1 n mu d st e :
  0 <= n -> 0 <= mu ->
  let st' := (CG_body excluded tol it id0 id1 n mu d st e).1.1.1 in
  (forall a, a < 0 \/ n * mu <= a -> cg_x st' !! a = cg_x st !! a) /\
  (forall nu j, 0 <= nu < mu -> load 0 (cg_conv st) nu <> - it ->
     0 <= j < n -> cg_x st' !! (n * nu + j) = cg_x st !! (n * nu + j)) /\
  (n = 0 -> cg_x st' = cg_x st).
Proof.
  intros Hn Hmu st'.
  pose proof (CG_body_x excluded tol it id0 id1 n mu d st Hmu e) as Hx.
  fold st' in Hx. split_and!.
  - intros a Ha. apply Hx. intros nu Hnu _. nia.
  - intros nu j Hnu Hconv Hj. apply Hx. intros nu' Hnu' Hact Hin.
    assert (nu' = nu) by nia. congruence.
  - intros ->. apply map_eq. intros a. apply Hx. intros nu _ _. lia.
Qed.

(** ** The buffers and the vectors of PCG *)

Lemma PCG_included_alpha it n offset m st :
  1 <= pcg_i st <= it ->
  post (PCG_included it n offset m st)
       (fun st' _ => same_outside 0 (2 * it) (pcg_alpha st) (pcg_alpha st')).
Proof.
  intros Hi. unfold PCG_included.
  post_call_step.
  set (alpha0 := for_ 0 (pcg_i st - 1) _ (pcg_alpha st)).
  assert (H0 : same_outside 0 (2 * it) (pcg_alpha st) alpha0).
  { apply (same_outside_for_ 0 (2 * it) _ 0 (pcg_i st - 1)).
    intros al j Hj. apply same_outside_store. lia. }
  post_reduce_step alpha1.
  set (alpha1' := stores_n K0 alpha0 it (pcg_i st - 1) x) in *.
  assert (H1 : same_outside 0 (2 * it) (pcg_alpha st) alpha1').
  { eapply same_outside_trans; [exact H0|].
    apply same_outside_stores_n; lia. }
  match goal with
  | |- context [for_ 0 (pcg_i st - 1) ?f (alpha1', ?h0)] =>
      set (loop := for_ 0 (pcg_i st - 1) f (alpha1', h0));
      assert (H2 : same_outside 0 (2 * it) (pcg_alpha st) loop.1);
      [unfold loop;
       apply (for_invariant
                (fun (r1 r2 : mem K * gmap nat (mem K)) =>
                   same_outside 0 (2 * it) (pcg_alpha st) r1.1 ->
                   same_outside 0 (2 * it) (pcg_alpha st) r2.1)
                f 0 (pcg_i st - 1) (alpha1', h0)); [done|auto| |exact H1]|]
  end.
  { intros [al h'] j Hj Hal. simpl in *.
    eapply same_outside_trans; [exact Hal|].
    apply same_outside_store. lia. }
  destruct loop as [alpha2 h2]. simpl in H2.
  post_call_step.
  eapply post_bind; [apply PCG_allocateSingle_spec|].
  intros [[h3 next3] zCurr3] ? ->.
  post_reduce_step alpha4. post_call_step. post_call_step.
  apply post_ret. simpl.
  eapply same_outside_trans; [exact H2|].
  eapply same_outside_trans;
    [|apply same_outside_store; lia].
  eapply same_outside_trans;
    [|apply same_outside_store; lia].
  eapply same_outside_trans;
    [|apply same_outside_stores_n; lia].
  eapply same_outside_trans; apply same_outside_store; lia.
Qed.

Lemma PCG_excluded_alpha st :
  post (PCG_excluded st)
       (fun st' _ => same_outside 0 (Z.max 2 (pcg_i st - 1))
                                  (pcg_alpha st) (pcg_alpha st')).
Proof.
  unfold PCG_excluded.
  post_call_step. post_reduce_step alpha1. post_reduce_step alpha2.
  post_call_step. apply post_ret. cbn [pcg_alpha].
  eapply same_outside_trans; [|apply same_outside_stores_n; lia].
  eapply same_outside_trans; [|apply same_outside_fill_n; lia].
  eapply same_outside_trans; [|apply same_outside_stores_n; lia].
  apply same_outside_fill_n; lia.
Qed.

(** X13. A turn of PCG with [1 <= i <= it] writes [alpha] only within the
    cells that PCG has allocated for it: [2 * it] cells on a rank with
    unknowns, [max(2, it)] cells on a rank without. *)
Theorem PCG_turn_within_alpha excluded tol resInit it verbosity n offset m st
    e :
  1 <= pcg_i st <= it ->
  let st' := (PCG_body excluded tol resInit it verbosity n offset m st e).1.1.1
  in
  same_outside 0 (if excluded then Z.max 2 it else 2 * it)
               (pcg_alpha st) (pcg_alpha st').
Proof.
  intros Hi st'. unfold st'. clear st'. revert e.
  change (post (PCG_body excluded tol resInit it verbosity n offset m st)
            (fun r _ =>
               same_outside 0 (if excluded then Z.max 2 it else 2 * it)
                            (pcg_alpha st) (pcg_alpha r.1))).
  unfold PCG_body.
  eapply (post_bind _ _
            (fun st1 _ =>
               same_outside 0 (if excluded then Z.max 2 it else 2 * it)
                            (pcg_alpha st) (pcg_alpha st1))).
  { destruct excluded; simpl.
    - eapply post_conseq; [apply PCG_excluded_alpha|].
      intros st1 t H1. eapply same_outside_weaken; [| |exact H1]; lia.
    - by apply PCG_included_alpha. }
  intros st1 t1 H1. post_call_step.
  eapply post_bind; [apply post_any|]. intros _ ? _.
  destruct (Uleb _ _); [by apply post_ret|].
  destruct excluded; simpl; [by apply post_ret|].
  eapply post_bind; [apply PCG_allocateSingle_spec|].
  intros [[h3 next3] pCurr3] ? ->. by apply post_ret.
Qed.

Lemma PCG_allocateSingle_fresh (h : gmap nat (mem K)) next :
  post (PCG_allocateSingle h next)
       (fun r t => t = [] /\ r.1.2 = S next /\ r.2 = next).
Proof. unfold PCG_allocateSingle. post_call_step. by apply post_ret. Qed.

Lemma PCG_included_vectors it n offset m st :
  post (PCG_included it n offset m st)
       (fun st' _ =>
          pcg_z st' = pcg_z st ++ [pcg_next st] /\ pcg_p st' = pcg_p st /\
          pcg_next st' = S (pcg_next st) /\ pcg_zCurr st' = pcg_next st /\
          pcg_pCurr st' = pcg_pCurr st /\ pcg_i st' = pcg_i st).
Proof.
  unfold PCG_included.
  post_call_step. post_reduce_step alpha1.
  destruct (for_ 0 (pcg_i st - 1) _ (_, _)) as [alpha2 h2].
  post_call_step.
  eapply post_bind; [apply PCG_allocateSingle_fresh|].
  intros [[h3 next3] zCurr3] ? (-> & Hnext & Hz). simpl in Hnext, Hz.
  subst next3 zCurr3.
  post_reduce_step alpha4. post_call_step. post_call_step.
  by apply post_ret.
Qed.

Lemma PCG_body_vectors tol resInit it verbosity n offset m st :
  post (PCG_body false tol resInit it verbosity n offset m st)
       (fun r _ =>
          pcg_z r.1 = pcg_z st ++ [pcg_next st] /\
          pcg_zCurr r.1 = pcg_next st /\
          if r.2
          then pcg_p r.1 = pcg_p st /\ pcg_next r.1 = S (pcg_next st) /\
               pcg_pCurr r.1 = pcg_pCurr st /\ pcg_i r.1 = pcg_i st
          else pcg_p r.1 = pcg_p st ++ [S (pcg_next st)] /\
               pcg_next r.1 = S (S (pcg_next st)) /\
               pcg_pCurr r.1 = S (pcg_next st) /\
               pcg_i r.1 = to_ushort (pcg_i st + 1)).
Proof.
  unfold PCG_body. simpl.
  eapply post_bind; [apply PCG_included_vectors|].
  intros st1 t1 (Hz & Hp & Hnext & HzC & HpC & Hi).
  post_call_step.
  eapply post_bind; [apply post_any|]. intros _ ? _.
  destruct (Uleb _ _).
  - apply post_ret. simpl. by rewrite Hz, HzC, Hp, Hnext, HpC, Hi.
  - eapply post_bind; [apply PCG_allocateSingle_fresh|].
    intros [[h3 next3] pCurr3] ? (-> & Hn3 & Hp3). simpl in Hn3, Hp3.
    subst next3 pCurr3. apply post_ret. simpl.
    by rewrite Hz, HzC, Hp, Hnext, Hi.
Qed.

Lemma PCG_init_vectors excluded n offset (f x : mem K) :
  post (PCG_init excluded n offset f x) (fun r _ => PCG_vectors r.1.1).
Proof.
  unfold PCG_init.
  post_call_step. destruct a as [r lambda].
  eapply post_bind; [apply post_emit|]. intros ? ? ->.
  post_call_step. destruct a0 as [[[allocate x1] lambda1] r1].
  eapply post_bind; [apply PCG_allocateSingle_fresh|].
  intros [[h next] zCurr] ? (-> & Hnext & Hz). simpl in Hnext, Hz.
  subst next zCurr.
  eapply post_bind; [apply post_any|]. intros h1 ? _.
  post_call_step.
  eapply post_bind; [apply PCG_allocateSingle_fresh|].
  intros [[h2 next2] pCurr] ? (-> & Hnext2 & Hp). simpl in Hnext2, Hp.
  subst next2 pCurr. apply post_ret. unfold PCG_vectors. simpl.
  split_and!; try done.
  - apply NoDup_cons. split; [|apply NoDup_singleton].
    rewrite list_elem_of_singleton. lia.
  - intros q Hq. apply elem_of_cons in Hq as [->|Hq]; [lia|].
    apply list_elem_of_singleton in Hq as ->. lia.
Qed.

(** X14. PCG on a rank with unknowns keeps its vectors in step with its
    counter: after the statements before the loop and after every turn
    that does not end at the [break] (with [i < 65535]), [z] and [p] hold
    [i] vectors each, all from different calls of [allocateSingle], and
    [zCurr] and [pCurr] are the last ones; so that [z[k]] and [p[k]] for
    [k < i - 1], [z.back()] and [z[i - 2]] are vectors that PCG holds. *)
Theorem PCG_keeps_its_vectors tol resInit it verbosity n offset m
    (f x : mem K) st e :
  PCG_vectors (PCG_init false n offset f x e).1.1.1.1 /\
  (PCG_vectors st -> pcg_i st < 65535 ->
   let r := PCG_body false tol resInit it verbosity n offset m st e in
   r.1.1.2 = false -> PCG_vectors r.1.1.1).
Proof.
  split; [apply (PCG_init_vectors false n offset f x e)|].
  intros (Hlz & Hlp & Hnd & Hlt & HzC & HpC) Hi r Hstop.
  pose proof (PCG_body_vectors tol resInit it verbosity n offset m st e)
    as (Hz & HzC' & Hrest).
  fold r in Hz, HzC', Hrest. rewrite Hstop in Hrest.
  destruct Hrest as (Hp & Hnext & HpC' & Hi').
  unfold PCG_vectors. rewrite Hz, Hp, Hnext, HzC', HpC', Hi'.
  rewrite to_ushort_small by lia. rewrite !length_app. simpl.
  assert (Hnz : pcg_next st ∉ pcg_z st ++ pcg_p st).
  { intros Hin. apply Hlt in Hin. lia. }
  assert (Hnz' : S (pcg_next st) ∉ pcg_z st ++ pcg_p st).
  { intros Hin. apply Hlt in Hin. lia. }
  split_and!.
  - lia.
  - lia.
  - assert (Hperm : (pcg_z st ++ [pcg_next st]) ++ pcg_p st ++ [S (pcg_next st)]
                    ≡ₚ pcg_next st :: S (pcg_next st) ::
                       (pcg_z st ++ pcg_p st)).
    { rewrite <- !app_assoc. rewrite (Permutation_app_comm (pcg_p st)).
      simpl. rewrite Permutation_middle. simpl.
      rewrite <- Permutation_middle. by rewrite <- Permutation_middle. }
    rewrite Hperm. apply NoDup_cons. split.
    + rewrite elem_of_cons. intros [?|?]; [lia|done].
    + apply NoDup_cons. done.
  - intros q Hq. rewrite !elem_of_app, !list_elem_of_singleton in Hq.
    destruct Hq as [[Hq| ->]|[Hq| ->]]; [|lia| |lia].
    + assert (q < pcg_next st)%nat; [|lia].
      apply Hlt, elem_of_app. by left.
    + assert (q < pcg_next st)%nat; [|lia].
      apply Hlt, elem_of_app. by right.
  - unfold back. apply last_last.
  - unfold back. apply last_last.
Qed.

(** X15. A turn of PCG on a rank without unknowns never writes [x] or [lambda]
    and allocates no vector. *)
Theorem PCG_excluded_rank_idle tol resInit it verbosity n offset m st e :
  let st' := (PCG_body true tol resInit it verbosity n offset m st e).1.1.1 in
  pcg_x st' = pcg_x st /\ pcg_lambda st' = pcg_lambda st /\
  pcg_z st' = pcg_z st /\ pcg_p st' = pcg_p st /\
  pcg_next st' = pcg_next st.
Proof.
  intros st'. unfold st'. clear st'. revert e.
  change (post (PCG_body true tol resInit it verbosity n offset m st)
            (fun r _ =>
               pcg_x r.1 = pcg_x st /\ pcg_lambda r.1 = pcg_lambda st /\
               pcg_z r.1 = pcg_z st /\ pcg_p r.1 = pcg_p st /\
               pcg_next r.1 = pcg_next st)).
  unfold PCG_body. simpl.
  eapply (post_bind _ _
            (fun st1 _ =>
               pcg_x st1 = pcg_x st /\ pcg_lambda st1 = pcg_lambda st /\
               pcg_z st1 = pcg_z st /\ pcg_p st1 = pcg_p st /\
               pcg_next st1 = pcg_next st)).
  { unfold PCG_excluded.
    post_call_step. post_reduce_step alpha1. post_reduce_step alpha2.
    post_call_step. by apply post_ret. }
  intros st1 t1 H1. post_call_step.
  eapply post_bind; [apply post_any|]. intros _ ? _.
  destruct (Uleb _ _); by apply post_ret.
Qed.

(** ** The values BCG and PCG return *)



(** ** The reductions of a turn of BCG *)

Lemma BCG_block_system_reductions excluded n mu d (wk : mem K) :
  post (BCG_block_system excluded n mu d wk)
       (fun _ t =>
          reductions t = [((mu * (mu + 1)) `quot` 2, mpi_underlying_type)] /\
          (excluded = true -> Forall sends_zeros t)).
Proof.
  unfold BCG_block_system.
  eapply (post_bind _ _ (fun _ t => t = [])).
  { destruct excluded; simpl; [by apply post_ret|].
    post_call_step. by apply post_ret. }
  intros wk1 ? ->.
  post_reduce_step wk2.
  destruct (ppsv _ _ _ _ _) as [[AP B] info]. apply post_ret.
  split; [done|]. intros ->. simpl.
  apply Forall_singleton. simpl. rewrite loads_fill_n.
  by apply Forall_replicate.
Qed.

Lemma BCG_advance_reductions excluded tol m1 id0 n mu i d norm (x wk : mem K) :
  post (BCG_advance excluded tol m1 id0 n mu i d norm x wk)
       (fun _ t =>
          reductions t = [(mu `quot` m1 + (mu * (mu + 1)) `quot` 2,
                           mpi_underlying_type)] /\
          (excluded = true -> Forall sends_zeros t)).
Proof.
  unfold BCG_advance.
  destruct (if negb excluded && negb (n =? 0) then _ else (x, wk))
    as [x1 wk1].
  post_call_step. destruct a as [out work].
  post_reduce_step wk2.
  destruct (checkBlockConvergence _ _ _ _ _ _ _ _ _ _) as [count work'].
  apply post_ret. split; [done|]. intros ->. simpl.
  apply Forall_singleton. simpl. rewrite loads_fill_n.
  by apply Forall_replicate.
Qed.

(** X17. The two reductions that a turn of BCG calls itself (before [ppsv] and
    before [checkBlockConvergence]) have the same counts and datatype on a
    rank with [excluded = true] as on a rank with [excluded = false],
    whatever the two ranks hold, and what the excluded rank sends holds
    zeros. *)
Theorem BCG_excluded_rank_reduces_alike tol m1 id0 n n' mu i d d' norm norm'
    (x x' wk wk' : mem K) (e e' : Env) :
  (let te := (BCG_block_system true n mu d wk e).2 in
   let ti := (BCG_block_system false n' mu d' wk' e').2 in
   reductions te = reductions ti /\ Forall sends_zeros te) /\
  (let te := (BCG_advance true tol m1 id0 n mu i d norm x wk e).2 in
   let ti := (BCG_advance false tol m1 id0 n' mu i d' norm' x' wk' e').2 in
   reductions te = reductions ti /\ Forall sends_zeros te).
Proof.
  split; simpl.
  - destruct (BCG_block_system_reductions true n mu d wk e) as [-> Hz].
    destruct (BCG_block_system_reductions false n' mu d' wk' e') as [-> _].
    split; [done|by apply Hz].
  - destruct (BCG_advance_reductions true tol m1 id0 n mu i d norm x wk e)
      as [-> Hz].
    destruct (BCG_advance_reductions false tol m1 id0 n' mu i d' norm' x' wk'
                e') as [-> _].
    split; [done|by apply Hz].
Qed.

(** ** The scope of the operator *)

Lemma scopes_app (t1 t2 : list Ev) : scopes (t1 ++ t2) = scopes t1 ++ scopes t2.
Proof. apply omap_app. Qed.

Ltac split_result r :=
  lazymatch type of r with
  | (_ * _)%type =>
      let a := fresh in let b := fresh in
      destruct r as [a b]; split_result a
  | _ => idtac
  end.

Ltac quiet_call_step :=
  eapply (post_bind _ _ (fun _ t => scopes t = []));
  [eapply post_conseq; [apply post_call|]; by intros ? ? ->|];
  let r := fresh "r" in
  intros r ? ?; split_result r.

Ltac quiet_reduce_step :=
  eapply (post_bind _ _ (fun _ t => scopes t = []));
  [eapply post_conseq;
   [first [apply post_Allreduce_K|apply post_Allreduce_U]|];
   by intros ? ? [-> _]|];
  intros ? ? ?.

Ltac quiet_done :=
  apply post_ret; rewrite ?scopes_app;
  repeat match goal with H : scopes _ = [] |- _ => rewrite H; clear H end;
  reflexivity.

Lemma CG_body_scopes excluded tol it id0 id1 n mu d st :
  post (CG_body excluded tol it id0 id1 n mu d st)
       (fun _ t => scopes t = []).
Proof.
  unfold CG_body.
  eapply (post_bind _ _ (fun _ t => scopes t = [])).
  { destruct ((id1 =? 2) && negb (cg_i st =? 0)); [|by apply post_ret].
    quiet_reduce_step.
    destruct (negb excluded && negb (n =? 0)); quiet_done. }
  intros [wk1 res1] t1 Ht1.
  eapply (post_bind _ _ (fun _ t => scopes t = [])).
  { destruct excluded; simpl; [by apply post_ret|].
    quiet_call_step. quiet_done. }
  intros wk2 t2 Ht2.
  eapply (post_bind _ _ (fun _ t => scopes t = [])).
  { destruct (negb (cg_i st =? 0)); [|by apply post_ret].
    quiet_reduce_step.
    destruct excluded; simpl; [quiet_done|].
    quiet_call_step. quiet_done. }
  intros [wk3 res3] t3 Ht3.
  quiet_reduce_step.
  destruct (for_ 0 mu _ (_, _)) as [x5 wk5].
  quiet_call_step.
  quiet_reduce_step. quiet_done.
Qed.

Lemma CG_loop_scopes excluded tol it id0 id1 n mu d :
  forall fuel turns st e st' turns' e' t,
  CG_loop fuel excluded tol it id0 id1 n mu d turns st e
    = Some (st', turns', e', t) ->
  scopes t = [].
Proof.
  induction fuel as [|fuel IH]; intros turns st e st' turns' e' t; [done|].
  simpl. destruct (cg_i st <? it); [|by intros [= _ _ _ <-]].
  unfold mbind, MO_bind, lift.
  pose proof (CG_body_scopes excluded tol it id0 id1 n mu d st e) as Hbody.
  destruct (CG_body excluded tol it id0 id1 n mu d st e)
    as [[[st1 found_none] e1] t1]. simpl in Hbody.
  destruct found_none.
  - intros [= _ _ _ <-]. by rewrite app_nil_r.
  - destruct (CG_loop fuel _ _ _ _ _ _ _ _ _ st1 e1)
      as [[[[st2 turns2] e2] t2]|] eqn:Hloop; [|done].
    intros [= _ _ _ <-]. rewrite scopes_app, Hbody.
    by apply IH in Hloop.
Qed.

Lemma CG_init_scopes excluded it n mu d (b x : mem K) :
  post (CG_init excluded it n mu d b x) (fun _ t => scopes t = [None]).
Proof.
  unfold CG_init.
  eapply post_bind; [apply post_emit|]. intros ? ? ->.
  quiet_call_step.
  eapply (post_bind _ _ (fun _ t => scopes t = [])).
  { destruct excluded; simpl; [by apply post_ret|].
    quiet_call_step. quiet_done. }
  intros wk t2 Ht2.
  quiet_call_step.
  quiet_reduce_step.
  quiet_done.
Qed.

Ltac quiet_emit_step :=
  eapply (post_bind _ _ (fun _ t => scopes t = []));
  [eapply post_conseq; [apply post_emit|]; by intros ? ? ->|];
  intros ? ? ?.

Lemma CG_exit_scopes it id0 allocate st :
  post (CG_exit it id0 allocate st) (fun _ t => scopes t = [Some allocate]).
Proof.
  unfold CG_exit.
  quiet_emit_step. quiet_emit_step.
  eapply (post_bind _ _ (fun _ t => scopes t = [])).
  { destruct is_complex; [|by apply post_ret].
    eapply post_conseq; [apply post_emit|]. by intros ? ? ->. }
  intros ? ? ?.
  quiet_emit_step.
  eapply post_bind; [apply post_emit|]. intros ? ? ->.
  quiet_call_step. quiet_done.
Qed.

Lemma CG_run_scopes excluded opt (b x : mem K) mu e r :
  CG_run excluded opt b x mu e = Some r ->
  exists allocate, scopes r.2 = [None; Some allocate].
Proof.
  unfold CG_run.
  destruct (options 2 prefix opt) as [[[tol it0] id0] id1].
  unfold mbind, MO_bind, lift.
  match goal with
  | |- context [CG_init ?ex ?it ?n ?mu ?d ?b ?x e] =>
      pose proof (CG_init_scopes ex it n mu d b x e) as Hi;
      destruct (CG_init ex it n mu d b x e) as [[[st allocate] e1] t1]
  end.
  simpl in Hi.
  destruct (CG_loop _ _ _ _ _ _ _ _ _ _ st e1)
    as [[[[st2 turns2] e2] t2]|] eqn:Hloop; [|done].
  apply CG_loop_scopes in Hloop.
  pose proof (CG_exit_scopes (to_ushort it0) id0 allocate st2 e2) as He.
  destruct (CG_exit (to_ushort it0) id0 allocate st2 e2) as [[ret e3] t3].
  simpl in He. intros [= <-]. exists allocate. simpl.
  rewrite ?scopes_app, ?app_nil_r, Hi, Hloop, He. reflexivity.
Qed.

Lemma PCG_allocateSingle_scopes h next :
  post (PCG_allocateSingle h next) (fun _ t => scopes t = []).
Proof. unfold PCG_allocateSingle. quiet_call_step. quiet_done. Qed.

Ltac quiet_allocate_step :=
  eapply (post_bind _ _ (fun _ t => scopes t = []));
  [apply PCG_allocateSingle_scopes|];
  let r := fresh "r" in
  intros r ? ?; split_result r.

Lemma PCG_body_scopes excluded tol resInit it verbosity n offset m st :
  post (PCG_body excluded tol resInit it verbosity n offset m st)
       (fun _ t => scopes t = []).
Proof.
  unfold PCG_body.
  eapply (post_bind _ _ (fun _ t => scopes t = [])).
  { destruct excluded; cbn [negb].
    - unfold PCG_excluded.
      quiet_call_step. quiet_reduce_step. quiet_reduce_step.
      quiet_call_step. quiet_done.
    - unfold PCG_included.
      quiet_call_step. quiet_reduce_step.
      destruct (for_ 0 (pcg_i st - 1) _ (_, _)) as [alpha1 h1].
      quiet_call_step. quiet_allocate_step. quiet_reduce_step.
      quiet_call_step. quiet_call_step. quiet_done. }
  intros st1 t1 Ht1.
  quiet_call_step.
  eapply (post_bind _ _ (fun _ t => scopes t = [])).
  { destruct (2 <? verbosity); [|by apply post_ret].
    eapply post_conseq; [apply post_emit|]. by intros ? ? ->. }
  intros ? ? ?.
  destruct (Uleb _ tol); [quiet_done|].
  destruct excluded; cbn [negb]; [quiet_done|].
  quiet_allocate_step. quiet_done.
Qed.

Lemma PCG_loop_scopes excluded tol resInit it verbosity n offset m :
  forall fuel turns st e st' turns' e' t,
  PCG_loop fuel excluded tol resInit it verbosity n offset m turns st e
    = Some (st', turns', e', t) ->
  scopes t = [].
Proof.
  induction fuel as [|fuel IH]; intros turns st e st' turns' e' t; [done|].
  simpl. destruct (pcg_i st <=? it); [|by intros [= _ _ _ <-]].
  unfold mbind, MO_bind, lift.
  pose proof (PCG_body_scopes excluded tol resInit it verbosity n offset m
                st e) as Hbody.
  destruct (PCG_body excluded tol resInit it verbosity n offset m st e)
    as [[[st1 stop] e1] t1]. simpl in Hbody.
  destruct stop.
  - intros [= _ _ _ <-]. by rewrite app_nil_r.
  - destruct (PCG_loop fuel _ _ _ _ _ _ _ _ _ st1 e1)
      as [[[[st2 turns2] e2] t2]|] eqn:Hloop; [|done].
    intros [= _ _ _ <-]. rewrite scopes_app, Hbody.
    by apply IH in Hloop.
Qed.

Lemma PCG_init_scopes excluded n offset (f x : mem K) :
  post (PCG_init excluded n offset f x) (fun _ t => scopes t = [None]).
Proof.
  unfold PCG_init.
  quiet_call_step.
  eapply post_bind; [apply post_emit|]. intros ? ? ->.
  quiet_call_step. quiet_allocate_step.
  eapply (post_bind _ _ (fun _ t => scopes t = [])).
  { destruct excluded; simpl; [by apply post_ret|].
    quiet_call_step. quiet_done. }
  intros ? ? ?.
  quiet_call_step. quiet_allocate_step. quiet_done.
Qed.

Lemma PCG_exit_scopes excluded it verbosity allocate (f : mem K) st :
  post (PCG_exit excluded it verbosity allocate f st)
       (fun _ t => scopes t = [Some allocate]).
Proof.
  unfold PCG_exit.
  quiet_emit_step. quiet_call_step.
  quiet_emit_step. quiet_emit_step. quiet_emit_step. quiet_emit_step.
  eapply post_bind; [apply post_emit|]. intros ? ? ->.
  quiet_call_step. quiet_done.
Qed.

Lemma PCG_run_scopes fuel excluded opt (f x : mem K) e r :
  PCG_run fuel excluded opt f x e = Some r ->
  exists allocate, scopes r.2 = [None; Some allocate].
Proof.
  unfold PCG_run.
  destruct (options 6 prefix opt) as [[[tol it0] verbosity] w].
  unfold mbind, MO_bind, lift.
  match goal with
  | |- context [PCG_init excluded ?n ?off f x e] =>
      pose proof (PCG_init_scopes excluded n off f x e) as Hi;
      destruct (PCG_init excluded n off f x e)
        as [[[[st allocate] resInit] e1] t1]
  end.
  simpl in Hi.
  destruct (PCG_loop _ _ _ _ _ _ _ _ _ _ st e1)
    as [[[[st2 turns2] e2] t2]|] eqn:Hloop; [|done].
  apply PCG_loop_scopes in Hloop.
  pose proof (PCG_exit_scopes excluded (to_ushort it0) verbosity allocate f
                st2 e2) as He.
  destruct (PCG_exit excluded (to_ushort it0) verbosity allocate f st2 e2)
    as [[[ret x'] e3] t3].
  simpl in He. intros [= <-]. exists allocate. simpl.
  rewrite ?scopes_app, ?app_nil_r, Hi, Hloop, He. reflexivity.
Qed.

Lemma BCG_QR_scopes excluded id1 n mu d (wk : mem K) :
  post (BCG_QR excluded id1 n mu d wk) (fun _ t => scopes t = []).
Proof. unfold BCG_QR. quiet_call_step. quiet_done. Qed.

Lemma BCG_body_scopes excluded tol m1 id0 id1 n mu d st :
  post (BCG_body excluded tol m1 id0 id1 n mu d st)
       (fun _ t => scopes t = []).
Proof.
  unfold BCG_body.
  eapply (post_bind _ _ (fun _ t => scopes t = [])).
  { unfold BCG_block_system.
    eapply (post_bind _ _ (fun _ t => scopes t = [])).
    { destruct excluded; simpl; [by apply post_ret|].
      quiet_call_step. quiet_done. }
    intros ? ? ?.
    quiet_reduce_step.
    destruct (ppsv _ _ _ _ _) as [[AP B] info]. quiet_done. }
  intros [info wk1] t1 Ht1.
  destruct (negb (info =? 0)); [quiet_done|].
  eapply (post_bind _ _ (fun _ t => scopes t = [])).
  { unfold BCG_advance.
    destruct (if negb excluded && negb (n =? 0) then _ else (_, wk1))
      as [x1 wk2].
    quiet_call_step. quiet_reduce_step.
    destruct (checkBlockConvergence _ _ _ _ _ _ _ _ _ _) as [count work'].
    quiet_done. }
  intros [[x2 wk2] count] t2 Ht2.
  destruct (mu =? count); [quiet_done|].
  destruct (BCG_coefficients n mu wk2) as [info2 wk3].
  destruct (negb (info2 =? 0)); [quiet_done|].
  eapply (post_bind _ _ (fun _ t => scopes t = [])).
  { unfold BCG_new_direction. apply BCG_QR_scopes. }
  intros [info3 wk4] t3 Ht3.
  destruct (negb (info3 =? 0)); quiet_done.
Qed.

Lemma BCG_exit_scopes m0 id0 allocate st :
  post (BCG_exit m0 id0 allocate st) (fun _ t => scopes t = [Some allocate]).
Proof.
  unfold BCG_exit.
  quiet_emit_step. quiet_emit_step. quiet_emit_step.
  eapply post_bind; [apply post_emit|]. intros ? ? ->.
  quiet_call_step. quiet_done.
Qed.

Lemma BCG_fall_back_scopes excluded opt (b : mem K) mu allocate with_norm
    (x : mem K) e r :
  redirected opt = false ->
  BCG_fall_back excluded opt b mu allocate with_norm x e = Some r ->
  exists allocate', scopes r.2 = [Some allocate; None; Some allocate'].
Proof.
  intros Hred. unfold BCG_fall_back, CG. rewrite Hred.
  unfold mbind, MO_bind, lift, emit, call, mret, MO_ret.
  destruct with_norm; simpl.
  all: match goal with
       | |- context [CG_run ?ex ?o ?b0 ?x0 ?mu0 ?e1] =>
           destruct (CG_run ex o b0 x0 mu0 e1)
             as [[[[[ret x'] turns] e'] t]|] eqn:Hrun; [|done]
       end.
  all: apply CG_run_scopes in Hrun as [allocate' Hrun]; simpl in Hrun.
  all: intros [= <-]; exists allocate'; simpl.
  all: rewrite ?scopes_app, ?app_nil_r, ?Hrun; try reflexivity.
  all: by rewrite Hrun.
Qed.

Lemma BCG_loop_scopes excluded opt (b : mem K) tol m0 m1 id0 id1 n mu d
    allocate :
  redirected opt = false ->
  forall fuel turns st e r,
  BCG_loop fuel excluded opt b tol m0 m1 id0 id1 n mu d allocate turns st e
    = Some r ->
  scopes r.2 = [Some allocate] \/
  exists allocate', scopes r.2 = [Some allocate; None; Some allocate'].
Proof.
  intros Hred.
  induction fuel as [|fuel IH]; intros turns st e r; [done|].
  simpl.
  assert (Hexit : forall st1 e1 (t1 : list Ev),
            scopes t1 = [] ->
            match BCG_exit m0 id0 allocate st1 e1 with
            | (ret, e2, t2) =>
                scopes (t1 ++ t2 ++ []) = [Some allocate]
            end).
  { intros st1 e1 t1 Ht1.
    pose proof (BCG_exit_scopes m0 id0 allocate st1 e1) as He.
    destruct (BCG_exit m0 id0 allocate st1 e1) as [[ret e2] t2].
    simpl in He. by rewrite app_nil_r, scopes_app, Ht1, He. }
  destruct (bcg_i st <=? m0).
  - unfold mbind, MO_bind, lift.
    pose proof (BCG_body_scopes excluded tol m1 id0 id1 n mu d st e) as Hbody.
    destruct (BCG_body excluded tol m1 id0 id1 n mu d st e)
      as [[step e1] t1]. simpl in Hbody.
    destruct step as [st1|st1|st1].
    + destruct (BCG_loop fuel _ _ _ _ _ _ _ _ _ _ _ _ _ st1 e1)
        as [r1|] eqn:Hloop; [|done].
      apply IH in Hloop. destruct r1 as [[[v1 turns1] e2] t2].
      intros [= <-]. simpl in *. rewrite scopes_app, Hbody. exact Hloop.
    + specialize (Hexit st1 e1 t1 Hbody).
      destruct (BCG_exit m0 id0 allocate st1 e1) as [[ret e2] t2].
      intros [= <-]. left. exact Hexit.
    + destruct (BCG_fall_back excluded opt b mu allocate true (bcg_x st1) e1)
        as [[[[ret x'] e2] t2]|] eqn:Hfb; [|done].
      apply BCG_fall_back_scopes in Hfb as [allocate' Hfb]; [|done].
      intros [= <-]. right. exists allocate'. simpl in *.
      by rewrite scopes_app, app_nil_r, Hbody.
  - unfold mbind, MO_bind, lift.
    specialize (Hexit st e [] eq_refl).
    destruct (BCG_exit m0 id0 allocate st e) as [[ret e2] t2].
    intros [= <-]. left. exact Hexit.
Qed.

Lemma BCG_init_scopes excluded id1 n mu d (b x : mem K) :
  post (BCG_init excluded id1 n mu d b x) (fun _ t => scopes t = [None]).
Proof.
  unfold BCG_init.
  eapply post_bind; [apply post_emit|]. intros ? ? ->.
  quiet_call_step.
  eapply (post_bind _ _ (fun _ t => scopes t = [])).
  { destruct excluded; simpl; [by apply post_ret|].
    quiet_call_step. quiet_done. }
  intros ? ? ?.
  quiet_call_step. quiet_reduce_step.
  eapply (post_bind _ _ (fun _ t => scopes t = []));
    [apply BCG_QR_scopes|].
  intros [info wk'] ? ?. quiet_done.
Qed.

Lemma BCG_run_scopes fuel excluded opt (b x : mem K) mu e r :
  redirected opt = false ->
  BCG_run fuel excluded opt b x mu e = Some r ->
  exists allocate,
    scopes r.2 = [None; Some allocate] \/
    exists allocate', scopes r.2 = [None; Some allocate; None; Some allocate'].
Proof.
  intros Hred. unfold BCG_run.
  destruct (options 3 prefix opt) as [[[tol m0] id0] id1].
  unfold mbind at 1, MO_bind at 1, lift at 1.
  match goal with
  | |- context [BCG_init excluded id1 ?n mu ?d b x e] =>
      pose proof (BCG_init_scopes excluded id1 n mu d b x e) as Hi;
      destruct (BCG_init excluded id1 n mu d b x e)
        as [[[[[wk x1] allocate] info] e1] t1]
  end.
  simpl in Hi. intros Hrun. exists allocate.
  destruct (negb (info =? 0)).
  - unfold mbind, MO_bind in Hrun.
    destruct (BCG_fall_back excluded opt b mu allocate false x1 e1)
      as [[[[ret x'] e2] t2]|] eqn:Hfb; [|done].
    apply BCG_fall_back_scopes in Hfb as [allocate' Hfb]; [|done].
    revert Hrun. intros [= <-]. right. exists allocate'. simpl in *.
    by rewrite scopes_app, app_nil_r, Hi, Hfb.
  - destruct (BCG_norms _ _ mu wk) as [wk2 norm].
    destruct (BCG_loop fuel _ _ _ _ _ _ _ _ _ _ _ _ _ _ e1)
      as [[[v1 e2] t2]|] eqn:Hloop; [|done].
    apply BCG_loop_scopes in Hloop; [|done].
    revert Hrun. intros [= <-]. simpl in *. rewrite scopes_app, Hi.
    destruct Hloop as [->|[allocate' ->]]; [by left|right; by eexists].
Qed.

(** X18. Each method calls [A.start] once, before anything else of the two, and
    [A.end] once, after it, on every way out of its loop; BCG that gives
    the system to CG ends its own scope before CG starts another. *)
Theorem methods_end_what_they_start :
  (forall excluded opt (b x : mem K) mu e r,
     CG_run excluded opt b x mu e = Some r ->
     exists allocate, scopes r.2 = [None; Some allocate]) /\
  (forall fuel excluded opt (f x : mem K) e r,
     PCG_run fuel excluded opt f x e = Some r ->
     exists allocate, scopes r.2 = [None; Some allocate]) /\
  (forall fuel excluded opt (b x : mem K) mu e r,
     redirected opt = false ->
     BCG_run fuel excluded opt b x mu e = Some r ->
     exists allocate,
       scopes r.2 = [None; Some allocate] \/
       exists allocate',
         scopes r.2 = [None; Some allocate; None; Some allocate']).
Proof.
  split; [|split].
  - intros. by eapply CG_run_scopes.
  - intros. by eapply PCG_run_scopes.
  - intros. by eapply BCG_run_scopes.
Qed.

End Krylov_more.

(** * The update of the solution *)

Section Update_facts.
Context {K U Env : Type} `{SC : Scalar K U} `{BL : !Blas K U}.
Context `{UC : !UpdateCalls K Env}.

Local Abbreviation M := (@M K U Env).

Lemma update_apply_spec variant v idx n cols (u : UpdateMem) :
  post (update_apply variant v idx n cols u : M UpdateMem)
       (fun u' t =>
          t = [] /\ ux u' = ux u /\ us u' = us u /\ uwork u' = uwork u /\
          same_outside (v idx) (v idx + cols * n) (uv u) (uv u') /\
          (variant <> "R"%char -> uv u' = uv u)).
Proof.
  unfold update_apply.
  destruct (Ascii.eqb_spec variant "R"%char) as [->|Hne].
  - eapply post_bind; [apply post_call|].
    intros out t1 Ht. cbv beta in Ht. subst t1.
    apply post_ret. split_and!; try done.
    apply same_outside_stores_n; lia.
  - apply post_ret. split_and!; first [done|apply same_outside_refl].
Qed.

(** The loop over the columns of [x]: a column whose entry of
    [hasConverged] is 0 is not written, and no cell outside the columns
    is. *)
Lemma update_columns (hasConverged : mem Z) n mu
    (f : mem K -> Z -> list K) (x : mem K) :
  0 <= mu ->
  forall a,
    (forall nu, 0 <= nu < mu -> load 0 hasConverged nu <> 0 ->
                ~ (nu * n <= a < nu * n + n)) ->
    for_ 0 mu
      (fun x nu =>
         if negb (load 0 hasConverged nu =? 0)
         then stores_n K0 x (nu * n) n (f x nu) else x) x !! a
    = x !! a.
Proof.
  intros Hmu.
  apply (for_ind
           (fun c (x' : mem K) =>
              forall a,
                (forall nu, 0 <= nu < c -> load 0 hasConverged nu <> 0 ->
                            ~ (nu * n <= a < nu * n + n)) ->
                x' !! a = x !! a)
           _ mu x Hmu); [done|].
  intros c x' Hc IH a Ha.
  destruct (Z.eqb_spec (load 0 hasConverged c) 0) as [Heq|Hne]; cbn [negb].
  - apply IH. intros nu Hnu. apply Ha. lia.
  - rewrite lookup_stores_n_out.
    + apply IH. intros nu Hnu. apply Ha. lia.
    + specialize (Ha c ltac:(lia) Hne). lia.
Qed.

Lemma update_x variant n H v hasConverged mu hm (u : UpdateMem) :
  0 <= mu ->
  post (update variant n H v hasConverged mu (-1) hm u : M UpdateMem)
       (fun u' _ =>
          forall a,
            (forall nu, 0 <= nu < mu -> load 0 hasConverged nu <> 0 ->
                        ~ (nu * n <= a < nu * n + n)) ->
            ux u' !! a = ux u !! a).
Proof.
  intros Hmu. unfold update.
  destruct (update_solve H hasConverged mu (-1) hm (us u)) as [tmp s].
  cbn [Z.eqb]. destruct (Ascii.eqb variant "L"%char).
  - apply post_ret. intros a Ha. cbn [ux with_ux].
    by rewrite update_columns.
  - eapply post_bind; [apply update_apply_spec|].
    intros u1 ? (-> & Hx & _). apply post_ret. intros a Ha.
    cbn [ux with_ux]. rewrite update_columns by done.
    by rewrite Hx.
Qed.

(** X19. Without deflation, [update] adds the correction only to the columns
    of [x] whose entry of [hasConverged] is not 0: such a column aside, no
    cell of [x] changes, inside the [mu] columns of [n] cells or outside
    them. *)
Theorem update_keeps_idle_columns variant n H v hasConverged mu hm
    (u : UpdateMem) (e : Env) :
  0 <= n -> 0 <= mu ->
  let u' := (update variant n H v hasConverged mu (-1) hm u e).1.1 in
  same_outside 0 (mu * n) (ux u) (ux u') /\
  (forall nu j, 0 <= nu < mu -> load 0 hasConverged nu = 0 -> 0 <= j < n ->
     ux u' !! (nu * n + j) = ux u !! (nu * n + j)).
Proof.
  intros Hn Hmu u'.
  pose proof (update_x variant n H v hasConverged mu hm u Hmu e) as Hx.
  fold u' in Hx. split.
  - intros a Ha. apply Hx. intros nu Hnu _. nia.
  - intros nu j Hnu Hidle Hj. apply Hx. intros nu' Hnu' Hact Hin.
    assert (nu' = nu) by nia. congruence.
Qed.

Lemma update_rest variant n H v hasConverged mu deflated hm (u : UpdateMem) :
  let idx :=
    (update_solve H hasConverged mu deflated hm (us u)).1
      `quot` (if deflated =? -1 then mu else deflated) - 1 in
  let cols := if deflated =? -1 then mu else deflated in
  post (update variant n H v hasConverged mu deflated hm u : M UpdateMem)
       (fun u' t =>
          t = [] /\
          same_outside (v idx) (v idx + cols * n) (uv u) (uv u') /\
          (variant <> "R"%char -> uv u' = uv u) /\
          (variant = "L"%char -> deflated = -1 \/ deflated = mu ->
           uwork u' = uwork u)).
Proof.
  unfold update.
  destruct (update_solve H hasConverged mu deflated hm (us u)) as [tmp s].
  cbn [fst].
  set (idx := tmp `quot` (if deflated =? -1 then mu else deflated) - 1).
  assert (Hfinal : forall cols (u0 : UpdateMem) (g : UpdateMem -> mem K),
            uv u0 = uv u ->
            (variant = "L"%char -> deflated <> -1 /\ deflated <> mu) ->
            post (u1 ← update_apply variant v idx n cols u0;
                  mret (with_ux u1 (g u1)) : M UpdateMem)
                 (fun u' t =>
                    t = [] /\
                    same_outside (v idx) (v idx + cols * n) (uv u) (uv u') /\
                    (variant <> "R"%char -> uv u' = uv u) /\
                    (variant = "L"%char -> deflated = -1 \/ deflated = mu ->
                     uwork u' = uwork u))).
  { intros cols u0 g Hv HL.
    eapply post_bind; [apply update_apply_spec|].
    intros u1 ? (-> & _ & _ & _ & Hframe & Hkeep). apply post_ret.
    cbn [uv with_ux uwork]. rewrite <- Hv. split_and!; try done.
    intros Hvar Hcase. destruct (HL Hvar). lia. }
  destruct (Z.eqb_spec deflated (-1)) as [->|Hdefl].
  - destruct (Ascii.eqb_spec variant "L"%char) as [->|HL].
    + apply post_ret. split_and!; first [done|apply same_outside_refl].
    + by apply (Hfinal mu (with_uwork (with_us u s) _)).
  - destruct (Z.eqb_spec deflated mu) as [->|Hmu].
    + destruct (Ascii.eqb_spec variant "L"%char) as [->|HL].
      * apply post_ret. split_and!; first [done|apply same_outside_refl].
      * by apply (Hfinal mu (with_uwork (with_us u s) _)).
    + by apply (Hfinal deflated (with_uwork (with_us u s) _)).
Qed.

Lemma update_apply_idle variant v idx n cols (u : UpdateMem) :
  variant <> "R"%char ->
  (update_apply variant v idx n cols u : M UpdateMem) = mret u.
Proof.
  intros Hne. unfold update_apply.
  by destruct (Ascii.eqb_spec variant "R"%char).
Qed.

Lemma update_env variant n H v hasConverged mu deflated hm (u : UpdateMem)
    (e : Env) :
  variant <> "R"%char ->
  (update variant n H v hasConverged mu deflated hm u e).1.2 = e.
Proof.
  intros Hne. unfold update.
  destruct (update_solve H hasConverged mu deflated hm (us u)) as [tmp s].
  repeat match goal with
         | |- context [if ?c then _ else _] => destruct c
         end;
    rewrite ?update_apply_idle by done; reflexivity.
Qed.

(** X20. [update] calls no reduction.  It calls the operator, and writes the
    basis, only with right preconditioning, and then it writes only the
    vector [v[idx]] that [correction] names, [n] cells for each column
    that it updates.  With left preconditioning it leaves [work] as it is,
    unless a part only of the columns is deflated. *)
Theorem update_writes_elsewhere variant n H v hasConverged mu deflated hm
    (u : UpdateMem) (e : Env) :
  let r := update variant n H v hasConverged mu deflated hm u e in
  let cols := if deflated =? -1 then mu else deflated in
  let idx :=
    (update_solve H hasConverged mu deflated hm (us u)).1 `quot` cols - 1 in
  r.2 = [] /\
  (variant <> "R"%char -> r.1.2 = e /\ uv r.1.1 = uv u) /\
  (variant = "R"%char ->
   same_outside (v idx) (v idx + cols * n) (uv u) (uv r.1.1)) /\
  (variant = "L"%char -> deflated = -1 \/ deflated = mu ->
   uwork r.1.1 = uwork u).
Proof.
  intros r cols idx.
  destruct (update_rest variant n H v hasConverged mu deflated hm u e)
    as (Ht & Hframe & Hkeep & Hwork).
  fold r in Ht, Hframe, Hkeep, Hwork. split_and!.
  - exact Ht.
  - intros Hne. split; [by apply update_env|by apply Hkeep].
  - intros _. exact Hframe.
  - exact Hwork.
Qed.

End Update_facts.

(** * The properties on the inputs of the examples *)

Lemma numfact_idempotent_witness :
  SuiteSparse.null (SuiteSparse._c (SuiteSparse.numfact A_sym false new_solver))
    = false /\
  SuiteSparse.numfact A_general true
      (SuiteSparse.numfact A_sym false new_solver)
    = SuiteSparse.numfact A_sym false new_solver.
Proof.
  split; [reflexivity|].
  apply (proj1 (numfact_idempotent A_sym A_general false true
                  (SuiteSparse.numfact A_sym false new_solver))).
  left. reflexivity.
Defined.


Lemma kernels_write_newest_column_witness :
  0 <= 1 < 2 /\
  mH (Arnoldi (SC:=double) (BL:=ref_blas) (MP:=one_rank)
        (OP:=example_operator) false "L" 0 2 H_example v_example 2 1 1 None
        empty_blocks tt).1.1 !! 1
    = mH empty_blocks !! 1.
Proof.
  split; [lia|].
  destruct (kernels_write_newest_column (SC:=double) (BL:=ref_blas)
              (LP:=failing_lapack) (MP:=one_rank) (OP:=example_operator)
              false "L" 0 2 H_example v_example 0 2 1 1 None empty_blocks tt
              ltac:(lia) ltac:(lia)) as [[_ Hcolumns] _].
  destruct (Hcolumns 0 1 ltac:(lia)) as [Hcells _].
  apply Hcells; unfold H_example; lia.
Defined.


Lemma redirected_to_GMRES_witness :
  CG (SC:=double) (BL:=ref_blas) (MP:=one_rank) (OP:=example_operator)
     (HP:=example_helpers 0) false opt_schwarz b_example zero_vector 1 tt
    = Some (GMRES (Helpers:=example_helpers 0) false opt_schwarz b_example
                  zero_vector 1 tt).
Proof.
  apply (redirected_to_GMRES (SC:=double) (BL:=ref_blas) (LP:=failing_lapack)
           (MP:=one_rank) (OP:=example_operator) (HP:=example_helpers 0)
           1 false opt_schwarz b_example zero_vector 1 tt).
  left. reflexivity.
Defined.

Lemma BCG_falls_back_on_breakdown_witness :
  exists x1 t1,
    falls_back_to_CG (SC:=double) (BL:=ref_blas) (MP:=one_rank)
      (OP:=example_operator) (HP:=example_helpers 1) false opt_ten b_example
      1 false false x1 tt t1
      (BCG_run (SC:=double) (BL:=ref_blas) (LP:=failing_lapack)
         (MP:=one_rank) (OP:=example_operator) (HP:=example_helpers 1)
         20 false opt_ten b_example zero_vector 1 tt).
Proof.
  pose proof (BCG_falls_back_on_breakdown (SC:=double) (BL:=ref_blas)
                (LP:=failing_lapack) (MP:=one_rank) (OP:=example_operator)
                (HP:=example_helpers 1) 20 false opt_ten b_example 1 tt
                0x1p-30%float 10 0 0 eq_refl)
    as [Hinit _].
  destruct (BCG_init (SC:=double) (BL:=ref_blas) (MP:=one_rank)
              (OP:=example_operator) (HP:=example_helpers 1) false 0 2 1 None
              b_example zero_vector tt)
    as [[[[[wk x1] allocate] info] e1] t1] eqn:Heq.
  assert (Hinfo : info = 1 /\ allocate = false /\ e1 = tt).
  { vm_compute in Heq. by injection Heq as _ _ <- <- <- _. }
  destruct Hinfo as (-> & -> & ->).
  exists x1, t1. apply (Hinit zero_vector wk x1 false 1 tt t1 Heq). lia.
Defined.

Lemma PCG_counter_wraps_witness :
  let turn := PCG_body (SC:=double) (BL:=ref_blas) (MP:=one_rank)
                (OP:=example_operator) true (-1)%float 1%float 65535 0 2 0
                None last_turn tt in
  turn.1.1.2 = false /\ pcg_i turn.1.1.1 = 0.
Proof.
  intros turn.
  assert (Hstop : turn.1.1.2 = false) by reflexivity.
  split; [exact Hstop|].
  revert Hstop. unfold turn. clear turn.
  destruct (PCG_body (SC:=double) (BL:=ref_blas) (MP:=one_rank)
              (OP:=example_operator) true (-1)%float 1%float 65535 0 2 0
              None last_turn tt) as [[[st' stop] e1] t1] eqn:Hturn.
  cbn [fst snd]. intros ->.
  exact (proj1 (PCG_counter_wraps (SC:=double) (BL:=ref_blas) (MP:=one_rank)
                  (OP:=example_operator) 1 true (-1)%float 1%float 0 2 0
                  None O last_turn tt st' e1 t1 eq_refl Hturn)).
Defined.

Lemma PCG_verbosity_is_observational_witness :
  same_but_prints
    (PCG (SC:=double) (BL:=ref_blas) (MP:=one_rank) (OP:=example_operator)
         (HP:=example_helpers 0) 4 false opt_three b_example zero_vector tt)
    (PCG (SC:=double) (BL:=ref_blas) (MP:=one_rank) (OP:=example_operator)
         (HP:=example_helpers 0) 4 false opt_three_verbose b_example
         zero_vector tt).
Proof.
  exact (proj1 (proj2 (PCG_verbosity_is_observational (SC:=double)
                         (BL:=ref_blas) (MP:=one_rank) (OP:=example_operator)
                         (HP:=example_helpers 0) 4 false opt_three
                         opt_three_verbose 0x1p-30%float 3 0 3 0 0 b_example
                         zero_vector tt eq_refl eq_refl))).
Defined.

(** CG on [[4, 1], [1, 3]] x = [1, 2] from [x = 0], with a maximum of 10:
    the second turn ends at the [break], and the value returned is 1. *)
Lemma CG_returns_one_after_two_turns :
  exists x e t,
    CG_run (SC:=double) (BL:=ref_blas) (MP:=one_rank) (OP:=example_operator)
           (HP:=example_helpers 0) false opt_ten b_example zero_vector 1 tt
      = Some (1, x, 2%nat, e, t).
Proof. eexists _, _, _. vm_compute. reflexivity. Qed.

(** CG with [b = 0] and [x = 0], with a maximum of 3: the first turn
    divides zero by zero, the loop runs its three turns, and [x] holds no
    number. *)
Lemma CG_zero_right_hand_side :
  exists x e t,
    CG_run (SC:=double) (BL:=ref_blas) (MP:=one_rank) (OP:=example_operator)
           (HP:=example_helpers 0) false opt_three zero_vector zero_vector 1
           tt
      = Some (3, x, 3%nat, e, t) /\
    PrimFloat.is_nan (load 0%float x 0) = true.
Proof. eexists _, _, _. split; vm_compute; reflexivity. Qed.



(** ** The further properties on the inputs of the examples *)

Lemma solve_keeps_factorization_witness :
  SuiteSparse.holds lu_solver <> None /\
  SuiteSparse.numfact A_sym false (SuiteSparse.solve two_columns lu_solver).2
    = (SuiteSparse.solve two_columns lu_solver).2.
Proof.
  split; [done|].
  exact (proj2 (proj2 (solve_keeps_factorization (BK:=int_backends)
                         two_columns two_columns 2 A_sym false lu_solver
                         ltac:(done) _ (or_introl eq_refl)))).
Defined.

Lemma solve_without_factorization_witness :
  (SuiteSparse.solve two_columns new_solver).1 = two_columns /\
  (SuiteSparse.solve_n two_columns 2 new_solver).1 = two_columns.
Proof.
  apply (solve_without_factorization (BK:=int_backends) two_columns 2
           new_solver); [reflexivity|reflexivity|lia].
Defined.

Lemma solve_n_by_columns_witness :
  SuiteSparse._W lu_solver = Some 2 /\
  (SuiteSparse.solve_n two_columns 2 lu_solver).1 !! 3 = Some 4.
Proof.
  split; [reflexivity|].
  exact (proj1 (solve_n_by_columns (BK:=int_backends) two_columns 2 2
                  lu_solver eq_refl eq_refl ltac:(lia) ltac:(lia))
               1 1 ltac:(lia) ltac:(lia)).
Defined.

Lemma expansion_rows_sorted_witness :
  (SuiteSparse.sort_row <$> SuiteSparse.expand_rows (BK:=int_backends) A_sym)
    !! O = Some [(0, 2); (1, 1)] /\
  StronglySorted SuiteSparse.by_column [(0, 2); (1, 1)].
Proof.
  split; [reflexivity|].
  exact (proj1 (expansion_rows_sorted (BK:=int_backends) A_sym O
                  [(0, 2); (1, 1)] eq_refl)).
Defined.

Lemma expansion_is_symmetric_witness :
  SuiteSparse.in_row
    (SuiteSparse.sort_row <$> SuiteSparse.expand_rows (BK:=int_backends) A_sym)
    0 (1, 1).
Proof.
  apply (expansion_is_symmetric (BK:=int_backends) A_sym 1 0 1);
    [simpl; lia|simpl; lia|].
  split; [lia|]. exists [(0, 1); (1, 2)]. split; [reflexivity|].
  apply list_elem_of_here.
Defined.

Lemma umfpack_input_layout_witness :
  SuiteSparse._sym A_sym = true /\
  (SuiteSparse.umfpack_input (BK:=int_backends) A_sym).1.1 !! O = Some 0.
Proof.
  split; [reflexivity|].
  pose proof (umfpack_input_layout (BK:=int_backends) A_sym eq_refl) as H.
  destruct (SuiteSparse.umfpack_input A_sym) as [[ia ja] a].
  exact (proj1 (proj2 (proj2 (proj2 H)))).
Defined.

Lemma kernels_keep_basis_witness :
  (forall j, v_example j = v_example 0 + j * (1 * 2)) /\
  mv (Arnoldi (SC:=double) (BL:=ref_blas) (MP:=one_rank)
        (OP:=example_operator) false "L" 0 2 H_example v_example 2 1 1 None
        empty_blocks tt).1.1 !! 3
    = mv empty_blocks !! 3.
Proof.
  assert (Hv : forall j, v_example j = v_example 0 + j * (1 * 2))
    by (intros j; unfold v_example; lia).
  split; [exact Hv|].
  exact (proj1 (proj2 (kernels_keep_basis (SC:=double) (BL:=ref_blas)
                         (LP:=failing_lapack) (MP:=one_rank)
                         (OP:=example_operator) false "L" 0 2 H_example
                         v_example 0 2 1 1 None empty_blocks tt ltac:(lia)
                         ltac:(lia) ltac:(lia))
                      Hv 1 3 ltac:(lia) ltac:(unfold v_example; lia))).
Defined.

Lemma kernels_write_rhs_and_save_witness :
  msave (Arnoldi (SC:=double) (BL:=ref_blas) (MP:=one_rank)
           (OP:=example_operator) false "L" 0 2 H_example v_example 2 1 1
           None empty_blocks tt).1.1
    = msave empty_blocks.
Proof.
  exact (proj2 (proj1 (kernels_write_rhs_and_save (SC:=double)
                         (BL:=ref_blas) (LP:=failing_lapack) (MP:=one_rank)
                         (OP:=example_operator) false "L" 0 2 H_example
                         v_example 0 2 1 1 None empty_blocks tt ltac:(lia)
                         ltac:(lia) ltac:(lia)))).
Defined.

Lemma BlockArnoldi_reduces_alike_witness :
  reductions
    (BlockArnoldi (SC:=double) (BL:=ref_blas) (LP:=failing_lapack)
       (MP:=one_rank) (OP:=example_operator) true "L" 1 2 H_example
       v_example 0 0 1 2 None empty_blocks tt).2
    = [(4, mpi_type); (4, mpi_type); (3, mpi_type)].
Proof.
  exact (proj1 (BlockArnoldi_reduces_alike (SC:=double) (BL:=ref_blas)
                  (LP:=failing_lapack) (MP:=one_rank) (OP:=example_operator)
                  "L" "L" 1 2 H_example H_example v_example v_example 0 0
                  0 2 1 2 None None empty_blocks empty_blocks tt tt
                  ltac:(lia) ltac:(lia) ltac:(lia) ltac:(lia))).
Defined.

Lemma CG_turn_keeps_converged_columns_witness :
  cg_x (CG_body (SC:=double) (BL:=ref_blas) (MP:=one_rank)
          (OP:=example_operator) (HP:=example_helpers 0) false 0x1p-30%float
          10 0 0 2 1 None first_turn tt).1.1.1 !! 2
    = cg_x first_turn !! 2.
Proof.
  apply (CG_turn_keeps_converged_columns (SC:=double) (BL:=ref_blas)
           (MP:=one_rank) (OP:=example_operator) (HP:=example_helpers 0)
           false 0x1p-30%float 10 0 0 2 1 None first_turn tt ltac:(lia)
           ltac:(lia)).
  right. lia.
Defined.

Lemma PCG_turn_within_alpha_witness :
  1 <= pcg_i last_turn <= 65535 /\
  same_outside 0 (Z.max 2 65535) (pcg_alpha last_turn)
    (pcg_alpha (PCG_body (SC:=double) (BL:=ref_blas) (MP:=one_rank)
                  (OP:=example_operator) true 0x1p-30%float 1%float 65535 0
                  2 0 None last_turn tt).1.1.1).
Proof.
  assert (Hi : 1 <= pcg_i last_turn <= 65535) by (cbn [pcg_i last_turn]; lia).
  split; [exact Hi|].
  exact (PCG_turn_within_alpha (SC:=double) (BL:=ref_blas) (MP:=one_rank)
           (OP:=example_operator) true 0x1p-30%float 1%float 65535 0 2 0
           None last_turn tt Hi).
Defined.

Lemma PCG_keeps_its_vectors_witness :
  let st := (PCG_init (SC:=double) (OP:=example_operator) false 2 0
               b_example zero_vector tt).1.1.1.1 in
  let r := PCG_body (SC:=double) (BL:=ref_blas) (MP:=one_rank)
             (OP:=example_operator) false 0x1p-30%float 1%float 3 0 2 0 None
             st tt in
  r.1.1.2 = false /\ PCG_vectors r.1.1.1.
Proof.
  intros st r.
  assert (Hstop : r.1.1.2 = false) by (vm_compute; reflexivity).
  split; [exact Hstop|].
  pose proof (PCG_keeps_its_vectors (SC:=double) (BL:=ref_blas)
                (MP:=one_rank) (OP:=example_operator) 0x1p-30%float 1%float
                3 0 2 0 None b_example zero_vector st tt) as [Hinit Hturn].
  apply Hturn; [exact Hinit|vm_compute; reflexivity|exact Hstop].
Defined.


Lemma methods_end_what_they_start_witness :
  exists r allocate,
    CG_run (SC:=double) (BL:=ref_blas) (MP:=one_rank) (OP:=example_operator)
           (HP:=example_helpers 0) false opt_ten b_example zero_vector 1 tt
      = Some r /\
    scopes r.2 = [None; Some allocate].
Proof.
  assert (Hrun : exists r,
            CG_run (SC:=double) (BL:=ref_blas) (MP:=one_rank)
                   (OP:=example_operator) (HP:=example_helpers 0) false
                   opt_ten b_example zero_vector 1 tt = Some r)
    by (eexists; vm_compute; reflexivity).
  destruct Hrun as [r Hrun].
  destruct (proj1 (methods_end_what_they_start (SC:=double) (BL:=ref_blas)
                     (LP:=failing_lapack) (MP:=one_rank)
                     (OP:=example_operator) (HP:=example_helpers 0))
                  false opt_ten b_example zero_vector 1 tt r Hrun)
    as [allocate Hscopes].
  exists r, allocate. split; assumption.
Defined.

Lemma update_keeps_idle_columns_witness :
  load 0 (∅ : mem Z) 0 = 0 /\
  ux (update (SC:=double) (BL:=ref_blas) (UC:=copying_calls) "L" 2 H_example
        v_example ∅ 1 (-1) ∅ update_blocks tt).1.1 !! 0
    = ux update_blocks !! 0.
Proof.
  split; [reflexivity|].
  exact (proj2 (update_keeps_idle_columns (SC:=double) (BL:=ref_blas)
                  (UC:=copying_calls) "L" 2 H_example v_example ∅ 1 ∅
                  update_blocks tt ltac:(lia) ltac:(lia))
               0 0 ltac:(lia) eq_refl ltac:(lia)).
Defined.

Lemma update_writes_elsewhere_witness :
  uwork (update (SC:=double) (BL:=ref_blas) (UC:=copying_calls) "L" 2
           H_example v_example ∅ 1 (-1) ∅ update_blocks tt).1.1
    = uwork update_blocks.
Proof.
  exact (proj2 (proj2 (proj2 (update_writes_elsewhere (SC:=double)
                                (BL:=ref_blas) (UC:=copying_calls) "L" 2
                                H_example v_example ∅ 1 (-1) ∅
                                update_blocks tt)))
               eq_refl (or_introl eq_refl)).
Defined.
